(** * Feature queue, step progress and the agent line protocol

    A shallow embedding of the feature-management tools of
    [mcp_server/feature_mcp.py] (over the tables of [api/database.py]) and
    of the stdin/stdout message protocol of [agent_communication.py],
    with the properties the specification states about them.

    Conventions of the embedding:
    - a table is the list of its rows, in rowid order; a tool is a function
      from its arguments and the database to its answer and the database
      it leaves behind (one session, one commit);
    - Python integers are [Z], the strings of the tools are [string], a
      nullable column is an [option];
    - [datetime.utcnow()] is the argument [now] of the tools that read the
      clock, [os.environ.get("AGENT_ID", "")] the argument [env_agent_id];
    - [json.dumps] and [json.loads] of the Python library are modelled for
      the documents without fractional numbers; the listener takes the
      decoder as a parameter, so what is proved of it holds for any
      decoder;
    - an exception is a result [Raise e] of the operation that raises it;
      what the listener does is the list of the calls it makes and of the
      errors it prints. *)

From Stdlib Require Import ZArith List String Ascii Bool Lia.
From Stdlib Require Import DecimalFacts DecimalPos DecimalN DecimalString.
From Stdlib Require Import Sorting.Permutation Sorting.Sorted.
From stdpp Require Import base option list strings gmap.

Local Open Scope string_scope.
Local Open Scope Z_scope.

(** ** Rows of the two tables ([api/database.py]) *)

Module Feature.
Record t : Type := mk {
  id : Z;
  priority : Z;
  type : string;
  category : string;
  name : string;
  description : string;
  steps : list string;
  passes : bool;
  in_progress : bool;
  label : option string;
  assigned_agent_id : option string
}.

Definition with_priority (p : Z) (f : t) : t :=
  mk (id f) p (type f) (category f) (name f) (description f) (steps f)
     (passes f) (in_progress f) (label f) (assigned_agent_id f).

Definition with_passes (b : bool) (f : t) : t :=
  mk (id f) (priority f) (type f) (category f) (name f) (description f)
     (steps f) b (in_progress f) (label f) (assigned_agent_id f).

Definition with_in_progress (b : bool) (f : t) : t :=
  mk (id f) (priority f) (type f) (category f) (name f) (description f)
     (steps f) (passes f) b (label f) (assigned_agent_id f).

Definition with_assigned_agent_id (a : option string) (f : t) : t :=
  mk (id f) (priority f) (type f) (category f) (name f) (description f)
     (steps f) (passes f) (in_progress f) (label f) a.
End Feature.

Module StepProgress.
Record t : Type := mk {
  id : Z;
  feature_id : Z;
  step_index : Z;
  step_text : string;
  completed : bool;
  started_at : option Z;
  completed_at : option Z;
  notes : option string
}.

Definition with_started_at (ts : option Z) (s : t) : t :=
  mk (id s) (feature_id s) (step_index s) (step_text s) (completed s)
     ts (completed_at s) (notes s).
End StepProgress.

(** The database: the [features] table and the [step_progress] table. *)
Record db : Type := mkdb {
  features : list Feature.t;
  step_progress : list StepProgress.t
}.

(** ** Answers of the tools

    Every tool answers with a JSON document: the row (or a summary) on
    success, [{"error": ...}] otherwise.  [error] has one constructor per
    error message of [feature_mcp.py]; [kind_of] files it under the
    specification's taxonomy. *)

Inductive error : Type :=
  | FeatureNotFound (feature_id : Z)
  | CannotSkipPassing
  | AlreadyPassing (feature_id : Z)
  | InProgressByAgent (feature_id : Z) (holder : string)
  | AllPassingOrAssigned
  | NoFeaturesToClaim
  | AssignedToOtherAgent (holder agent_id : string)
  | MissingRequiredFields (index : nat)
  | StepNotFound (step_index feature_id : Z).

Inductive error_kind : Type :=
  NotFound | Conflict | NotAvailable | Forbidden | Invalid.

Definition kind_of (e : error) : error_kind :=
  match e with
  | FeatureNotFound _ => NotFound
  | CannotSkipPassing => Conflict
  | AlreadyPassing _ => Conflict
  | InProgressByAgent _ _ => Conflict
  | AllPassingOrAssigned => NotAvailable
  | NoFeaturesToClaim => NotAvailable
  | AssignedToOtherAgent _ _ => Forbidden
  | MissingRequiredFields _ => Invalid
  | StepNotFound _ _ => NotFound
  end.

Inductive response (A : Type) : Type :=
  | Success (a : A)
  | Failure (e : error).
Arguments Success {A} a.
Arguments Failure {A} e.

(** ** Python truthiness of the values the tools test *)

(** [if agent_id:] on a [str]. *)
Definition truthy (s : string) : bool := negb (String.eqb s "").

(** [if feature.assigned_agent_id:] on a nullable string column. *)
Definition truthy_opt (o : option string) : bool :=
  match o with
  | Some s => truthy s
  | None => false
  end.

(** [feature.assigned_agent_id != agent_id], the column being nullable. *)
Definition opt_string_neqb (o : option string) (s : string) : bool :=
  match o with
  | Some h => negb (String.eqb h s)
  | None => true
  end.

(** ** Queries *)

(** [session.query(Feature).filter(Feature.id == feature_id).first()] *)
Definition get_feature (feature_id : Z) (rows : list Feature.t)
  : option Feature.t :=
  List.find (fun f => Feature.id f =? feature_id) rows.

(** Committing a row the session has loaded and modified: the row with its
    primary key is replaced. *)
Fixpoint commit_feature (f' : Feature.t) (rows : list Feature.t)
  : list Feature.t :=
  match rows with
  | [] => []
  | r :: rs =>
      if Feature.id r =? Feature.id f' then f' :: rs
      else r :: commit_feature f' rs
  end.

(** [session.query(Feature.priority).order_by(Feature.priority.desc()).first()] *)
Fixpoint max_priority (rows : list Feature.t) : option Z :=
  match rows with
  | [] => None
  | r :: rs =>
      match max_priority rs with
      | Some m => Some (Z.max (Feature.priority r) m)
      | None => Some (Feature.priority r)
      end
  end.

(** [(max_priority_result[0] + 1) if max_priority_result else 1] *)
Definition next_priority (rows : list Feature.t) : Z :=
  match max_priority rows with
  | Some m => m + 1
  | None => 1
  end.

(** ** [feature_skip] *)

Record skip_details : Type := mk_skip {
  skip_id : Z;
  skip_name : string;
  old_priority : Z;
  new_priority : Z
}.

Definition feature_skip (feature_id : Z) (d : db)
  : response skip_details * db :=
  match get_feature feature_id (features d) with
  | None => (Failure (FeatureNotFound feature_id), d)
  | Some feature =>
      if Feature.passes feature then (Failure CannotSkipPassing, d)
      else
        let old := Feature.priority feature in
        let new := next_priority (features d) in
        let feature' :=
          Feature.with_in_progress false (Feature.with_priority new feature) in
        (Success (mk_skip (Feature.id feature') (Feature.name feature') old new),
         mkdb (commit_feature feature' (features d)) (step_progress d))
  end.

(** ** [feature_mark_passing] *)

Definition feature_mark_passing (feature_id : Z) (d : db)
  : response Feature.t * db :=
  match get_feature feature_id (features d) with
  | None => (Failure (FeatureNotFound feature_id), d)
  | Some feature =>
      let feature' :=
        Feature.with_assigned_agent_id None
          (Feature.with_in_progress false (Feature.with_passes true feature)) in
      (Success feature',
       mkdb (commit_feature feature' (features d)) (step_progress d))
  end.

(** ** [feature_mark_in_progress] *)

Definition feature_mark_in_progress (feature_id : Z) (agent_id : string) (d : db)
  : response Feature.t * db :=
  match get_feature feature_id (features d) with
  | None => (Failure (FeatureNotFound feature_id), d)
  | Some feature =>
      if Feature.passes feature then (Failure (AlreadyPassing feature_id), d)
      else if Feature.in_progress feature
              && truthy_opt (Feature.assigned_agent_id feature)
              && truthy agent_id
              && opt_string_neqb (Feature.assigned_agent_id feature) agent_id
      then (Failure (InProgressByAgent feature_id
                       (default "" (Feature.assigned_agent_id feature))), d)
      else
        let feature1 := Feature.with_in_progress true feature in
        let feature' :=
          if truthy agent_id
          then Feature.with_assigned_agent_id (Some agent_id) feature1
          else feature1 in
        (Success feature',
         mkdb (commit_feature feature' (features d)) (step_progress d))
  end.

(** ** [feature_clear_in_progress] *)

Definition feature_clear_in_progress (feature_id : Z) (d : db)
  : response Feature.t * db :=
  match get_feature feature_id (features d) with
  | None => (Failure (FeatureNotFound feature_id), d)
  | Some feature =>
      let feature' :=
        Feature.with_assigned_agent_id None
          (Feature.with_in_progress false feature) in
      (Success feature',
       mkdb (commit_feature feature' (features d)) (step_progress d))
  end.

(** ** Ordered selection: [order_by(Feature.priority.asc(), Feature.id.asc()).first()] *)

(** [f] comes strictly before [g] under [ORDER BY priority ASC, id ASC]. *)
Definition sorts_before (f g : Feature.t) : bool :=
  (Feature.priority f <? Feature.priority g)
  || ((Feature.priority f =? Feature.priority g)
      && (Feature.id f <? Feature.id g)).

(** The first row of the ordered result; [None] when no row is left. *)
Fixpoint order_first (rows : list Feature.t) : option Feature.t :=
  match rows with
  | [] => None
  | r :: rs =>
      match order_first rs with
      | Some b => Some (if sorts_before b r then b else r)
      | None => Some r
      end
  end.

(** [(Feature.assigned_agent_id == None) | (Feature.assigned_agent_id == agent_id)] *)
Definition unassigned_or_mine (agent_id : string) (f : Feature.t) : bool :=
  match Feature.assigned_agent_id f with
  | None => true
  | Some h => String.eqb h agent_id
  end.

(** [((Feature.in_progress == False) & (Feature.assigned_agent_id == None))
     | (Feature.assigned_agent_id == agent_id)] *)
Definition claimable (agent_id : string) (f : Feature.t) : bool :=
  match Feature.assigned_agent_id f with
  | None => negb (Feature.in_progress f)
  | Some h => String.eqb h agent_id
  end.

(** ** [feature_get_next] *)

Definition feature_get_next (env_agent_id agent_id : string) (d : db)
  : response Feature.t * db :=
  let agent_id := if truthy agent_id then agent_id else env_agent_id in
  let query := List.filter (fun f => negb (Feature.passes f)) (features d) in
  let query :=
    if truthy agent_id then List.filter (unassigned_or_mine agent_id) query
    else query in
  match order_first query with
  | None => (Failure AllPassingOrAssigned, d)
  | Some feature =>
      if truthy agent_id && negb (Feature.in_progress feature) then
        let feature' :=
          Feature.with_assigned_agent_id (Some agent_id)
            (Feature.with_in_progress true feature) in
        (Success feature',
         mkdb (commit_feature feature' (features d)) (step_progress d))
      else (Success feature, d)
  end.

(** ** [feature_claim_next] *)

Definition feature_claim_next (agent_id : string) (d : db)
  : response Feature.t * db :=
  let query := List.filter (fun f => negb (Feature.passes f)) (features d) in
  let query := List.filter (claimable agent_id) query in
  match order_first query with
  | None => (Failure NoFeaturesToClaim, d)
  | Some feature =>
      let feature' :=
        Feature.with_assigned_agent_id (Some agent_id)
          (Feature.with_in_progress true feature) in
      (Success feature',
       mkdb (commit_feature feature' (features d)) (step_progress d))
  end.

(** ** [feature_release] *)

Definition feature_release (feature_id : Z) (agent_id : string) (d : db)
  : response Feature.t * db :=
  match get_feature feature_id (features d) with
  | None => (Failure (FeatureNotFound feature_id), d)
  | Some feature =>
      if truthy agent_id
         && truthy_opt (Feature.assigned_agent_id feature)
         && opt_string_neqb (Feature.assigned_agent_id feature) agent_id
      then (Failure (AssignedToOtherAgent
                       (default "" (Feature.assigned_agent_id feature))
                       agent_id), d)
      else
        let feature' :=
          Feature.with_assigned_agent_id None
            (Feature.with_in_progress false feature) in
        (Success feature',
         mkdb (commit_feature feature' (features d)) (step_progress d))
  end.

(** ** [feature_create_bulk] *)

(** One element of the [features] argument: a [dict] in which each of the
    keys the tool reads may be absent. *)
Module FeatureData.
Record t : Type := mk {
  type : option string;
  category : option string;
  name : option string;
  description : option string;
  steps : option (list string)
}.
End FeatureData.

(** The primary key the table gives the next inserted row. *)
Definition next_id (rows : list Feature.t) : Z :=
  fold_right (fun r m => Z.max (Feature.id r) m) 0 rows + 1.

(** The body of [for i, feature_data in enumerate(features)], from index [i]
    on: the rows added to the session, or the error that ends the call. *)
Fixpoint create_rows (start_priority first_id : Z) (label : option string)
    (i : nat) (batch : list FeatureData.t) : response (list Feature.t) :=
  match batch with
  | [] => Success []
  | feature_data :: rest =>
      match FeatureData.category feature_data, FeatureData.name feature_data,
            FeatureData.description feature_data, FeatureData.steps feature_data with
      | Some category, Some name, Some description, Some steps =>
          let feature_type := default "feature" (FeatureData.type feature_data) in
          let base_priority := start_priority + Z.of_nat i in
          let priority :=
            if String.eqb feature_type "bug" then base_priority - 500
            else base_priority in
          let db_feature :=
            Feature.mk (first_id + Z.of_nat i) priority feature_type category
              name description steps false false label None in
          match create_rows start_priority first_id label (S i) rest with
          | Success rows => Success (db_feature :: rows)
          | Failure e => Failure e
          end
      | _, _, _, _ => Failure (MissingRequiredFields i)
      end
  end.

Definition feature_create_bulk (batch : list FeatureData.t)
    (label : option string) (d : db) : response (nat * option string) * db :=
  let start_priority := next_priority (features d) in
  match create_rows start_priority (next_id (features d)) label 0 batch with
  | Failure e => (Failure e, d)
  | Success rows =>
      (Success (length rows, label),
       mkdb (features d ++ rows) (step_progress d))
  end.

(** ** [feature_step_mark_started] *)

(** [session.query(StepProgress).filter(StepProgress.feature_id == feature_id,
     StepProgress.step_index == step_index).first()] *)
Definition get_step (feature_id step_index : Z) (rows : list StepProgress.t)
  : option StepProgress.t :=
  List.find (fun s => (StepProgress.feature_id s =? feature_id)
                      && (StepProgress.step_index s =? step_index)) rows.

Fixpoint commit_step (s' : StepProgress.t) (rows : list StepProgress.t)
  : list StepProgress.t :=
  match rows with
  | [] => []
  | r :: rs =>
      if StepProgress.id r =? StepProgress.id s' then s' :: rs
      else r :: commit_step s' rs
  end.

Definition feature_step_mark_started (now : Z) (feature_id step_index : Z)
    (d : db) : response StepProgress.t * db :=
  match get_step feature_id step_index (step_progress d) with
  | None => (Failure (StepNotFound step_index feature_id), d)
  | Some step =>
      let step' := StepProgress.with_started_at (Some now) step in
      (Success step', mkdb (features d) (commit_step step' (step_progress d)))
  end.

(** ** Sample rows and databases *)

Definition sample_feature (id priority : Z) (passes in_progress : bool)
    (assigned_agent_id : option string) : Feature.t :=
  Feature.mk id priority "feature" "core" "item" "a unit of work"
    ["write it"; "test it"] passes in_progress None assigned_agent_id.

(** Three items: one worked on by agent [a], one pending, one passing. *)
Definition sample_db : db :=
  mkdb [ sample_feature 1 1 false true (Some "a");
         sample_feature 2 7 false false None;
         sample_feature 3 3 true false None ]
       [].

(** A step table for feature 1: its first step not started yet. *)
Definition sample_steps_db : db :=
  mkdb [ sample_feature 1 1 false true (Some "a") ]
       [ StepProgress.mk 1 1 0 "write it" false None None None;
         StepProgress.mk 2 1 1 "test it" false None None None ].

(** ** The statements of the specification that are compared with the code *)

(** "owner != null implies claimed == true", on a row and on the table. *)
Definition owner_implies_claimed (f : Feature.t) : Prop :=
  Feature.assigned_agent_id f <> None -> Feature.in_progress f = true.

Definition owner_invariant (d : db) : Prop :=
  Forall owner_implies_claimed (features d).

(** "sets startedAt to current time if not already set; overwriting an
    existing startedAt is disallowed (first call wins)": what the step
    record of [(feature_id, step_index)] must hold after a call at [now]. *)
Definition first_call_wins (now feature_id step_index : Z) (d : db) : Prop :=
  forall step step',
    get_step feature_id step_index (step_progress d) = Some step ->
    get_step feature_id step_index
      (step_progress (snd (feature_step_mark_started now feature_id step_index d)))
      = Some step' ->
    StepProgress.started_at step' =
      match StepProgress.started_at step with
      | Some t => Some t
      | None => Some now
      end.

(** An item marked in progress without an agent identifier (item 1), and a
    pending item behind it. *)
Definition anonymous_claim_db : db :=
  mkdb [ sample_feature 1 1 false true None;
         sample_feature 2 2 false false None ]
       [].

(** "lower priority sorts first, tie-break: lowest id": [f] is not after [g]. *)
Definition ordered_le (f g : Feature.t) : Prop :=
  Feature.priority f < Feature.priority g
  \/ (Feature.priority f = Feature.priority g /\ Feature.id f <= Feature.id g).

(** [nextAvailable(forOwner)] in the specification's words: "the
    lowest-priority (tie-break: lowest id) incomplete item whose owner is
    null or equals forOwner". *)
Definition nextAvailable_spec (forOwner : string) (rows : list Feature.t)
    (f : Feature.t) : Prop :=
  In f rows
  /\ Feature.passes f = false
  /\ (Feature.assigned_agent_id f = None
      \/ Feature.assigned_agent_id f = Some forOwner)
  /\ forall g, In g rows -> Feature.passes g = false ->
       (Feature.assigned_agent_id g = None
        \/ Feature.assigned_agent_id g = Some forOwner) ->
       ordered_le f g.

(** The claim an agent makes on a row. *)
Definition claimed_by (owner : string) (f : Feature.t) : Feature.t :=
  Feature.with_assigned_agent_id (Some owner) (Feature.with_in_progress true f).

(** "claimNext(owner) selects exactly the item that nextAvailable(owner)
    specifies and returns it with claimed=true and owner set to the caller;
    it returns NotAvailable exactly when nextAvailable(owner) returns Empty". *)
Definition claimNext_refines_nextAvailable (owner : string) (d : db) : Prop :=
  match fst (feature_claim_next owner d) with
  | Success f' =>
      exists f, nextAvailable_spec owner (features d) f /\ f' = claimed_by owner f
  | Failure e =>
      kind_of e = NotAvailable
      /\ forall f, ~ nextAvailable_spec owner (features d) f
  end.

(** The selection [feature_claim_next] documents: the first item, in queue
    order, that is not passing and is either assigned to the caller or
    neither in progress nor assigned. *)
Definition available_to (agent_id : string) (f : Feature.t) : Prop :=
  Feature.assigned_agent_id f = Some agent_id
  \/ (Feature.in_progress f = false /\ Feature.assigned_agent_id f = None).

Definition next_claimable (agent_id : string) (rows : list Feature.t)
    (f : Feature.t) : Prop :=
  In f rows
  /\ Feature.passes f = false
  /\ available_to agent_id f
  /\ forall g, In g rows -> Feature.passes g = false ->
       available_to agent_id g -> ordered_le f g.

(** A batch of two: an ordinary item and a bug, two declared steps each. *)
Definition sample_batch : list FeatureData.t :=
  [ FeatureData.mk None (Some "ui") (Some "button") (Some "add a button")
      (Some ["draw it"; "wire it"]);
    FeatureData.mk (Some "bug") (Some "ui") (Some "crash") (Some "fix the crash")
      (Some ["reproduce"; "fix"]) ].

(** The keys [feature_create_bulk] requires of a batch element. *)
Definition required_fields_present (feature_data : FeatureData.t) : Prop :=
  is_Some (FeatureData.category feature_data)
  /\ is_Some (FeatureData.name feature_data)
  /\ is_Some (FeatureData.description feature_data)
  /\ is_Some (FeatureData.steps feature_data).

(** "defects receive an automatic priority boost (subtract a fixed large
    constant, e.g. 500, from their computed priority)". *)
Definition defect_boost (feature_data : FeatureData.t) : Z :=
  if String.eqb (default "feature" (FeatureData.type feature_data)) "bug"
  then 500 else 0.

(** "create persists all StepRecords", one per declared step of every
    created item. *)
Definition create_persists_step_records (batch : list FeatureData.t)
    (label : option string) (d : db) : Prop :=
  forall answer d',
    feature_create_bulk batch label d = (Success answer, d') ->
    forall f (i : nat) step_text,
      In f (features d') -> ~ In f (features d) ->
      Feature.steps f !! i = Some step_text ->
      exists s, In s (step_progress d')
                /\ StepProgress.feature_id s = Feature.id f
                /\ StepProgress.step_index s = Z.of_nat i.

(** ** Claims made one after the other *)

(** The calls [feature_claim_next owner] for the owners of a list, each
    one run to its end before the next starts. *)
Definition claim_in_turn (owners : list string) (d : db) : db :=
  fold_left (fun d owner => snd (feature_claim_next owner d)) owners d.

(** The items in progress, and the agents they are assigned to. *)
Definition in_progress_items (d : db) : list Feature.t :=
  List.filter Feature.in_progress (features d).

Definition holders (d : db) : list (option string) :=
  map Feature.assigned_agent_id (in_progress_items d).

(** The items that are not passing. *)
Definition incomplete_items (d : db) : list Feature.t :=
  List.filter (fun f => negb (Feature.passes f)) (features d).

(** A table with its primary key, in which no item is in progress or
    assigned. *)
Definition unclaimed_queue (d : db) : Prop :=
  List.NoDup (map Feature.id (features d))
  /\ Forall (fun f => Feature.in_progress f = false
                      /\ Feature.assigned_agent_id f = None) (features d).

(** The state of an item while the agents of [done] have claimed: not
    touched yet, or held by one of them. *)
Definition untouched (f : Feature.t) : Prop :=
  Feature.in_progress f = false /\ Feature.assigned_agent_id f = None.

Definition held_by_one_of (done : list string) (f : Feature.t) : Prop :=
  Feature.in_progress f = true /\ Feature.passes f = false
  /\ exists o, Feature.assigned_agent_id f = Some o /\ In o done.

Definition claims_of (done : list string) (M : nat) (d : db) : Prop :=
  List.NoDup (map Feature.id (features d))
  /\ Forall (fun f => untouched f \/ held_by_one_of done f) (features d)
  /\ List.NoDup (holders d)
  /\ length (in_progress_items d) = Nat.min (length done) M
  /\ length (incomplete_items d) = M.

(** ** Claims made at the same time

    A call of [feature_claim_next] is two statements on the database: the
    query that [.first()] runs, and the update of the row it returned, at
    [session.commit()]. [with_for_update] asks for a lock on the row
    between the two; the engine of [api/database.py] is SQLite, for which
    the query is issued without it, so the calls of two sessions can take
    turns between the statements. *)

(** The query: the row [.first()] returns. *)
Definition claim_select (agent_id : string) (d : db) : option Feature.t :=
  let query := List.filter (fun f => negb (Feature.passes f)) (features d) in
  let query := List.filter (claimable agent_id) query in
  order_first query.

(** The rest of the call, on the database as it is by then: the error
    when the query found nothing, else the two assignments, the commit and
    the answer. *)
Definition claim_commit (agent_id : string) (selected : option Feature.t)
    (d : db) : response Feature.t * db :=
  match selected with
  | None => (Failure NoFeaturesToClaim, d)
  | Some feature =>
      let feature' :=
        Feature.with_assigned_agent_id (Some agent_id)
          (Feature.with_in_progress true feature) in
      (Success feature',
       mkdb (commit_feature feature' (features d)) (step_progress d))
  end.

(** Two calls whose queries both run before either commit: the answers of
    the two agents, and the database after both calls have returned. *)
Definition claim_interleaved (a b : string) (d : db)
  : response Feature.t * response Feature.t * db :=
  let selected_a := claim_select a d in
  let selected_b := claim_select b d in
  let (answer_a, d1) := claim_commit a selected_a d in
  let (answer_b, d2) := claim_commit b selected_b d1 in
  (answer_a, answer_b, d2).

(** "the number of items with claimed=true afterward equals min(N, M), and
    each claimed item's owner is unique across all claimed items", for the
    two calls of [claim_interleaved]. *)
Definition two_claims_counted (d d2 : db) : Prop :=
  length (in_progress_items d2) = Nat.min 2 (length (incomplete_items d))
  /\ List.NoDup (holders d2).

(** Two items, neither claimed. *)
Definition two_pending_db : db :=
  mkdb [ sample_feature 1 1 false false None;
         sample_feature 2 2 false false None ]
       [].

(** ** JSON documents ([json.dumps], [json.loads])

    [send_message] and the listener call [json.dumps] and [json.loads] of
    the Python library.  They are modelled here after [json.encoder],
    [json.scanner] and [json.decoder], for the part of JSON without
    fractional numbers and over strings of code points below 256.  A
    [dict] is the sequence of its items in insertion order; a key read from
    it is the last item with that key, as in the [dict] that [json.loads]
    builds. *)

#[local] Set Warnings "-register-all".

Inductive json : Type :=
  | JNull
  | JBool (b : bool)
  | JInt (n : Z)
  | JStr (s : string)
  | JList (items : list json)
  | JDict (pairs : list (string * json)).

Definition dquote : ascii := "034"%char.
Definition backslash : ascii := "092"%char.

(** *** Encoding: [json.dumps(obj)] with its defaults ([ensure_ascii=True],
    separators [", "] and [": "]) *)

Definition hex_digit (n : N) : ascii :=
  match String.get (N.to_nat n) "0123456789abcdef" with
  | Some c => c
  | None => "0"%char
  end.

(** One character of a string, as [py_encode_basestring_ascii] writes it. *)
Definition escape_char (c : ascii) : string :=
  if Ascii.eqb c dquote then String backslash (String dquote "")
  else if Ascii.eqb c backslash then String backslash (String backslash "")
  else if Ascii.eqb c "008"%char then String backslash "b"
  else if Ascii.eqb c "012"%char then String backslash "f"
  else if Ascii.eqb c "010"%char then String backslash "n"
  else if Ascii.eqb c "013"%char then String backslash "r"
  else if Ascii.eqb c "009"%char then String backslash "t"
  else
    let n := N_of_ascii c in
    if (32 <=? n)%N && (n <=? 126)%N then String c ""
    else String backslash
           (String "u" (String "0" (String "0"
              (String (hex_digit (n / 16)) (String (hex_digit (n mod 16)) ""))))).

Fixpoint escape_chars (s : string) : string :=
  match s with
  | EmptyString => ""
  | String c s' => escape_char c ++ escape_chars s'
  end.

Definition encode_basestring_ascii (s : string) : string :=
  String dquote (escape_chars s ++ String dquote "").

(** [int.__repr__] *)
Definition int_repr (n : Z) : string := NilZero.string_of_int (Z.to_int n).

Fixpoint json_dumps (obj : json) : string :=
  match obj with
  | JNull => "null"
  | JBool true => "true"
  | JBool false => "false"
  | JInt n => int_repr n
  | JStr s => encode_basestring_ascii s
  | JList items =>
      "[" ++ (fix dumps_items (l : list json) : string :=
                match l with
                | [] => ""
                | [x] => json_dumps x
                | x :: l' => json_dumps x ++ ", " ++ dumps_items l'
                end) items ++ "]"
  | JDict pairs =>
      "{" ++ (fix dumps_pairs (l : list (string * json)) : string :=
                match l with
                | [] => ""
                | [(k, x)] => encode_basestring_ascii k ++ ": " ++ json_dumps x
                | (k, x) :: l' =>
                    encode_basestring_ascii k ++ ": " ++ json_dumps x ++ ", "
                    ++ dumps_pairs l'
                end) pairs ++ "}"
  end.

(** *** Decoding: [json.loads(s)]; [None] stands for [JSONDecodeError] *)

(** The whitespace of the JSON grammar. *)
Definition is_json_ws (c : ascii) : bool :=
  Ascii.eqb c " "%char || Ascii.eqb c "009"%char
  || Ascii.eqb c "010"%char || Ascii.eqb c "013"%char.

Fixpoint skip_ws (s : string) : string :=
  match s with
  | String c s' => if is_json_ws c then skip_ws s' else s
  | EmptyString => ""
  end.

Definition hex_value (c : ascii) : option N :=
  let n := N_of_ascii c in
  if (48 <=? n)%N && (n <=? 57)%N then Some (n - 48)%N
  else if (97 <=? n)%N && (n <=? 102)%N then Some (n - 87)%N
  else if (65 <=? n)%N && (n <=? 70)%N then Some (n - 55)%N
  else None.

(** The code point of [\uXXXX]; code points from 256 on are outside the
    strings of this model. *)
Definition decode_uXXXX (h1 h2 h3 h4 : ascii) : option ascii :=
  match hex_value h1, hex_value h2, hex_value h3, hex_value h4 with
  | Some a, Some b, Some c, Some d =>
      if (a =? 0)%N && (b =? 0)%N then Some (ascii_of_N (16 * c + d)) else None
  | _, _, _, _ => None
  end.

(** [BACKSLASH[esc]] of [json.decoder] *)
Definition unescape (esc : ascii) : option ascii :=
  if Ascii.eqb esc dquote then Some dquote
  else if Ascii.eqb esc backslash then Some backslash
  else if Ascii.eqb esc "/"%char then Some "/"%char
  else if Ascii.eqb esc "b"%char then Some "008"%char
  else if Ascii.eqb esc "f"%char then Some "012"%char
  else if Ascii.eqb esc "n"%char then Some "010"%char
  else if Ascii.eqb esc "r"%char then Some "013"%char
  else if Ascii.eqb esc "t"%char then Some "009"%char
  else None.

(** [py_scanstring] in strict mode, from the character after the opening
    quote: the string and the text after its closing quote. *)
Fixpoint scanstring (s : string) : option (string * string) :=
  match s with
  | EmptyString => None
  | String c s1 =>
      if Ascii.eqb c dquote then Some ("", s1)
      else if Ascii.eqb c backslash then
        match s1 with
        | String "u" (String h1 (String h2 (String h3 (String h4 s2)))) =>
            match decode_uXXXX h1 h2 h3 h4, scanstring s2 with
            | Some c', Some (r, rest) => Some (String c' r, rest)
            | _, _ => None
            end
        | String esc s2 =>
            match unescape esc, scanstring s2 with
            | Some c', Some (r, rest) => Some (String c' r, rest)
            | _, _ => None
            end
        | EmptyString => None
        end
      else if (N_of_ascii c <? 32)%N then None
      else
        match scanstring s1 with
        | Some (r, rest) => Some (String c r, rest)
        | None => None
        end
  end.

Definition is_digit (c : ascii) : bool :=
  let n := N_of_ascii c in (48 <=? n)%N && (n <=? 57)%N.

(** The longest run of digits at the head of [s], and what follows it. *)
Fixpoint span_digits (s : string) : string * string :=
  match s with
  | String c s' =>
      if is_digit c then let (ds, rest) := span_digits s' in (String c ds, rest)
      else ("", s)
  | EmptyString => ("", "")
  end.

(** [int(digits)] for a non-empty run of digits. *)
Definition int_of_digits (ds : string) : option Z :=
  match NilZero.uint_of_string ds with
  | Some u => Some (Z.of_N (N.of_uint u))
  | None => None
  end.

(** What may not follow the integer part: a second digit after a leading
    [0], and the start of a fraction or an exponent, which make a [float]
    that this model does not have. *)
Definition starts_fraction (rest : string) : bool :=
  match rest with
  | String c _ => Ascii.eqb c "."%char || Ascii.eqb c "e"%char || Ascii.eqb c "E"%char
  | EmptyString => false
  end.

(** The integer part of [NUMBER_RE] after the sign: [0], or a run of
    digits that does not start with [0]. *)
Definition scan_digits (s : string) : option (Z * string) :=
  let (ds, rest) := span_digits s in
  match ds with
  | EmptyString => None
  | String d ds' =>
      if Ascii.eqb d "0"%char && negb (String.eqb ds' "") then None
      else if starts_fraction rest then None
      else
        match int_of_digits ds with
        | Some n => Some (n, rest)
        | None => None
        end
  end.

(** The integer part of [NUMBER_RE], with its optional sign. *)
Definition scan_int (s : string) : option (Z * string) :=
  match s with
  | String c s' =>
      if Ascii.eqb c "-"%char then
        match scan_digits s' with
        | Some (n, rest) => Some (- n, rest)
        | None => None
        end
      else scan_digits s
  | EmptyString => None
  end.

(** [dict(pairs)] is read through [dict_get]: the last item with the key. *)
Fixpoint dict_get (pairs : list (string * json)) (key : string) : option json :=
  match pairs with
  | [] => None
  | (k, v) :: rest =>
      match dict_get rest key with
      | Some v' => Some v'
      | None => if String.eqb k key then Some v else None
      end
  end.

(** [s.startswith(prefix)] and [s[n:]] *)
Fixpoint startswith (s prefix : string) {struct prefix} : bool :=
  match prefix, s with
  | EmptyString, _ => true
  | String p prefix', String c s' => Ascii.eqb c p && startswith s' prefix'
  | String _ _, EmptyString => false
  end.

Fixpoint slice_from (n : nat) (s : string) : string :=
  match n, s with
  | O, _ => s
  | S n', String _ s' => slice_from n' s'
  | S _, EmptyString => ""
  end.

(** A literal of the grammar at the head of [s]. *)
Definition scan_literal (word : string) (value : json) (s : string)
  : option (json * string) :=
  if startswith s word then Some (value, slice_from (String.length word) s)
  else None.

(** [scan_once], [JSONArray] and [JSONObject] of [json.scanner] and
    [json.decoder]; [fuel] bounds the number of nested calls. *)
Fixpoint scan_once (fuel : nat) (s : string) : option (json * string) :=
  match fuel, s with
  | S fuel', String nextchar s1 =>
      if Ascii.eqb nextchar dquote then
        match scanstring s1 with
        | Some (r, rest) => Some (JStr r, rest)
        | None => None
        end
      else if Ascii.eqb nextchar "{"%char then
        match skip_ws s1 with
        | String c s2 =>
            if Ascii.eqb c "}"%char then Some (JDict [], s2)
            else if Ascii.eqb c dquote then JSONObject fuel' s2 []
            else None
        | EmptyString => None
        end
      else if Ascii.eqb nextchar "["%char then
        match skip_ws s1 with
        | String c s2 =>
            if Ascii.eqb c "]"%char then Some (JList [], s2)
            else JSONArray fuel' (String c s2) []
        | EmptyString => None
        end
      else if Ascii.eqb nextchar "n"%char then scan_literal "null" JNull s
      else if Ascii.eqb nextchar "t"%char then scan_literal "true" (JBool true) s
      else if Ascii.eqb nextchar "f"%char then scan_literal "false" (JBool false) s
      else
        match scan_int s with
        | Some (n, rest) => Some (JInt n, rest)
        | None => None
        end
  | _, _ => None
  end

(** The loop of [JSONArray]: [s] is at the start of a value, [values] holds
    the values read so far, last first. *)
with JSONArray (fuel : nat) (s : string) (values : list json)
  : option (json * string) :=
  match fuel with
  | O => None
  | S fuel' =>
      match scan_once fuel' s with
      | Some (value, s1) =>
          match skip_ws s1 with
          | String c s2 =>
              if Ascii.eqb c "]"%char
              then Some (JList (rev (value :: values)), s2)
              else if Ascii.eqb c ","%char
              then JSONArray fuel' (skip_ws s2) (value :: values)
              else None
          | EmptyString => None
          end
      | None => None
      end
  end

(** The loop of [JSONObject]: [s] is just after the opening quote of a key,
    [pairs] holds the items read so far, last first. *)
with JSONObject (fuel : nat) (s : string) (pairs : list (string * json))
  : option (json * string) :=
  match fuel with
  | O => None
  | S fuel' =>
      match scanstring s with
      | Some (key, s1) =>
          match skip_ws s1 with
          | String c s2 =>
              if Ascii.eqb c ":"%char then
                match scan_once fuel' (skip_ws s2) with
                | Some (value, s3) =>
                    match skip_ws s3 with
                    | String c' s4 =>
                        if Ascii.eqb c' "}"%char
                        then Some (JDict (rev ((key, value) :: pairs)), s4)
                        else if Ascii.eqb c' ","%char then
                          match skip_ws s4 with
                          | String q s5 =>
                              if Ascii.eqb q dquote
                              then JSONObject fuel' s5 ((key, value) :: pairs)
                              else None
                          | EmptyString => None
                          end
                        else None
                    | EmptyString => None
                    end
                | None => None
                end
              else None
          | EmptyString => None
          end
      | None => None
      end
  end.

(** [json.loads(s)]: one value, with whitespace allowed around it. *)
Definition json_loads (s : string) : option json :=
  match scan_once (S (String.length s)) (skip_ws s) with
  | Some (obj, rest) =>
      match skip_ws rest with
      | EmptyString => Some obj
      | _ => None
      end
  | None => None
  end.

(** The items of a [list] and of a [dict] as [json_dumps] writes them
    between the brackets. *)
Fixpoint dumps_items (l : list json) : string :=
  match l with
  | [] => ""
  | [x] => json_dumps x
  | x :: l' => json_dumps x ++ ", " ++ dumps_items l'
  end.

Fixpoint dumps_pairs (l : list (string * json)) : string :=
  match l with
  | [] => ""
  | [(k, x)] => encode_basestring_ascii k ++ ": " ++ json_dumps x
  | (k, x) :: l' =>
      encode_basestring_ascii k ++ ": " ++ json_dumps x ++ ", " ++ dumps_pairs l'
  end.

(** The number of calls [scan_once] needs to read a value back. *)
Fixpoint json_size (obj : json) : nat :=
  match obj with
  | JList items => S (list_sum (map (fun x => S (json_size x)) items))
  | JDict pairs => S (list_sum (map (fun kx => S (json_size (snd kx))) pairs))
  | _ => 1
  end.

(** ** The line protocol ([agent_communication.py]) *)

Definition newline : ascii := "010"%char.

(** [str.isspace] on the code points below 256. *)
Definition isspace (c : ascii) : bool :=
  let n := N_of_ascii c in
  ((9 <=? n)%N && (n <=? 13)%N) || ((28 <=? n)%N && (n <=? 32)%N)
  || (n =? 133)%N || (n =? 160)%N.

Fixpoint lstrip (s : string) : string :=
  match s with
  | String c s' => if isspace c then lstrip s' else s
  | EmptyString => ""
  end.

Fixpoint rstrip (s : string) : string :=
  match s with
  | String c s' =>
      match rstrip s' with
      | EmptyString => if isspace c then "" else String c ""
      | r => String c r
      end
  | EmptyString => ""
  end.

(** [line.strip()] *)
Definition strip (s : string) : string := rstrip (lstrip s).

(** [sys.stdin.readline()] on the text still to be read: the line with its
    newline, and the text after it. *)
Fixpoint readline (stream : string) : string * string :=
  match stream with
  | String c s' =>
      if Ascii.eqb c newline then (String c "", s')
      else let (line, rest) := readline s' in (String c line, rest)
  | EmptyString => ("", "")
  end.

Definition MESSAGE_PREFIX : string := "@@MESSAGE@@".

(** The [message] dictionary of [send_message]; [timestamp] is
    [datetime.utcnow().isoformat()]. *)
Definition message_dict (message_type : string) (payload : json)
    (timestamp : string) : json :=
  JDict [("type", JStr message_type); ("payload", payload);
         ("timestamp", JStr timestamp)].

(** [send_message]: the text [print] writes to stdout. *)
Definition send_message (message_type : string) (payload : json)
    (timestamp : string) : string :=
  MESSAGE_PREFIX ++ json_dumps (message_dict message_type payload timestamp)
  ++ String newline "".

(** *** Python operations that may raise *)

Inductive exception : Type := TypeError | KeyError.

Inductive py (A : Type) : Type :=
  | Return (a : A)
  | Raise (e : exception).
Arguments Return {A} a.
Arguments Raise {A} e.

Definition py_bind {A B : Type} (m : py A) (k : A -> py B) : py B :=
  match m with
  | Return a => k a
  | Raise e => Raise e
  end.

Notation "x <- m ;; k" := (py_bind m (fun x => k))
  (at level 100, m at next level, right associativity).

Fixpoint is_substring (needle hay : string) : bool :=
  startswith hay needle
  || match hay with
     | String _ hay' => is_substring needle hay'
     | EmptyString => false
     end.

(** [key in message] for a decoded document: a key of a [dict], an element
    of a [list], a substring of a [str]; other values are not containers. *)
Definition contains (key : string) (message : json) : py bool :=
  match message with
  | JDict pairs =>
      Return (match dict_get pairs key with Some _ => true | None => false end)
  | JList items =>
      Return (existsb (fun x => match x with
                                | JStr s => String.eqb s key
                                | _ => false
                                end) items)
  | JStr s => Return (is_substring key s)
  | _ => Raise TypeError
  end.

(** [message[key]] with a string key. *)
Definition getitem (message : json) (key : string) : py json :=
  match message with
  | JDict pairs =>
      match dict_get pairs key with
      | Some v => Return v
      | None => Raise KeyError
      end
  | _ => Raise TypeError
  end.

(** *** The communicator *)

Inductive outcome : Type := Returns | Raises.

(** A registered callback: what calling it on a payload ends in. *)
Definition callback : Type := json -> outcome.

Record AgentCommunicator : Type := mkAgentCommunicator {
  running : bool;
  callbacks : gmap string (list callback)
}.

(** [__init__] *)
Definition init : AgentCommunicator :=
  mkAgentCommunicator false
    (<["user_message" := []]> (<["command" := []]> (<["ping" := []]> ∅))).

Definition register_callback (message_type : string) (cb : callback)
    (self : AgentCommunicator) : AgentCommunicator :=
  mkAgentCommunicator (running self)
    (<[message_type := (default [] (callbacks self !! message_type) ++ [cb])%list]>
       (callbacks self)).

(** [start], as far as the listener sees it. *)
Definition start (self : AgentCommunicator) : AgentCommunicator :=
  mkAgentCommunicator true (callbacks self).

(** What the listener does that can be observed: the calls it makes, and
    the errors it prints to stderr. *)
Inductive event : Type :=
  | Called (message_type : string) (position : nat) (payload : json)
  | CallbackError (message_type : string) (position : nat)
  | ListenerError (e : exception).

(** [for callback in self.callbacks[message_type]], from position [i] on. *)
Fixpoint run_callbacks (message_type : string) (payload : json) (i : nat)
    (cbs : list callback) : list event :=
  match cbs with
  | [] => []
  | cb :: rest =>
      Called message_type i payload
      :: match cb payload with
         | Returns => run_callbacks message_type payload (S i) rest
         | Raises =>
             CallbackError message_type i
             :: run_callbacks message_type payload (S i) rest
         end
  end.

(** [if message_type in self.callbacks:] and the loop over
    [self.callbacks[message_type]]: the keys are strings; a [list] or a
    [dict] cannot be hashed. *)
Definition dispatch (self : AgentCommunicator) (message_type payload : json)
  : py (list event) :=
  match message_type with
  | JStr t =>
      Return (match callbacks self !! t with
              | Some cbs => run_callbacks t payload 0 cbs
              | None => []
              end)
  | JList _ | JDict _ => Raise TypeError
  | _ => Return []
  end.

Definition calls (events : list event) : list (string * nat * json) :=
  omap (fun ev => match ev with
                  | Called t i p => Some (t, i, p)
                  | _ => None
                  end) events.

(** [message_json = line[len(prefix):]] of the stripped line. *)
Definition message_json (line : string) : string :=
  slice_from (String.length MESSAGE_PREFIX) (strip line).

Section Listener.
(** [json.loads], [None] standing for [JSONDecodeError]. *)
Variable loads : string -> option json.

(** The body of the loop of [_listen_stdin] up to
    [payload = message["payload"]]: the type and payload of the message on
    the line; [None] where the loop goes on to the next line. *)
Definition read_message (line : string) : py (option (json * json)) :=
  if negb (startswith (strip line) MESSAGE_PREFIX) then Return None
  else
    match loads (message_json line) with
    | None => Return None
    | Some message =>
        has_type <- contains "type" message ;;
        if negb has_type then Return None
        else
          has_payload <- contains "payload" message ;;
          if negb has_payload then Return None
          else
            message_type <- getitem message "type" ;;
            payload <- getitem message "payload" ;;
            Return (Some (message_type, payload))
    end.

(** One turn of the loop on a line that was read: [JSONDecodeError] and
    the lines that are no messages lead to the next line in silence, any
    other exception is printed to stderr. *)
Definition process_line (self : AgentCommunicator) (line : string)
  : list event :=
  match (m <- read_message line ;;
         match m with
         | Some (message_type, payload) => dispatch self message_type payload
         | None => Return []
         end) with
  | Return events => events
  | Raise e => [ListenerError e]
  end.

(** [_listen_stdin]: [stdin] holds what the successive calls of [readline]
    return; the empty string, or no line left, is the end of the input. *)
Fixpoint listen_stdin (self : AgentCommunicator) (stdin : list string)
  : list event :=
  if running self then
    match stdin with
    | [] => []
    | line :: rest =>
        if String.eqb line "" then []
        else (process_line self line ++ listen_stdin self rest)%list
    end
  else [].
End Listener.

(** The characters [json.dumps] writes: printable ASCII. *)
Definition is_printable (c : ascii) : bool :=
  let n := N_of_ascii c in (32 <=? n)%N && (n <=? 126)%N.

Fixpoint all_printable (s : string) : bool :=
  match s with
  | String c s' => is_printable c && all_printable s'
  | EmptyString => true
  end.

(** ** The statements about the protocol *)

(** A decoded message has the field [key]. *)
Definition has_field (message : json) (key : string) : Prop :=
  exists pairs, message = JDict pairs /\ is_Some (dict_get pairs key).

(** "a line with the sentinel whose remainder fails to parse as JSON, or
    whose JSON lacks type or payload": the remainder is the one the reader
    takes, from the stripped line. *)
Definition malformed (loads : string -> option json) (line : string) : Prop :=
  startswith line MESSAGE_PREFIX = true
  /\ match loads (message_json line) with
     | None => True
     | Some message => ~ has_field message "type" \/ ~ has_field message "payload"
     end.

(** A line that carries a message of type [t] with payload [p]. *)
Definition well_formed (loads : string -> option json) (line : string)
    (t : string) (p : json) : Prop :=
  startswith line MESSAGE_PREFIX = true
  /\ exists pairs,
       loads (message_json line) = Some (JDict pairs)
       /\ dict_get pairs "type" = Some (JStr t)
       /\ dict_get pairs "payload" = Some p.

(** The calls a message of type [t] with payload [p] leads to when [n]
    callbacks are registered for [t]: each of them once, in order. *)
Definition calls_of (t : string) (p : json) (first n : nat)
  : list (string * nat * json) :=
  map (fun i => (t, i, p)) (seq first n).

Definition returns : callback := fun _ => Returns.
Definition raises : callback := fun _ => Raises.

(** A running communicator with two callbacks for [ping], the first of
    which raises. *)
Definition sample_communicator : AgentCommunicator :=
  start (register_callback "ping" returns
           (register_callback "ping" raises init)).

(** ** The other tools of [feature_mcp.py] *)

(** *** [feature_create] *)

Definition feature_create (category name description : string)
    (steps : list string) (type : string) (d : db) : response Feature.t * db :=
  let priority := next_priority (features d) in
  let priority := if String.eqb type "bug" then priority - 500 else priority in
  let db_feature :=
    Feature.mk (next_id (features d)) priority type category name description
      steps false false None None in
  (Success db_feature, mkdb (features d ++ [db_feature]) (step_progress d)).

(** *** [feature_update] *)

(** [if category is not None: feature.category = category], and so on for
    the four fields that can be edited. *)
Definition apply_updates (category name description : option string)
    (steps : option (list string)) (feature : Feature.t) : Feature.t :=
  Feature.mk (Feature.id feature) (Feature.priority feature)
    (Feature.type feature)
    (default (Feature.category feature) category)
    (default (Feature.name feature) name)
    (default (Feature.description feature) description)
    (default (Feature.steps feature) steps)
    (Feature.passes feature) (Feature.in_progress feature)
    (Feature.label feature) (Feature.assigned_agent_id feature).

Definition feature_update (feature_id : Z)
    (category name description : option string) (steps : option (list string))
    (d : db) : response Feature.t * db :=
  match get_feature feature_id (features d) with
  | None => (Failure (FeatureNotFound feature_id), d)
  | Some feature =>
      let feature' := apply_updates category name description steps feature in
      (Success feature',
       mkdb (commit_feature feature' (features d)) (step_progress d))
  end.

(** *** [feature_step_mark_completed] *)

Definition feature_step_mark_completed (now : Z) (feature_id step_index : Z)
    (notes : option string) (d : db) : response StepProgress.t * db :=
  match get_step feature_id step_index (step_progress d) with
  | None => (Failure (StepNotFound step_index feature_id), d)
  | Some step =>
      let step' :=
        StepProgress.mk (StepProgress.id step) (StepProgress.feature_id step)
          (StepProgress.step_index step) (StepProgress.step_text step)
          true (StepProgress.started_at step) (Some now)
          (if truthy_opt notes then notes else StepProgress.notes step) in
      (Success step', mkdb (features d) (commit_step step' (step_progress d)))
  end.

(** *** [feature_get_progress_details] *)

(** [order_by(StepProgress.step_index)]: a row goes after the rows that do
    not come after it. *)
Fixpoint insert_step (s : StepProgress.t) (sorted : list StepProgress.t)
  : list StepProgress.t :=
  match sorted with
  | [] => [s]
  | r :: rs =>
      if StepProgress.step_index s <? StepProgress.step_index r
      then s :: r :: rs
      else r :: insert_step s rs
  end.

Definition order_by_step_index (rows : list StepProgress.t)
  : list StepProgress.t :=
  fold_left (fun sorted s => insert_step s sorted) rows [].

(** The order of [order_by(StepProgress.step_index)]. *)
Definition by_step_index (r s : StepProgress.t) : Prop :=
  StepProgress.step_index r <= StepProgress.step_index s.

(** [s.started_at] as a condition: the column is set. *)
Definition started (s : StepProgress.t) : bool :=
  match StepProgress.started_at s with
  | Some _ => true
  | None => false
  end.

Record progress_details : Type := mk_progress {
  progress_feature_id : Z;
  feature_name : string;
  steps : list StepProgress.t;
  total_steps : nat;
  completed_steps : nat;
  in_progress_steps : nat;
  pending_steps : nat
}.

Definition feature_get_progress_details (feature_id : Z) (d : db)
  : response progress_details :=
  match get_feature feature_id (features d) with
  | None => Failure (FeatureNotFound feature_id)
  | Some feature =>
      let steps :=
        order_by_step_index
          (List.filter (fun s => StepProgress.feature_id s =? feature_id)
             (step_progress d)) in
      Success
        (mk_progress feature_id (Feature.name feature) steps
           (length steps)
           (length (List.filter StepProgress.completed steps))
           (length (List.filter
                      (fun s => started s && negb (StepProgress.completed s))
                      steps))
           (length (List.filter (fun s => negb (started s)) steps)))
  end.

(** ** [migrate_add_step_progress_table] ([api/migration_step_progress.py]) *)

(** The rows for the steps of one feature, from index [i] on; [next] is
    the primary key of the first of them. *)
Fixpoint step_rows (next feature_id : Z) (i : nat) (steps : list string)
  : list StepProgress.t :=
  match steps with
  | [] => []
  | step_text :: rest =>
      StepProgress.mk next feature_id (Z.of_nat i) step_text false None None None
      :: step_rows (next + 1) feature_id (S i) rest
  end.

(** [for feature_id, steps_json in features]: the rows of all features. *)
Fixpoint populate_steps (next : Z) (rows : list Feature.t)
  : list StepProgress.t :=
  match rows with
  | [] => []
  | f :: rest =>
      (step_rows next (Feature.id f) 0 (Feature.steps f)
       ++ populate_steps (next + Z.of_nat (length (Feature.steps f))) rest)%list
  end.

(** The migration: nothing when the table is there ([table_exists]);
    otherwise the table is created and filled from [Feature.steps]. *)
Definition migrate_add_step_progress_table (table_exists : bool) (d : db) : db :=
  if table_exists then d
  else mkdb (features d) (populate_steps 1 (features d)).

(** ** [feature_get_labels] *)

Module LabelStats.
Record t : Type := mk {
  label : option string;
  count : nat;
  passing : nat;
  pending : nat;
  in_progress : nat
}.
End LabelStats.

(** Equality of two keys of [label_stats]: [None] or a string. *)
Definition label_eqb (a b : option string) : bool :=
  match a, b with
  | None, None => true
  | Some x, Some y => String.eqb x y
  | _, _ => false
  end.

(** The increments for one feature. *)
Definition tally (f : Feature.t) (s : LabelStats.t) : LabelStats.t :=
  LabelStats.mk (LabelStats.label s) (S (LabelStats.count s))
    (if Feature.passes f then S (LabelStats.passing s) else LabelStats.passing s)
    (if Feature.passes f then LabelStats.pending s
     else if Feature.in_progress f then LabelStats.pending s
     else S (LabelStats.pending s))
    (if Feature.passes f then LabelStats.in_progress s
     else if Feature.in_progress f then S (LabelStats.in_progress s)
     else LabelStats.in_progress s).

(** The body of [for f in features] on the dictionary [label_stats], whose
    entries are kept in the order they were created in. *)
Fixpoint count_feature (f : Feature.t) (label_stats : list LabelStats.t)
  : list LabelStats.t :=
  match label_stats with
  | [] => [tally f (LabelStats.mk (Feature.label f) 0 0 0 0)]
  | s :: rest =>
      if label_eqb (LabelStats.label s) (Feature.label f)
      then tally f s :: rest
      else s :: count_feature f rest
  end.

(** The sort key [(x["label"] is not None, x["label"] or "")]. *)
Definition label_key (s : LabelStats.t) : bool * string :=
  (match LabelStats.label s with Some _ => true | None => false end,
   default "" (LabelStats.label s)).

(** The order of Python on such pairs. *)
Definition key_ltb (a b : bool * string) : bool :=
  if Bool.eqb (fst a) (fst b) then String.ltb (snd a) (snd b)
  else negb (fst a).

Fixpoint insert_label (s : LabelStats.t) (sorted : list LabelStats.t)
  : list LabelStats.t :=
  match sorted with
  | [] => [s]
  | r :: rs =>
      if key_ltb (label_key s) (label_key r) then s :: r :: rs
      else r :: insert_label s rs
  end.

Definition feature_get_labels (d : db) : list LabelStats.t :=
  let label_stats :=
    fold_left (fun stats f => count_feature f stats) (features d) [] in
  fold_left (fun sorted s => insert_label s sorted) label_stats [].

(** The features with a label, and the order of the answer. *)
Definition with_label (l : option string) (rows : list Feature.t)
  : list Feature.t :=
  List.filter (fun f => label_eqb (Feature.label f) l) rows.

Definition by_label_key (r s : LabelStats.t) : Prop :=
  key_ltb (label_key s) (label_key r) = false.

(** The entry for a label after the loop over [rows]. *)
Definition stats_of (l : option string) (rows : list Feature.t) : LabelStats.t :=
  LabelStats.mk l (length (with_label l rows))
    (length (List.filter Feature.passes (with_label l rows)))
    (length (List.filter
               (fun f => negb (Feature.passes f) && negb (Feature.in_progress f))
               (with_label l rows)))
    (length (List.filter
               (fun f => negb (Feature.passes f) && Feature.in_progress f)
               (with_label l rows))).

Definition entry (l : option string) (rows : list Feature.t)
  : option LabelStats.t :=
  match with_label l rows with
  | [] => None
  | _ => Some (stats_of l rows)
  end.

Definition find_label (l : option string) (stats : list LabelStats.t)
  : option LabelStats.t :=
  List.find (fun s => label_eqb (LabelStats.label s) l) stats.

(** ** The other methods of [AgentCommunicator] *)

Definition send_chat_message (content timestamp : string) : string :=
  send_message "agent_chat_message" (JDict [("content", JStr content)]) timestamp.

Definition send_step_update (feature_id step_index : Z) (status notes : string)
    (timestamp : string) : string :=
  send_message "step_update"
    (JDict [("feature_id", JInt feature_id); ("step_index", JInt step_index);
            ("status", JStr status); ("notes", JStr notes)])
    timestamp.

Definition send_narrative (content timestamp : string) : string :=
  send_message "agent_narrative" (JDict [("content", JStr content)]) timestamp.

Definition send_pong (timestamp : string) : string :=
  send_message "pong" (JDict []) timestamp.

(** [stop], as far as the listener sees it. *)
Definition stop (self : AgentCommunicator) : AgentCommunicator :=
  mkAgentCommunicator false (callbacks self).

(** What the successive calls of [readline] return on a text, up to its
    end. *)
Fixpoint readlines (stream : string) : list string :=
  match stream with
  | EmptyString => []
  | String c s' =>
      if Ascii.eqb c newline then String c "" :: readlines s'
      else
        match readlines s' with
        | [] => [String c ""]
        | line :: rest => String c line :: rest
        end
  end.

(** The errors of callbacks the listener prints: message type and position
    of the callback. *)
Definition callback_errors (events : list event) : list (string * nat) :=
  omap (fun ev => match ev with
                  | CallbackError t i => Some (t, i)
                  | _ => None
                  end) events.

(** The errors of the listener itself. *)
Definition listener_errors (events : list event) : list exception :=
  omap (fun ev => match ev with
                  | ListenerError e => Some e
                  | _ => None
                  end) events.

Definition raises_on (payload : json) (cb : callback) : bool :=
  match cb payload with
  | Raises => true
  | Returns => false
  end.

(** A document that is no container: [null], [true], [false], a number. *)
Definition is_scalar (message : json) : bool :=
  match message with
  | JNull | JBool _ | JInt _ => true
  | _ => false
  end.

(** The callbacks registered for a type. *)
Definition registered (self : AgentCommunicator) (t : string) : list callback :=
  default [] (callbacks self !! t).

(** What a sequence of calls of [send_message] leaves on stdout; a message
    is its type, its payload and the time it is sent at. *)
Fixpoint sent (messages : list (string * json * string)) : string :=
  match messages with
  | [] => ""
  | (message_type, payload, timestamp) :: rest =>
      send_message message_type payload timestamp ++ sent rest
  end.

(** A text of white space only. *)
Fixpoint all_space (s : string) : bool :=
  match s with
  | String c s' => isspace c && all_space s'
  | EmptyString => true
  end.

(** ** Notions used by the further properties *)

(** "claimed == true implies completed == false", on a row and on the
    table. *)
Definition in_progress_implies_incomplete (f : Feature.t) : Prop :=
  Feature.in_progress f = true -> Feature.passes f = false.

Definition in_progress_invariant (d : db) : Prop :=
  Forall in_progress_implies_incomplete (features d).

(** The table has its primary key. *)
Definition primary_key (d : db) : Prop :=
  List.NoDup (map Feature.id (features d)).

(** A call of one of the tools that write the features table
    ([feature_delete] apart, which is not modelled). *)
Inductive tool_call : Type :=
  | GetNext (env_agent_id agent_id : string)
  | MarkPassing (feature_id : Z)
  | Skip (feature_id : Z)
  | MarkInProgress (feature_id : Z) (agent_id : string)
  | ClearInProgress (feature_id : Z)
  | ClaimNext (agent_id : string)
  | Release (feature_id : Z) (agent_id : string)
  | CreateBulk (batch : list FeatureData.t) (label : option string)
  | Create (category name description : string) (steps : list string)
      (type : string)
  | Update (feature_id : Z) (category name description : option string)
      (steps : option (list string)).

(** The database a call leaves behind, and the one a sequence of calls
    leaves, each run after the one before. *)
Definition run_tool (c : tool_call) (d : db) : db :=
  match c with
  | GetNext env_agent_id agent_id => snd (feature_get_next env_agent_id agent_id d)
  | MarkPassing feature_id => snd (feature_mark_passing feature_id d)
  | Skip feature_id => snd (feature_skip feature_id d)
  | MarkInProgress feature_id agent_id =>
      snd (feature_mark_in_progress feature_id agent_id d)
  | ClearInProgress feature_id => snd (feature_clear_in_progress feature_id d)
  | ClaimNext agent_id => snd (feature_claim_next agent_id d)
  | Release feature_id agent_id => snd (feature_release feature_id agent_id d)
  | CreateBulk batch label => snd (feature_create_bulk batch label d)
  | Create category name description steps type =>
      snd (feature_create category name description steps type d)
  | Update feature_id category name description steps =>
      snd (feature_update feature_id category name description steps d)
  end.

Definition run_tools (cs : list tool_call) (d : db) : db :=
  fold_left (fun d c => run_tool c d) cs d.

(** The identifier is in the table, and every row that has it passes. *)
Definition settled (feature_id : Z) (d : db) : Prop :=
  In feature_id (map Feature.id (features d))
  /\ forall s, In s (features d) -> Feature.id s = feature_id ->
       Feature.passes s = true.

(** The batch element [feature_create] stands for. *)
Definition single_feature_data (category name description : string)
    (steps : list string) (type : string) : FeatureData.t :=
  FeatureData.mk (Some type) (Some category) (Some name) (Some description)
    (Some steps).

(** The batch element carries the required keys, as a test. *)
Definition required_fields_presentb (feature_data : FeatureData.t) : bool :=
  match FeatureData.category feature_data, FeatureData.name feature_data,
        FeatureData.description feature_data, FeatureData.steps feature_data with
  | Some _, Some _, Some _, Some _ => true
  | _, _, _, _ => false
  end.

(** A batch whose second element has no [steps]. *)
Definition broken_batch : list FeatureData.t :=
  [ FeatureData.mk None (Some "ui") (Some "button") (Some "add a button")
      (Some ["draw it"]);
    FeatureData.mk None (Some "ui") (Some "menu") (Some "add a menu") None ].

(** The columns the queue is run by. *)
Definition queue_state (f : Feature.t)
  : Z * Z * bool * bool * option string :=
  (Feature.id f, Feature.priority f, Feature.passes f, Feature.in_progress f,
   Feature.assigned_agent_id f).

(** * Properties *)

(** ** Lookup, commit and the priority bound *)

Lemma get_feature_In feature_id rows f :
  get_feature feature_id rows = Some f ->
  In f rows /\ Feature.id f = feature_id.
Proof.
  unfold get_feature. intros H. apply find_some in H as [Hin Heq].
  split; [exact Hin | lia].
Qed.

Lemma get_feature_None feature_id rows :
  get_feature feature_id rows = None ->
  forall g, In g rows -> Feature.id g <> feature_id.
Proof.
  unfold get_feature. intros H g Hg Heq.
  pose proof (find_none _ _ H g Hg) as Hn. simpl in Hn. lia.
Qed.

Lemma get_commit_feature feature_id rows f f' :
  get_feature feature_id rows = Some f ->
  Feature.id f' = feature_id ->
  get_feature feature_id (commit_feature f' rows) = Some f'.
Proof.
  unfold get_feature. intros Hget Hid. induction rows as [|r rs IH]; simpl in *.
  - discriminate.
  - rewrite Hid. destruct (Feature.id r =? feature_id) eqn:E; simpl.
    + rewrite Hid, Z.eqb_refl. reflexivity.
    + rewrite E. apply IH. exact Hget.
Qed.

Lemma max_priority_bound rows g :
  In g rows -> exists m, max_priority rows = Some m /\ Feature.priority g <= m.
Proof.
  induction rows as [|r rs IH]; simpl; [tauto|].
  intros [H|H].
  - subst r. destruct (max_priority rs) as [m|]; eexists; split; eauto; lia.
  - destruct (IH H) as (m & -> & Hle). eexists; split; eauto. lia.
Qed.

Lemma next_priority_above rows g :
  In g rows -> Feature.priority g < next_priority rows.
Proof.
  intros H. unfold next_priority.
  destruct (max_priority_bound rows g H) as (m & -> & Hle). lia.
Qed.

(** ** C4: skipping *)

(** C4. For an existing item: [feature_skip] on an item that is not passing
    answers with success, gives the item a priority strictly above that of
    every row the table held (the maximum included) and clears its
    [in_progress] flag; on a passing item it answers with an error of kind
    [Conflict] and leaves the whole database as it was. *)
Theorem feature_skip_spec (feature_id : Z) (d : db) (f : Feature.t) :
  get_feature feature_id (features d) = Some f ->
  if Feature.passes f then
    exists e, feature_skip feature_id d = (Failure e, d) /\ kind_of e = Conflict
  else
    exists details d' f',
      feature_skip feature_id d = (Success details, d') /\
      get_feature feature_id (features d') = Some f' /\
      Feature.priority f' = new_priority details /\
      (forall m, max_priority (features d) = Some m -> m < Feature.priority f') /\
      (forall g, In g (features d) -> Feature.priority g < Feature.priority f') /\
      Feature.in_progress f' = false /\
      Feature.passes f' = false.
Proof.
  intros Hget. unfold feature_skip. rewrite Hget.
  destruct (Feature.passes f) eqn:Hp.
  - exists CannotSkipPassing. split; reflexivity.
  - set (f' := Feature.with_in_progress false
                 (Feature.with_priority (next_priority (features d)) f)).
    exists (mk_skip (Feature.id f') (Feature.name f') (Feature.priority f)
              (next_priority (features d))),
           (mkdb (commit_feature f' (features d)) (step_progress d)), f'.
    split; [reflexivity|].
    split; [|split; [reflexivity|split; [|split; [|split]]]].
    + eapply get_commit_feature; [exact Hget|]. simpl.
      apply get_feature_In in Hget. tauto.
    + intros m Hm. simpl. unfold next_priority. rewrite Hm. lia.
    + intros g Hg. simpl. now apply next_priority_above.
    + reflexivity.
    + exact Hp.
Qed.

Lemma feature_skip_spec_witness :
  get_feature 2 (features sample_db) = Some (sample_feature 2 7 false false None)
  /\ exists details d' f',
      feature_skip 2 sample_db = (Success details, d') /\
      get_feature 2 (features d') = Some f' /\
      Feature.priority f' = new_priority details /\
      (forall m, max_priority (features sample_db) = Some m -> m < Feature.priority f') /\
      (forall g, In g (features sample_db) -> Feature.priority g < Feature.priority f') /\
      Feature.in_progress f' = false /\
      Feature.passes f' = false.
Proof.
  split; [reflexivity|].
  exact (feature_skip_spec 2 sample_db (sample_feature 2 7 false false None) eq_refl).
Defined.

(** ** C10: marking an item in progress without an agent identifier *)

(** C10. For an item that is not passing and is in progress for agent [A],
    [feature_mark_in_progress] called with the empty agent identifier
    succeeds (it is no [Conflict]): it answers with the item, still in
    progress and still assigned to [A], and that is the row the table
    holds afterwards. *)
Theorem feature_mark_in_progress_empty_agent
    (feature_id : Z) (d : db) (f : Feature.t) (A : string) :
  get_feature feature_id (features d) = Some f ->
  Feature.passes f = false ->
  Feature.in_progress f = true ->
  Feature.assigned_agent_id f = Some A ->
  exists d',
    feature_mark_in_progress feature_id "" d = (Success f, d') /\
    Feature.in_progress f = true /\
    Feature.assigned_agent_id f = Some A /\
    get_feature feature_id (features d') = Some f.
Proof.
  intros Hget Hp Hip Ha.
  assert (Hsame : Feature.with_in_progress true f = f).
  { destruct f; simpl in *; subst; reflexivity. }
  exists (mkdb (commit_feature f (features d)) (step_progress d)).
  split; [|split; [exact Hip|split; [exact Ha|]]].
  - unfold feature_mark_in_progress.
    rewrite Hget, Hp, Hip, Ha. cbn [truthy String.eqb negb andb].
    rewrite andb_false_r. cbn [andb]. rewrite Hsame. reflexivity.
  - simpl. eapply get_commit_feature; [exact Hget|].
    apply get_feature_In in Hget. tauto.
Qed.

Lemma feature_mark_in_progress_empty_agent_witness :
  exists d',
    feature_mark_in_progress 1 "" sample_db
      = (Success (sample_feature 1 1 false true (Some "a")), d') /\
    Feature.in_progress (sample_feature 1 1 false true (Some "a")) = true /\
    Feature.assigned_agent_id (sample_feature 1 1 false true (Some "a")) = Some "a" /\
    get_feature 1 (features d') = Some (sample_feature 1 1 false true (Some "a")).
Proof.
  exact (feature_mark_in_progress_empty_agent 1 sample_db
           (sample_feature 1 1 false true (Some "a")) "a"
           eq_refl eq_refl eq_refl eq_refl).
Defined.

(** ** C6: releasing *)

Lemma truthy_true s : s <> "" -> truthy s = true.
Proof.
  intros H. unfold truthy. destruct (String.eqb s "") eqn:E; [|reflexivity].
  apply String.eqb_eq in E. contradiction.
Qed.

(** C6. For an existing item: when the item is held by agent [h] and
    [feature_release] is given an agent identifier other than [h], the
    answer is an error of kind [Forbidden] and the database (so the item's
    [in_progress] and [assigned_agent_id]) is unchanged; when no agent
    identifier is given (the empty default) the release succeeds and the
    item ends with [in_progress = false] and no assigned agent. *)
Theorem feature_release_spec (feature_id : Z) (d : db) (f : Feature.t) :
  get_feature feature_id (features d) = Some f ->
  (forall h agent_id,
      Feature.assigned_agent_id f = Some h -> h <> "" ->
      agent_id <> "" -> agent_id <> h ->
      exists e, feature_release feature_id agent_id d = (Failure e, d)
                /\ kind_of e = Forbidden)
  /\ (exists f' d',
        feature_release feature_id "" d = (Success f', d') /\
        get_feature feature_id (features d') = Some f' /\
        Feature.in_progress f' = false /\
        Feature.assigned_agent_id f' = None).
Proof.
  intros Hget. split.
  - intros h agent_id Ha Hh Hag Hne. unfold feature_release.
    rewrite Hget, Ha. cbn [truthy_opt opt_string_neqb].
    rewrite (truthy_true _ Hag), (truthy_true _ Hh).
    destruct (String.eqb h agent_id) eqn:E.
    + apply String.eqb_eq in E. congruence.
    + eexists. split; reflexivity.
  - unfold feature_release. rewrite Hget. cbn [truthy String.eqb negb andb].
    eexists _, _. split; [reflexivity|].
    split; [|split; reflexivity].
    eapply get_commit_feature; [exact Hget|].
    apply get_feature_In in Hget. simpl. tauto.
Qed.

Lemma feature_release_spec_witness :
  get_feature 1 (features sample_db) = Some (sample_feature 1 1 false true (Some "a"))
  /\ (exists e, feature_release 1 "b" sample_db = (Failure e, sample_db)
                /\ kind_of e = Forbidden)
  /\ (exists f' d',
        feature_release 1 "" sample_db = (Success f', d') /\
        get_feature 1 (features d') = Some f' /\
        Feature.in_progress f' = false /\
        Feature.assigned_agent_id f' = None).
Proof.
  split; [reflexivity|].
  destruct (feature_release_spec 1 sample_db
              (sample_feature 1 1 false true (Some "a")) eq_refl) as [Hf Hok].
  split; [|exact Hok].
  apply (Hf "a" "b"); [reflexivity|discriminate|discriminate|discriminate].
Defined.

(** An item that no agent holds is released whatever agent identifier is
    given: there is no holder for it to differ from. *)
Lemma feature_release_unheld (feature_id : Z) (agent_id : string) (d : db)
    (f : Feature.t) :
  get_feature feature_id (features d) = Some f ->
  Feature.assigned_agent_id f = None ->
  exists f' d',
    feature_release feature_id agent_id d = (Success f', d')
    /\ Feature.in_progress f' = false
    /\ Feature.assigned_agent_id f' = None.
Proof.
  intros Hget Hnone. unfold feature_release. rewrite Hget, Hnone.
  cbn [truthy_opt]. rewrite andb_false_r. cbn [andb].
  eexists _, _. repeat split.
Qed.

(** ** C5: starting a step *)

Lemma get_step_In feature_id step_index rows s :
  get_step feature_id step_index rows = Some s ->
  In s rows /\ StepProgress.feature_id s = feature_id
  /\ StepProgress.step_index s = step_index.
Proof.
  unfold get_step. intros H. apply find_some in H as [Hin Heq].
  apply andb_true_iff in Heq as [H1 H2]. repeat split; [exact Hin|lia|lia].
Qed.

Lemma In_commit_step s s' rows :
  In s rows -> StepProgress.id s' = StepProgress.id s ->
  In s' (commit_step s' rows).
Proof.
  intros Hin Hid. induction rows as [|r rs IH]; simpl in *; [tauto|].
  destruct (StepProgress.id r =? StepProgress.id s') eqn:E; [now left|].
  destruct Hin as [->|Hin]; [lia|]. right. now apply IH.
Qed.

(** Two calls in a row on a step that was not started: the first, at time
    10, sets [started_at]; the second, at time 20, replaces it. *)
Lemma feature_step_mark_started_second_call_overwrites :
  ~ first_call_wins 20 1 0
      (snd (feature_step_mark_started 10 1 0 sample_steps_db)).
Proof.
  intros H.
  specialize (H (StepProgress.mk 1 1 0 "write it" false (Some 10) None None)
                (StepProgress.mk 1 1 0 "write it" false (Some 20) None None)
                eq_refl eq_refl).
  discriminate H.
Qed.

(** C5 (amended). For an existing step record,
    [feature_step_mark_started] succeeds and sets [started_at] to the
    current time whatever the record held before (the last call wins); the
    other columns of the record keep their values and the answer is a row
    of the table afterwards. *)
Theorem feature_step_mark_started_sets_now
    (now feature_id step_index : Z) (d : db) (step : StepProgress.t) :
  get_step feature_id step_index (step_progress d) = Some step ->
  exists step' d',
    feature_step_mark_started now feature_id step_index d = (Success step', d') /\
    StepProgress.started_at step' = Some now /\
    step' = StepProgress.with_started_at (Some now) step /\
    In step' (step_progress d') /\
    features d' = features d.
Proof.
  intros Hget. unfold feature_step_mark_started. rewrite Hget.
  eexists _, _. split; [reflexivity|].
  split; [reflexivity|split; [reflexivity|split; [|reflexivity]]].
  simpl. apply get_step_In in Hget as (Hin & _ & _).
  eapply In_commit_step; [exact Hin|reflexivity].
Qed.

Lemma feature_step_mark_started_sets_now_witness :
  exists step' d',
    feature_step_mark_started 20 1 0
      (snd (feature_step_mark_started 10 1 0 sample_steps_db))
      = (Success step', d') /\
    StepProgress.started_at step' = Some 20 /\
    step' = StepProgress.with_started_at (Some 20)
              (StepProgress.mk 1 1 0 "write it" false (Some 10) None None) /\
    In step' (step_progress d') /\
    features d' = features (snd (feature_step_mark_started 10 1 0 sample_steps_db)).
Proof.
  exact (feature_step_mark_started_sets_now 20 1 0
           (snd (feature_step_mark_started 10 1 0 sample_steps_db))
           (StepProgress.mk 1 1 0 "write it" false (Some 10) None None) eq_refl).
Defined.

(** ** C3: an assigned item is in progress *)

Section OwnerInvariant.
Variable d : db.
Hypothesis Hinv : owner_invariant d.

Lemma Forall_commit_feature (P : Feature.t -> Prop) f' rows :
  Forall P rows -> P f' -> Forall P (commit_feature f' rows).
Proof.
  intros Hall Hf. induction Hall as [|r rs Hr Hrs IH]; simpl.
  - constructor.
  - destruct (Feature.id r =? Feature.id f'); constructor; auto.
Qed.

Lemma owner_invariant_commit f' :
  owner_implies_claimed f' ->
  owner_invariant (mkdb (commit_feature f' (features d)) (step_progress d)).
Proof. intros Hf. apply Forall_commit_feature; [exact Hinv|exact Hf]. Qed.

Lemma feature_claim_next_owner_invariant agent_id :
  owner_invariant (snd (feature_claim_next agent_id d)).
Proof.
  unfold feature_claim_next.
  destruct (order_first _) as [f|]; simpl; [|exact Hinv].
  apply owner_invariant_commit. intros _. reflexivity.
Qed.

Lemma feature_get_next_owner_invariant env_agent_id agent_id :
  owner_invariant (snd (feature_get_next env_agent_id agent_id d)).
Proof.
  unfold feature_get_next.
  destruct (order_first _) as [f|]; simpl; [|exact Hinv].
  destruct (_ && _); simpl; [|exact Hinv].
  apply owner_invariant_commit. intros _. reflexivity.
Qed.

Lemma feature_mark_in_progress_owner_invariant feature_id agent_id :
  owner_invariant (snd (feature_mark_in_progress feature_id agent_id d)).
Proof.
  unfold feature_mark_in_progress.
  destruct (get_feature _ _) as [f|]; simpl; [|exact Hinv].
  destruct (Feature.passes f); simpl; [exact Hinv|].
  destruct (_ && _); simpl; [exact Hinv|].
  apply owner_invariant_commit. intros _.
  destruct (truthy agent_id); reflexivity.
Qed.

Lemma feature_release_owner_invariant feature_id agent_id :
  owner_invariant (snd (feature_release feature_id agent_id d)).
Proof.
  unfold feature_release.
  destruct (get_feature _ _) as [f|]; simpl; [|exact Hinv].
  destruct (_ && _); simpl; [exact Hinv|].
  apply owner_invariant_commit. intros H. now contradict H.
Qed.

Lemma feature_clear_in_progress_owner_invariant feature_id :
  owner_invariant (snd (feature_clear_in_progress feature_id d)).
Proof.
  unfold feature_clear_in_progress.
  destruct (get_feature _ _) as [f|]; simpl; [|exact Hinv].
  apply owner_invariant_commit. intros H. now contradict H.
Qed.

Lemma feature_mark_passing_owner_invariant feature_id :
  owner_invariant (snd (feature_mark_passing feature_id d)).
Proof.
  unfold feature_mark_passing.
  destruct (get_feature _ _) as [f|]; simpl; [|exact Hinv].
  apply owner_invariant_commit. intros H. now contradict H.
Qed.

(** [feature_skip] keeps the invariant when the skipped item has no
    assigned agent: it is the assignment it leaves in place that breaks
    it otherwise. *)
Lemma feature_skip_owner_invariant_unassigned feature_id :
  (forall f, get_feature feature_id (features d) = Some f ->
             Feature.assigned_agent_id f = None) ->
  owner_invariant (snd (feature_skip feature_id d)).
Proof.
  intros Hnone. unfold feature_skip.
  destruct (get_feature _ _) as [f|] eqn:Hget; simpl; [|exact Hinv].
  destruct (Feature.passes f); simpl; [exact Hinv|].
  apply owner_invariant_commit. intros H. simpl in H.
  now rewrite (Hnone f eq_refl) in H.
Qed.
End OwnerInvariant.

(** C3. The invariant "an item with an assigned agent is in progress" is
    not kept by [feature_skip]: in a database that satisfies it, skipping
    the item agent [a] works on clears [in_progress] and leaves
    [assigned_agent_id = Some "a"], so the invariant fails afterwards.
    ([feature_claim_next], [feature_mark_in_progress], [feature_release]
    and [feature_mark_passing] keep it: the lemmas above.) *)
Theorem feature_skip_breaks_owner_invariant :
  owner_invariant sample_db
  /\ (exists details d',
        feature_skip 1 sample_db = (Success details, d') /\
        get_feature 1 (features d')
          = Some (sample_feature 1 8 false false (Some "a")))
  /\ ~ owner_invariant (snd (feature_skip 1 sample_db)).
Proof.
  split; [|split].
  - unfold owner_invariant, sample_db; simpl.
    repeat constructor; unfold owner_implies_claimed; simpl; congruence.
  - eexists _, _. split; reflexivity.
  - intros H. unfold owner_invariant in H. simpl in H.
    apply Forall_inv in H. unfold owner_implies_claimed in H. simpl in H.
    discriminate H. discriminate.
Qed.

(** ** C2: the item [feature_claim_next] selects *)

Lemma sorts_before_false f g : sorts_before g f = false <-> ordered_le f g.
Proof.
  unfold sorts_before, ordered_le.
  rewrite orb_false_iff, andb_false_iff, Z.ltb_ge, Z.eqb_neq, Z.ltb_ge. lia.
Qed.

Lemma order_first_None rows : order_first rows = None -> rows = [].
Proof.
  destruct rows as [|r rs]; simpl; [reflexivity|].
  destruct (order_first rs); discriminate.
Qed.

(** The first row of the ordered result is a row, and no row comes before it. *)
Lemma order_first_Some rows f :
  order_first rows = Some f ->
  In f rows /\ forall g, In g rows -> ordered_le f g.
Proof.
  revert f. induction rows as [|r rs IH]; simpl; intros f H; [discriminate|].
  destruct (order_first rs) as [b|] eqn:Hb.
  - destruct (IH b eq_refl) as [Hin Hmin].
    destruct (sorts_before b r) eqn:Hs; inversion H; subst f; clear H.
    + split; [now right|]. intros g [<-|Hg]; [|now apply Hmin].
      unfold sorts_before in Hs. unfold ordered_le.
      apply orb_true_iff in Hs as [Hs|Hs]; [lia|].
      apply andb_true_iff in Hs as [H1 H2]. lia.
    + split; [now left|]. intros g [<-|Hg].
      * unfold ordered_le. lia.
      * apply sorts_before_false in Hs. specialize (Hmin g Hg).
        unfold ordered_le in *. lia.
  - apply order_first_None in Hb. subst rs. inversion H; subst f.
    split; [now left|]. intros g [<-|[]]. unfold ordered_le. lia.
Qed.

Lemma claimable_available agent_id f :
  claimable agent_id f = true <-> available_to agent_id f.
Proof.
  unfold claimable, available_to.
  destruct (Feature.assigned_agent_id f) as [h|].
  - rewrite String.eqb_eq. split.
    + intros ->. now left.
    + intros [H|[_ H]]; congruence.
  - rewrite negb_true_iff. split.
    + intros H. now right.
    + intros [H|[H _]]; congruence.
Qed.

Lemma get_feature_of_In rows f :
  In f rows -> exists f0, get_feature (Feature.id f) rows = Some f0.
Proof.
  intros Hin. destruct (get_feature (Feature.id f) rows) as [f0|] eqn:E; [eauto|].
  exfalso. exact (get_feature_None _ _ E f Hin eq_refl).
Qed.

(** The rows left by the two filters of [feature_claim_next]. *)
Lemma In_claim_query agent_id rows g :
  In g (List.filter (claimable agent_id)
          (List.filter (fun f => negb (Feature.passes f)) rows))
  <-> In g rows /\ Feature.passes g = false /\ available_to agent_id g.
Proof.
  rewrite !filter_In, negb_true_iff, claimable_available. tauto.
Qed.

(** With an item in progress under no agent at the head of the queue,
    [nextAvailable "b"] is item 1 but [feature_claim_next "b"] claims item 2. *)
Lemma feature_claim_next_skips_anonymous_claim :
  ~ claimNext_refines_nextAvailable "b" anonymous_claim_db.
Proof.
  unfold claimNext_refines_nextAvailable. simpl.
  intros (f & (Hin & _ & _ & Hmin) & Heq).
  specialize (Hmin (sample_feature 1 1 false true None)
                (or_introl eq_refl) eq_refl (or_introl eq_refl)).
  assert (Hp : Feature.priority f = 2) by (destruct f; inversion Heq; reflexivity).
  assert (Hi : Feature.id f = 2) by (destruct f; inversion Heq; reflexivity).
  unfold ordered_le in Hmin. simpl in Hmin. lia.
Qed.

(** The first row of the query of [feature_claim_next] is the next
    claimable item; the query is empty only when there is none. *)
Lemma claim_query_first agent_id rows f :
  order_first (List.filter (claimable agent_id)
                 (List.filter (fun f => negb (Feature.passes f)) rows)) = Some f ->
  next_claimable agent_id rows f.
Proof.
  intros Hsel. apply order_first_Some in Hsel as [Hin Hmin].
  apply In_claim_query in Hin as (Hin & Hp & Hav).
  repeat split; try assumption.
  intros g Hg Hgp Hga. apply Hmin. apply In_claim_query. tauto.
Qed.

Lemma claim_query_empty agent_id rows :
  order_first (List.filter (claimable agent_id)
                 (List.filter (fun f => negb (Feature.passes f)) rows)) = None ->
  forall f, ~ next_claimable agent_id rows f.
Proof.
  intros Hsel f (Hin & Hp & Hav & _). apply order_first_None in Hsel.
  assert (Hq : In f (List.filter (claimable agent_id)
                       (List.filter (fun f => negb (Feature.passes f)) rows)))
    by (apply In_claim_query; tauto).
  rewrite Hsel in Hq. exact Hq.
Qed.

(** C2 (amended). [feature_claim_next agent_id] answers with the
    first item in queue order (lowest priority, then lowest id) among the
    items that are not passing and are either assigned to the caller or
    neither in progress nor assigned, returned in progress and assigned to
    the caller, and stored so; it answers with an error of kind
    [NotAvailable], changing nothing, exactly when there is no such item. *)
Theorem feature_claim_next_spec (agent_id : string) (d : db) :
  match feature_claim_next agent_id d with
  | (Success f', d') =>
      exists f,
        next_claimable agent_id (features d) f
        /\ f' = claimed_by agent_id f
        /\ Feature.in_progress f' = true
        /\ Feature.assigned_agent_id f' = Some agent_id
        /\ get_feature (Feature.id f) (features d') = Some f'
  | (Failure e, d') =>
      kind_of e = NotAvailable /\ d' = d
      /\ forall f, ~ next_claimable agent_id (features d) f
  end.
Proof.
  unfold feature_claim_next.
  destruct (order_first _) as [f|] eqn:Hsel.
  - exists f. split; [now apply claim_query_first|].
    split; [reflexivity|split; [reflexivity|split; [reflexivity|]]].
    apply claim_query_first in Hsel as (Hin & _). simpl.
    destruct (get_feature_of_In _ _ Hin) as [f0 Hf0].
    eapply get_commit_feature; [exact Hf0|reflexivity].
  - split; [reflexivity|split; [reflexivity|]].
    now apply claim_query_empty.
Qed.

(** On a database where no item is in progress without an assigned agent,
    the selection is the one [nextAvailable] specifies. *)
Lemma feature_claim_next_refines_nextAvailable (owner : string) (d : db) :
  (forall g, In g (features d) -> Feature.passes g = false ->
             Feature.in_progress g = true -> Feature.assigned_agent_id g <> None) ->
  claimNext_refines_nextAvailable owner d.
Proof.
  intros Hanon.
  assert (Hiff : forall g, In g (features d) -> Feature.passes g = false ->
            (available_to owner g <->
             (Feature.assigned_agent_id g = None
              \/ Feature.assigned_agent_id g = Some owner))).
  { intros g Hg Hp. unfold available_to. specialize (Hanon g Hg Hp).
    destruct (Feature.in_progress g); [|tauto].
    split; [tauto|]. intros [H|H]; [|tauto]. exfalso. now apply Hanon. }
  unfold claimNext_refines_nextAvailable, feature_claim_next.
  destruct (order_first _) as [f|] eqn:Hsel; simpl.
  - apply claim_query_first in Hsel as (Hin & Hp & Hav & Hmin).
    exists f. split; [|reflexivity].
    repeat split; try assumption.
    + now apply Hiff.
    + intros g Hg Hgp Hga. apply Hmin; try assumption. now apply Hiff.
  - split; [reflexivity|].
    intros f (Hin & Hp & Hav & Hmin).
    apply (claim_query_empty _ _ Hsel f).
    repeat split; try assumption.
    + now apply Hiff.
    + intros g Hg Hgp Hga. apply Hmin; try assumption. now apply Hiff.
Qed.

(** [feature_get_next] with an agent identifier looks at the item
    [nextAvailable] specifies: it answers with that item, claimed for the
    agent when it was not in progress. *)
Lemma feature_get_next_nextAvailable (env_agent_id agent_id : string) (d : db) :
  agent_id <> "" ->
  match fst (feature_get_next env_agent_id agent_id d) with
  | Success f' =>
      exists f, nextAvailable_spec agent_id (features d) f
                /\ (f' = f \/ f' = claimed_by agent_id f)
  | Failure e =>
      kind_of e = NotAvailable
      /\ forall f, ~ nextAvailable_spec agent_id (features d) f
  end.
Proof.
  intros Hagent. unfold feature_get_next. cbv zeta.
  rewrite (truthy_true _ Hagent). cbv iota. rewrite ?(truthy_true _ Hagent).
  assert (Hq : forall g,
    In g (List.filter (unassigned_or_mine agent_id)
            (List.filter (fun f => negb (Feature.passes f)) (features d)))
    <-> In g (features d) /\ Feature.passes g = false
        /\ (Feature.assigned_agent_id g = None
            \/ Feature.assigned_agent_id g = Some agent_id)).
  { intros g. rewrite !filter_In, negb_true_iff. unfold unassigned_or_mine.
    destruct (Feature.assigned_agent_id g) as [h|].
    - rewrite String.eqb_eq. split.
      + intros [H ->]. tauto.
      + intros (H1 & H2 & [H|H]); [discriminate H|]. inversion H. tauto.
    - tauto. }
  destruct (order_first _) as [f|] eqn:Hsel.
  - apply order_first_Some in Hsel as [Hin Hmin]. apply Hq in Hin.
    assert (Hspec : nextAvailable_spec agent_id (features d) f).
    { destruct Hin as (H1 & H2 & H3). repeat split; try assumption.
      intros g Hg Hgp Hga. apply Hmin. apply Hq. tauto. }
    cbn [andb]. destruct (negb (Feature.in_progress f)); cbn [fst];
      exists f; (split; [exact Hspec|]); [now right|now left].
  - apply order_first_None in Hsel. cbn [fst]. split; [reflexivity|].
    intros f (H1 & H2 & H3 & _).
    assert (Hf : In f (List.filter (unassigned_or_mine agent_id)
               (List.filter (fun f => negb (Feature.passes f)) (features d))))
      by (apply Hq; tauto).
    rewrite Hsel in Hf. exact Hf.
Qed.

(** On the database of the counterexample, [feature_get_next] answers with
    item 1 where [feature_claim_next] claims item 2. *)
Example feature_get_next_anonymous_claim :
  fst (feature_get_next "" "b" anonymous_claim_db)
  = Success (sample_feature 1 1 false true None)
  /\ fst (feature_claim_next "b" anonymous_claim_db)
     = Success (sample_feature 2 2 false true (Some "b")).
Proof. split; reflexivity. Qed.

(** ** C7: creating a batch *)

(** The rows the loop of [feature_create_bulk] builds from a batch whose
    elements carry the required keys, the batch starting at index [i]. *)
Lemma create_rows_ok start_priority first_id label batch :
  Forall required_fields_present batch ->
  forall i : nat,
  exists rows,
    create_rows start_priority first_id label i batch = Success rows
    /\ length rows = length batch
    /\ forall (k : nat) feature_data,
        batch !! k = Some feature_data ->
        exists f,
          rows !! k = Some f
          /\ Feature.priority f
             = start_priority + Z.of_nat (i + k) - defect_boost feature_data
          /\ Feature.id f = first_id + Z.of_nat (i + k)
          /\ Some (Feature.steps f) = FeatureData.steps feature_data
          /\ Feature.label f = label
          /\ Feature.passes f = false
          /\ Feature.in_progress f = false
          /\ Feature.assigned_agent_id f = None.
Proof.
  induction 1 as [|fd rest Hfd Hrest IH]; intros i.
  - exists []. split; [reflexivity|split; [reflexivity|]].
    intros k feature_data Hk. discriminate Hk.
  - destruct Hfd as ([c Hc] & [n Hn] & [ds Hds] & [st Hst]).
    destruct (IH (S i)) as (rows & Hrows & Hlen & Hnth).
    cbn [create_rows]. rewrite Hc, Hn, Hds, Hst, Hrows.
    eexists. split; [reflexivity|]. split; [simpl; congruence|].
    intros [|k] feature_data Hk; simpl in Hk.
    + inversion Hk; subst feature_data. eexists. split; [reflexivity|].
      cbn [Feature.priority Feature.id Feature.steps Feature.label
           Feature.passes Feature.in_progress Feature.assigned_agent_id].
      rewrite Nat.add_0_r. unfold defect_boost.
      repeat split; try reflexivity; [|now rewrite Hst].
      destruct (String.eqb _ "bug"); lia.
    + destruct (Hnth k feature_data Hk) as (f & Hf & Hp & Hi & Hrest').
      exists f. split; [exact Hf|].
      replace (i + S k)%nat with (S i + k)%nat by lia. tauto.
Qed.




(** The priorities of the sample batch after the sample database, whose
    highest priority is 7: 8 for the ordinary item, 9 - 500 for the bug. *)
Example feature_create_bulk_sample :
  map Feature.priority
    (features (snd (feature_create_bulk sample_batch None sample_db)))
  = [1; 7; 3; 8; -491].
Proof. reflexivity. Qed.

(** ** Strings *)

Lemma append_cons c s t : String c s ++ t = String c (s ++ t).
Proof. reflexivity. Qed.

Lemma append_nil_r s : s ++ "" = s.
Proof. induction s as [|c s IH]; [reflexivity|]. now rewrite append_cons, IH. Qed.

Lemma append_assoc s t u : (s ++ t) ++ u = s ++ (t ++ u).
Proof.
  induction s as [|c s IH]; [reflexivity|]. now rewrite !append_cons, IH.
Qed.

Lemma length_append s t :
  String.length (s ++ t) = (String.length s + String.length t)%nat.
Proof.
  induction s as [|c s IH]; [reflexivity|].
  rewrite append_cons. simpl. now rewrite IH.
Qed.

(** ** Strings of a JSON document are read back *)

Lemma scanstring_escape_char c tail :
  scanstring (escape_char c ++ tail)
  = match scanstring tail with
    | Some (r, rest) => Some (String c r, rest)
    | None => None
    end.
Proof. destruct c as [[] [] [] [] [] [] [] []]; reflexivity. Qed.

Lemma scanstring_escape_chars s rest :
  scanstring (escape_chars s ++ String dquote rest) = Some (s, rest).
Proof.
  induction s as [|c s IH]; [reflexivity|].
  cbn [escape_chars]. now rewrite append_assoc, scanstring_escape_char, IH.
Qed.

Lemma scanstring_encode s rest :
  scanstring (escape_chars s ++ String dquote "" ++ rest) = Some (s, rest).
Proof. apply scanstring_escape_chars. Qed.

(** ** Integers of a JSON document are read back *)

(** What may follow a value in a document: nothing, or a character that is
    neither a digit nor the start of a fraction or an exponent. *)
Definition ends_number (rest : string) : Prop :=
  match rest with
  | String c _ => is_digit c = false /\ starts_fraction rest = false
  | EmptyString => True
  end.

Lemma span_digits_end rest : ends_number rest -> span_digits rest = ("", rest).
Proof.
  destruct rest as [|c r]; [reflexivity|]. intros [Hc _]. simpl. now rewrite Hc.
Qed.

Lemma span_digits_uint d rest :
  ends_number rest ->
  span_digits (NilEmpty.string_of_uint d ++ rest)
  = (NilEmpty.string_of_uint d, rest).
Proof.
  intros Hrest. induction d; cbn [NilEmpty.string_of_uint];
    rewrite ?append_cons; simpl; rewrite ?IHd; try reflexivity.
  now apply span_digits_end.
Qed.

(** The decimal digits of a positive number do not start with [0]. *)
Lemma to_uint_head p d : Pos.to_uint p <> Decimal.D0 d.
Proof.
  intros H.
  pose proof (DecimalN.Unsigned.to_of (Pos.to_uint p)) as Hn.
  change (N.of_uint (Pos.to_uint p)) with (Pos.of_uint (Pos.to_uint p)) in Hn.
  rewrite DecimalPos.Unsigned.of_to in Hn. simpl in Hn.
  rewrite H in Hn. rewrite DecimalFacts.unorm_D0 in Hn.
  unfold Decimal.unorm in Hn.
  pose proof (DecimalFacts.nb_digits_nzhead d) as Hlen.
  destruct (Decimal.nzhead d) eqn:E.
  - inversion Hn; subst d.
    apply (DecimalPos.Unsigned.to_uint_nonzero p). exact H.
  - rewrite <- Hn in Hlen. simpl in Hlen. lia.
  - discriminate Hn. - discriminate Hn. - discriminate Hn.
  - discriminate Hn. - discriminate Hn. - discriminate Hn.
  - discriminate Hn. - discriminate Hn. - discriminate Hn.
Qed.

Lemma scan_digits_pos p rest :
  ends_number rest ->
  scan_digits (NilEmpty.string_of_uint (Pos.to_uint p) ++ rest)
  = Some (Z.pos p, rest).
Proof.
  intros Hrest. unfold scan_digits. rewrite (span_digits_uint _ _ Hrest).
  pose proof (to_uint_head p) as Hhead.
  pose proof (DecimalPos.Unsigned.to_uint_nonnil p) as Hnil.
  assert (Hval : int_of_digits (NilEmpty.string_of_uint (Pos.to_uint p))
                 = Some (Z.pos p)).
  { unfold int_of_digits.
    pose proof (NilZero.usu (Pos.to_uint p) Hnil) as Hu.
    unfold NilZero.string_of_uint in Hu.
    destruct (Pos.to_uint p) eqn:E; try congruence;
      rewrite Hu; unfold N.of_uint; rewrite <- E, DecimalPos.Unsigned.of_to;
      reflexivity. }
  assert (Hfrac : starts_fraction rest = false).
  { destruct rest; [reflexivity|]. apply Hrest. }
  destruct (Pos.to_uint p) eqn:E; try congruence;
    try (exfalso; eapply Hhead; reflexivity);
    cbn [NilEmpty.string_of_uint] in *; cbn [Ascii.eqb Bool.eqb andb];
    rewrite Hfrac, Hval; reflexivity.
Qed.

Lemma scan_int_repr n rest :
  ends_number rest -> scan_int (int_repr n ++ rest) = Some (n, rest).
Proof.
  intros Hrest. destruct n as [|p|p].
  - change (int_repr 0 ++ rest) with (String "0" rest).
    cbn [scan_int Ascii.eqb Bool.eqb andb].
    change (String "0" rest)
      with (NilEmpty.string_of_uint (Decimal.D0 Decimal.Nil) ++ rest).
    unfold scan_digits. rewrite (span_digits_uint _ _ Hrest).
    assert (Hfrac : starts_fraction rest = false).
    { destruct rest; [reflexivity|]. apply Hrest. }
    cbn. now rewrite Hfrac.
  - assert (Hrepr : int_repr (Z.pos p) = NilEmpty.string_of_uint (Pos.to_uint p)).
    { unfold int_repr. simpl. unfold NilZero.string_of_uint.
      pose proof (DecimalPos.Unsigned.to_uint_nonnil p).
      destruct (Pos.to_uint p); congruence. }
    rewrite Hrepr. pose proof (scan_digits_pos p rest Hrest) as Hs.
    destruct (NilEmpty.string_of_uint (Pos.to_uint p)) as [|c s] eqn:E.
    + exfalso. pose proof (DecimalPos.Unsigned.to_uint_nonnil p).
      destruct (Pos.to_uint p); simpl in E; congruence.
    + rewrite append_cons in *. cbn [scan_int].
      assert (Hc : Ascii.eqb c "-" = false).
      { destruct (Pos.to_uint p); simpl in E; inversion E; reflexivity. }
      now rewrite Hc.
  - assert (Hrepr : int_repr (Z.neg p)
                    = String "-" (NilEmpty.string_of_uint (Pos.to_uint p))).
    { unfold int_repr. simpl. unfold NilZero.string_of_uint.
      pose proof (DecimalPos.Unsigned.to_uint_nonnil p).
      destruct (Pos.to_uint p); congruence. }
    rewrite Hrepr, append_cons. cbn [scan_int Ascii.eqb Bool.eqb andb].
    now rewrite (scan_digits_pos p rest Hrest).
Qed.

(** ** A JSON document is read back *)

Lemma json_dumps_list items : json_dumps (JList items) = "[" ++ dumps_items items ++ "]".
Proof. reflexivity. Qed.

Lemma json_dumps_dict pairs : json_dumps (JDict pairs) = "{" ++ dumps_pairs pairs ++ "}".
Proof. reflexivity. Qed.

(** Induction on a document, with the hypothesis for every value directly
    inside a [list] or a [dict]. *)
Lemma json_nested_ind (P : json -> Prop) :
  P JNull -> (forall b, P (JBool b)) -> (forall n, P (JInt n)) ->
  (forall s, P (JStr s)) ->
  (forall items, Forall P items -> P (JList items)) ->
  (forall pairs, Forall (fun kx => P (snd kx)) pairs -> P (JDict pairs)) ->
  forall obj, P obj.
Proof.
  intros Hnull Hbool Hint Hstr Hlist Hdict.
  fix IH 1. intros [|b|n|s|items|pairs].
  - exact Hnull.
  - apply Hbool.
  - apply Hint.
  - apply Hstr.
  - apply Hlist. induction items as [|x l IHl]; constructor.
    + apply IH.
    + exact IHl.
  - apply Hdict. induction pairs as [|[k x] l IHl]; constructor.
    + apply IH.
    + exact IHl.
Qed.

(** What follows a value inside a document, or ends the document. *)
Definition ends_value (rest : string) : Prop :=
  match rest with
  | String c _ => c = ","%char \/ c = "]"%char \/ c = "}"%char
  | EmptyString => True
  end.

Lemma ends_value_number rest : ends_value rest -> ends_number rest.
Proof.
  destruct rest as [|c r]; [easy|]. simpl. intros [->|[->| ->]]; split; reflexivity.
Qed.

(** The first character of a written value: not whitespace, and not a
    closing bracket. *)
Definition starts_value (s : string) : Prop :=
  match s with
  | String c _ => is_json_ws c = false /\ Ascii.eqb c "]" = false
  | EmptyString => False
  end.

Lemma starts_value_append s r : starts_value s -> starts_value (s ++ r).
Proof. destruct s; [easy|]. now rewrite append_cons. Qed.

Lemma starts_value_uint d r :
  d <> Decimal.Nil -> starts_value (NilEmpty.string_of_uint d ++ r).
Proof. destruct d; intros H; try congruence; split; reflexivity. Qed.

Lemma json_dumps_starts_value obj : starts_value (json_dumps obj).
Proof.
  destruct obj as [|[]|[|p|p]|s|items|pairs]; try (split; reflexivity).
  pose proof (DecimalPos.Unsigned.to_uint_nonnil p) as Hnil.
  assert (Hrepr : int_repr (Z.pos p) = NilEmpty.string_of_uint (Pos.to_uint p) ++ "").
  { rewrite append_nil_r. unfold int_repr. simpl. unfold NilZero.string_of_uint.
    destruct (Pos.to_uint p); congruence. }
  cbn [json_dumps]. rewrite Hrepr. now apply starts_value_uint.
Qed.

Lemma skip_ws_starts_value s : starts_value s -> skip_ws s = s.
Proof. destruct s as [|c r]; [easy|]. intros [H _]. simpl. now rewrite H. Qed.

Lemma dumps_items_starts_value x l r : starts_value (dumps_items (x :: l) ++ r).
Proof.
  apply starts_value_append. destruct l; cbn [dumps_items].
  - apply json_dumps_starts_value.
  - apply starts_value_append, json_dumps_starts_value.
Qed.

(** [scan_once] reads [obj] back from its text, whatever follows it in the
    document, given calls enough. *)
Definition reads_back (obj : json) : Prop :=
  forall fuel rest,
    (json_size obj <= fuel)%nat -> ends_value rest ->
    scan_once fuel (json_dumps obj ++ rest) = Some (obj, rest).

Lemma JSONArray_eq fuel s values :
  JSONArray (S fuel) s values
  = match scan_once fuel s with
    | Some (value, s1) =>
        match skip_ws s1 with
        | String c s2 =>
            if Ascii.eqb c "]"%char
            then Some (JList (rev (value :: values)), s2)
            else if Ascii.eqb c ","%char
            then JSONArray fuel (skip_ws s2) (value :: values)
            else None
        | EmptyString => None
        end
    | None => None
    end.
Proof. reflexivity. Qed.

Lemma JSONObject_eq fuel s pairs :
  JSONObject (S fuel) s pairs
  = match scanstring s with
    | Some (key, s1) =>
        match skip_ws s1 with
        | String c s2 =>
            if Ascii.eqb c ":"%char then
              match scan_once fuel (skip_ws s2) with
              | Some (value, s3) =>
                  match skip_ws s3 with
                  | String c' s4 =>
                      if Ascii.eqb c' "}"%char
                      then Some (JDict (rev ((key, value) :: pairs)), s4)
                      else if Ascii.eqb c' ","%char then
                        match skip_ws s4 with
                        | String q s5 =>
                            if Ascii.eqb q dquote
                            then JSONObject fuel s5 ((key, value) :: pairs)
                            else None
                        | EmptyString => None
                        end
                      else None
                  | EmptyString => None
                  end
              | None => None
              end
            else None
        | EmptyString => None
        end
    | None => None
    end.
Proof. reflexivity. Qed.

Lemma scan_once_number fuel c s :
  is_digit c = true \/ c = "-"%char ->
  scan_once (S fuel) (String c s)
  = match scan_int (String c s) with
    | Some (n, rest) => Some (JInt n, rest)
    | None => None
    end.
Proof.
  destruct c as [[] [] [] [] [] [] [] []]; intros [H|H];
    try discriminate H; reflexivity.
Qed.

Lemma int_repr_head n :
  exists c s, int_repr n = String c s /\ (is_digit c = true \/ c = "-"%char).
Proof.
  destruct n as [|p|p].
  - exists "0"%char, "". split; [reflexivity|now left].
  - pose proof (DecimalPos.Unsigned.to_uint_nonnil p) as Hnil.
    unfold int_repr. simpl. unfold NilZero.string_of_uint.
    destruct (Pos.to_uint p); try congruence;
      eexists _, _; (split; [reflexivity|now left]).
  - eexists _, _. split; [reflexivity|now right].
Qed.

Lemma reads_back_int n : reads_back (JInt n).
Proof.
  intros fuel rest Hfuel Hrest. cbn [json_dumps json_size] in *.
  destruct fuel as [|fuel]; [lia|].
  pose proof (scan_int_repr n rest (ends_value_number _ Hrest)) as Hscan.
  destruct (int_repr_head n) as (c & s & Hrepr & Hc).
  rewrite Hrepr in *. rewrite append_cons in *.
  now rewrite (scan_once_number _ _ _ Hc), Hscan.
Qed.

Lemma reads_back_str s : reads_back (JStr s).
Proof.
  intros fuel rest Hfuel Hrest. cbn [json_dumps json_size] in *.
  destruct fuel as [|fuel]; [lia|].
  unfold encode_basestring_ascii. rewrite append_cons, append_assoc.
  cbn [scan_once]. change (Ascii.eqb dquote dquote) with true. cbv iota.
  now rewrite scanstring_encode.
Qed.

(** The loop of [JSONArray] on the text of the items [x :: l]. *)
Lemma JSONArray_dumps_items l :
  Forall reads_back l ->
  forall x values fuel rest,
    reads_back x ->
    (list_sum (map (fun y => S (json_size y)) (x :: l)) <= fuel)%nat ->
    JSONArray fuel (dumps_items (x :: l) ++ String "]" rest) values
    = Some (JList (rev values ++ x :: l), rest).
Proof.
  induction 1 as [|y l Hy Hl IH]; intros x values fuel rest Hx Hfuel;
    cbn [map list_sum fold_right] in Hfuel; (destruct fuel as [|fuel]; [lia|]);
    rewrite JSONArray_eq.
  - cbn [dumps_items]. rewrite (Hx fuel (String "]" rest)); [|lia|now (right; left)].
    cbn [skip_ws is_json_ws Ascii.eqb Bool.eqb orb]. cbv iota.
    cbn [rev]. reflexivity.
  - change (dumps_items (x :: y :: l))
      with (json_dumps x ++ ", " ++ dumps_items (y :: l)).
    rewrite !append_assoc.
    rewrite (Hx fuel); [|lia|now left].
    change (", " ++ dumps_items (y :: l) ++ String "]" rest)
      with (String "," (String " " (dumps_items (y :: l) ++ String "]" rest))).
    cbn [skip_ws is_json_ws Ascii.eqb Bool.eqb orb]. cbv iota.
    rewrite (skip_ws_starts_value _ (dumps_items_starts_value y l _)).
    rewrite (IH y (x :: values) fuel rest Hy); [|cbn [map list_sum fold_right]; lia].
    cbn [rev]. now rewrite <- List.app_assoc.
Qed.

Lemma dumps_pairs_head k x l r :
  exists s, dumps_pairs ((k, x) :: l) ++ r = String dquote s.
Proof.
  destruct l as [|[k' y] l]; cbn [dumps_pairs]; unfold encode_basestring_ascii;
    rewrite !append_cons; eauto.
Qed.

Lemma two_chars_append a b s :
  String a (String b "") ++ s = String a (String b s).
Proof. reflexivity. Qed.

(** The loop of [JSONObject] on the text of the items [(k, x) :: l], entered
    after the opening quote of the first key. *)
Lemma JSONObject_dumps_pairs l :
  Forall (fun kx => reads_back (snd kx)) l ->
  forall k x pairs fuel rest s,
    reads_back x ->
    (list_sum (map (fun ky => S (json_size (snd ky))) ((k, x) :: l)) <= fuel)%nat ->
    String dquote s = dumps_pairs ((k, x) :: l) ++ String "}" rest ->
    JSONObject fuel s pairs = Some (JDict (rev pairs ++ (k, x) :: l), rest).
Proof.
  induction 1 as [|[k' y] l Hy Hl IH]; intros k x pairs fuel rest s Hx Hfuel Hs;
    cbn [map list_sum fold_right snd] in Hfuel; (destruct fuel as [|fuel]; [lia|]);
    rewrite JSONObject_eq.
  - cbn [dumps_pairs] in Hs. unfold encode_basestring_ascii in Hs.
    injection Hs as ->. rewrite !append_assoc.
    rewrite scanstring_encode, two_chars_append.
    cbn [skip_ws is_json_ws Ascii.eqb Bool.eqb orb]. cbv iota.
    rewrite (skip_ws_starts_value _
               (starts_value_append _ _ (json_dumps_starts_value x))).
    rewrite (Hx fuel (String "}" rest)); [|lia|now (right; right)].
    cbn [skip_ws is_json_ws Ascii.eqb Bool.eqb orb]. cbv iota.
    cbn [rev]. reflexivity.
  - change (dumps_pairs ((k, x) :: (k', y) :: l))
      with (encode_basestring_ascii k ++ ": " ++ json_dumps x ++ ", "
            ++ dumps_pairs ((k', y) :: l)) in Hs.
    unfold encode_basestring_ascii in Hs.
    injection Hs as ->. rewrite !append_assoc.
    rewrite scanstring_encode, two_chars_append.
    cbn [skip_ws is_json_ws Ascii.eqb Bool.eqb orb]. cbv iota.
    rewrite (skip_ws_starts_value _
               (starts_value_append _ _ (json_dumps_starts_value x))).
    rewrite (Hx fuel); [|lia|now left].
    rewrite two_chars_append.
    cbn [skip_ws is_json_ws Ascii.eqb Bool.eqb orb]. cbv iota.
    destruct (dumps_pairs_head k' y l (String "}" rest)) as [s' Hs'].
    match goal with
    | |- context [skip_ws (?t ++ String "}" rest)] =>
        change t with (dumps_pairs ((k', y) :: l))
    end.
    rewrite Hs'.
    cbn [skip_ws is_json_ws dquote Ascii.eqb Bool.eqb orb]. cbv iota.
    rewrite (IH k' y ((k, x) :: pairs) fuel rest s' Hy);
      [|cbn [map list_sum fold_right snd]; lia|now symmetry].
    cbn [rev]. now rewrite <- List.app_assoc.
Qed.

(** Every document is read back by [scan_once]. *)
Lemma scan_once_json_dumps obj : reads_back obj.
Proof.
  induction obj as [|b|n|s|items Hitems|pairs Hpairs] using json_nested_ind.
  - intros fuel rest Hfuel _. destruct fuel; [simpl in Hfuel; lia|reflexivity].
  - intros fuel rest Hfuel _.
    destruct fuel; [simpl in Hfuel; lia|]. destruct b; reflexivity.
  - apply reads_back_int.
  - apply reads_back_str.
  - intros fuel rest Hfuel Hrest. destruct items as [|x l].
    + destruct fuel; [simpl in Hfuel; lia|reflexivity].
    + cbn [json_size] in Hfuel. destruct fuel as [|fuel]; [lia|].
      rewrite json_dumps_list, !append_assoc.
      change ("[" ++ dumps_items (x :: l) ++ "]" ++ rest)
        with (String "[" (dumps_items (x :: l) ++ String "]" rest)).
      cbn [scan_once Ascii.eqb Bool.eqb dquote]. cbv iota.
      pose proof (dumps_items_starts_value x l (String "]" rest)) as Hstart.
      rewrite (skip_ws_starts_value _ Hstart).
      destruct (dumps_items (x :: l) ++ String "]" rest) as [|c s2] eqn:E;
        [destruct Hstart|].
      destruct Hstart as [_ ->]. rewrite <- E.
      inversion Hitems; subst.
      rewrite (JSONArray_dumps_items l); auto. lia.
  - intros fuel rest Hfuel Hrest. destruct pairs as [|[k x] l].
    + destruct fuel; [simpl in Hfuel; lia|reflexivity].
    + cbn [json_size] in Hfuel. destruct fuel as [|fuel]; [lia|].
      rewrite json_dumps_dict, !append_assoc.
      change ("{" ++ dumps_pairs ((k, x) :: l) ++ "}" ++ rest)
        with (String "{" (dumps_pairs ((k, x) :: l) ++ String "}" rest)).
      cbn [scan_once Ascii.eqb Bool.eqb dquote]. cbv iota.
      destruct (dumps_pairs_head k x l (String "}" rest)) as [s' Hs'].
      rewrite Hs'.
      cbn [skip_ws is_json_ws dquote Ascii.eqb Bool.eqb orb]. cbv iota.
      inversion Hpairs; subst.
      rewrite (JSONObject_dumps_pairs l) with (k := k) (x := x) (rest := rest);
        auto. lia.
Qed.

(** ** The text of a document *)

Lemma all_printable_append s t :
  all_printable (s ++ t) = all_printable s && all_printable t.
Proof.
  induction s as [|c s IH]; [reflexivity|].
  rewrite append_cons. cbn [all_printable]. now rewrite IH, andb_assoc.
Qed.

Lemma escape_char_printable c : all_printable (escape_char c) = true.
Proof. destruct c as [[] [] [] [] [] [] [] []]; reflexivity. Qed.

Lemma encode_basestring_ascii_printable s :
  all_printable (encode_basestring_ascii s) = true.
Proof.
  unfold encode_basestring_ascii. cbn [all_printable].
  rewrite all_printable_append. change (is_printable dquote) with true.
  cbn [all_printable andb]. change (is_printable dquote) with true.
  rewrite andb_true_r. cbn [andb].
  induction s as [|c s IH]; [reflexivity|].
  cbn [escape_chars]. now rewrite all_printable_append, escape_char_printable, IH.
Qed.

Lemma int_repr_printable n : all_printable (int_repr n) = true.
Proof.
  assert (Hu : forall d, all_printable (NilEmpty.string_of_uint d) = true).
  { induction d; cbn [NilEmpty.string_of_uint all_printable]; rewrite ?IHd;
      reflexivity. }
  unfold int_repr.
  destruct n as [|p|p]; [reflexivity| |]; simpl; unfold NilZero.string_of_uint;
    destruct (Pos.to_uint p) eqn:E; try reflexivity; rewrite <- E;
    cbn [all_printable]; rewrite ?Hu; reflexivity.
Qed.

Lemma json_dumps_printable obj : all_printable (json_dumps obj) = true.
Proof.
  induction obj as [|b|n|s|items Hitems|pairs Hpairs] using json_nested_ind.
  - reflexivity.
  - destruct b; reflexivity.
  - apply int_repr_printable.
  - apply encode_basestring_ascii_printable.
  - rewrite json_dumps_list, !all_printable_append.
    assert (H : all_printable (dumps_items items) = true).
    { induction Hitems as [|x l Hx Hl IH]; [reflexivity|].
      destruct l as [|y l]; [exact Hx|].
      change (dumps_items (x :: y :: l))
        with (json_dumps x ++ ", " ++ dumps_items (y :: l)).
      now rewrite !all_printable_append, Hx, IH. }
    now rewrite H.
  - rewrite json_dumps_dict, !all_printable_append.
    assert (H : all_printable (dumps_pairs pairs) = true).
    { induction Hpairs as [|[k x] l Hx Hl IH]; [reflexivity|].
      cbn [snd] in Hx. destruct l as [|ky l].
      - cbn [dumps_pairs]. rewrite !all_printable_append.
        now rewrite encode_basestring_ascii_printable, Hx.
      - change (dumps_pairs ((k, x) :: ky :: l))
          with (encode_basestring_ascii k ++ ": " ++ json_dumps x ++ ", "
                ++ dumps_pairs (ky :: l)).
        rewrite !all_printable_append.
        now rewrite encode_basestring_ascii_printable, Hx, IH. }
    now rewrite H.
Qed.

(** A text of printable characters followed by a newline is one line. *)
Lemma readline_printable s rest :
  all_printable s = true ->
  readline (s ++ String newline rest) = (s ++ String newline "", rest).
Proof.
  induction s as [|c s IH]; [reflexivity|].
  cbn [all_printable]. intros [Hc Hs]%andb_true_iff.
  rewrite !append_cons. cbn [readline]. rewrite (IH Hs).
  destruct (Ascii.eqb c newline) eqn:E; [|reflexivity].
  apply Ascii.eqb_eq in E. subst c. discriminate Hc.
Qed.

(** ** Reading a document back *)

Lemma json_size_length obj : (json_size obj <= String.length (json_dumps obj))%nat.
Proof.
  induction obj as [|b|n|s|items Hitems|pairs Hpairs] using json_nested_ind.
  - simpl. lia.
  - destruct b; simpl; lia.
  - cbn [json_size json_dumps]. destruct (int_repr_head n) as (c & s & -> & _).
    simpl. lia.
  - cbn [json_size json_dumps]. unfold encode_basestring_ascii. simpl. lia.
  - rewrite json_dumps_list, !length_append. cbn [json_size].
    assert (H : (list_sum (map (fun x => S (json_size x)) items)
                 <= S (String.length (dumps_items items)))%nat).
    { induction Hitems as [|x l Hx Hl IH]; [simpl; lia|].
      destruct l as [|y l]; [simpl in *; lia|].
      change (dumps_items (x :: y :: l))
        with (json_dumps x ++ ", " ++ dumps_items (y :: l)).
      rewrite !length_append. cbn [map list_sum fold_right] in *.
      change (String.length ", ") with 2%nat. lia. }
    change (String.length "[") with 1%nat. change (String.length "]") with 1%nat.
    lia.
  - rewrite json_dumps_dict, !length_append. cbn [json_size].
    assert (H : (list_sum (map (fun kx => S (json_size (snd kx))) pairs)
                 <= S (String.length (dumps_pairs pairs)))%nat).
    { induction Hpairs as [|[k x] l Hx Hl IH]; [simpl; lia|].
      cbn [snd] in Hx. destruct l as [|ky l].
      - cbn [dumps_pairs]. rewrite !length_append. simpl in *. lia.
      - change (dumps_pairs ((k, x) :: ky :: l))
          with (encode_basestring_ascii k ++ ": " ++ json_dumps x ++ ", "
                ++ dumps_pairs (ky :: l)).
        rewrite !length_append. cbn [map list_sum fold_right snd] in *.
        change (String.length ", ") with 2%nat. lia. }
    change (String.length "{") with 1%nat. change (String.length "}") with 1%nat.
    lia.
Qed.

(** [json.loads(json.dumps(obj)) == obj] *)
Lemma json_loads_dumps obj : json_loads (json_dumps obj) = Some obj.
Proof.
  unfold json_loads.
  rewrite (skip_ws_starts_value _ (json_dumps_starts_value obj)).
  rewrite <- (append_nil_r (json_dumps obj)) at 2.
  rewrite (scan_once_json_dumps obj); [reflexivity| |exact I].
  pose proof (json_size_length obj). lia.
Qed.

(** ** C8: a message that is sent is read back *)

Lemma rstrip_nonspace c s :
  isspace c = false -> rstrip (String c s) = String c (rstrip s).
Proof. intros H. cbn [rstrip]. rewrite H. now destruct (rstrip s). Qed.

Lemma rstrip_append s t : rstrip t <> "" -> rstrip (s ++ t) = s ++ rstrip t.
Proof.
  intros Ht. induction s as [|c s IH]; [reflexivity|].
  rewrite !append_cons. cbn [rstrip]. rewrite IH.
  destruct (s ++ rstrip t) eqn:E; [|reflexivity].
  destruct s; [|discriminate E]. now destruct (rstrip t).
Qed.

(** Stripping a line that starts with the prefix trims the end of what
    follows the prefix. *)
Lemma strip_prefixed r : strip (MESSAGE_PREFIX ++ r) = MESSAGE_PREFIX ++ rstrip r.
Proof.
  unfold strip. change (lstrip (MESSAGE_PREFIX ++ r)) with (MESSAGE_PREFIX ++ r).
  change (MESSAGE_PREFIX ++ r)
    with (String "@" (String "@" (String "M" (String "E" (String "S"
            (String "S" (String "A" (String "G" (String "E" (String "@"
               (String "@" r))))))))))).
  now rewrite !rstrip_nonspace by reflexivity.
Qed.

Lemma startswith_prefixed r : startswith (MESSAGE_PREFIX ++ r) MESSAGE_PREFIX = true.
Proof. reflexivity. Qed.

Lemma slice_from_prefixed r :
  slice_from (String.length MESSAGE_PREFIX) (MESSAGE_PREFIX ++ r) = r.
Proof. reflexivity. Qed.

Lemma startswith_split s p :
  startswith s p = true -> s = p ++ slice_from (String.length p) s.
Proof.
  revert s. induction p as [|c p IH]; intros s H; [reflexivity|].
  destruct s as [|a s]; [discriminate H|]. cbn [startswith] in H.
  apply andb_true_iff in H as [Ha Hs]. apply Ascii.eqb_eq in Ha. subst a.
  rewrite append_cons. cbn [String.length slice_from]. now rewrite <- IH.
Qed.

(** The message part of a line that starts with the prefix. *)
Lemma message_json_prefixed r : message_json (MESSAGE_PREFIX ++ r) = rstrip r.
Proof. unfold message_json. now rewrite strip_prefixed, slice_from_prefixed. Qed.

Lemma message_json_send_message message_type payload timestamp :
  message_json (send_message message_type payload timestamp)
  = json_dumps (message_dict message_type payload timestamp).
Proof.
  unfold send_message. rewrite message_json_prefixed.
  unfold message_dict. rewrite json_dumps_dict, !append_assoc.
  change ("}" ++ String newline "") with (String "}" (String newline "")).
  rewrite <- append_assoc, rstrip_append; [|discriminate].
  now rewrite append_assoc.
Qed.


(** ** C9: malformed lines *)

Lemma calls_app ev1 ev2 : calls (ev1 ++ ev2) = (calls ev1 ++ calls ev2)%list.
Proof. unfold calls. apply omap_app. Qed.

Lemma calls_run_callbacks t p cbs i :
  calls (run_callbacks t p i cbs) = calls_of t p i (length cbs).
Proof.
  revert i. induction cbs as [|cb cbs IH]; intros i; [reflexivity|].
  cbn [run_callbacks length]. unfold calls_of. cbn [seq map].
  destruct (cb p); unfold calls in *; cbn [omap list_omap]; simpl;
    rewrite IH; reflexivity.
Qed.

Section ListenerFacts.
Variable loads : string -> option json.
Variable self : AgentCommunicator.

Lemma strip_startswith line :
  startswith line MESSAGE_PREFIX = true ->
  startswith (strip line) MESSAGE_PREFIX = true.
Proof.
  intros H. rewrite (startswith_split _ _ H), strip_prefixed.
  apply startswith_prefixed.
Qed.

(** A line without the prefix is no message: the listener passes over it. *)
Lemma process_line_plain line :
  startswith (strip line) MESSAGE_PREFIX = false ->
  process_line loads self line = [].
Proof.
  intros H. unfold process_line, read_message. now rewrite H.
Qed.

(** A malformed line leads to no call. *)
Lemma process_line_malformed line :
  malformed loads line -> calls (process_line loads self line) = [].
Proof.
  intros [Hprefix Hbad]. unfold process_line, read_message.
  rewrite (strip_startswith _ Hprefix). cbn [negb].
  destruct (loads (message_json line)) as [message|]; [|reflexivity].
  destruct message as [|b|n|s|items|pairs]; try reflexivity.
  - cbn [contains py_bind].
    destruct (is_substring "type" s); [|reflexivity]. cbn [negb].
    destruct (is_substring "payload" s); reflexivity.
  - cbn [contains py_bind].
    destruct (existsb _ items); [|reflexivity]. cbn [negb].
    destruct (existsb _ items); reflexivity.
  - cbn [contains py_bind getitem].
    destruct (dict_get pairs "type") as [ty|] eqn:Ety; [|reflexivity].
    destruct (dict_get pairs "payload") as [pl|] eqn:Epl; [|reflexivity].
    exfalso. destruct Hbad as [Hno|Hno]; apply Hno; exists pairs;
      (split; [reflexivity|]); [rewrite Ety|rewrite Epl]; eauto.
Qed.

(** A well-formed line leads to one call of each callback registered for
    its type, in the order of registration. *)
Lemma process_line_well_formed line t p cbs :
  well_formed loads line t p ->
  callbacks self !! t = Some cbs ->
  calls (process_line loads self line) = calls_of t p 0 (length cbs).
Proof.
  intros (Hprefix & pairs & Hloads & Hty & Hpl) Hcbs.
  unfold process_line, read_message.
  rewrite (strip_startswith _ Hprefix), Hloads. cbn [negb contains py_bind getitem].
  rewrite Hty, Hpl. cbn [negb py_bind dispatch]. rewrite Hcbs.
  apply calls_run_callbacks.
Qed.

(** While the communicator runs, the listener handles a line that is not
    empty and goes on with the lines after it. *)
Lemma listen_stdin_step line rest :
  running self = true -> line <> "" ->
  listen_stdin loads self (line :: rest)
  = (process_line loads self line ++ listen_stdin loads self rest)%list.
Proof.
  intros Hrun Hline. cbn [listen_stdin]. rewrite Hrun.
  destruct (String.eqb line "") eqn:E; [|reflexivity].
  apply String.eqb_eq in E. contradiction.
Qed.

Lemma startswith_nonempty line :
  startswith line MESSAGE_PREFIX = true -> line <> "".
Proof. intros H ->. discriminate H. Qed.
End ListenerFacts.

(** C9. While the communicator runs, a line that starts with the prefix and
    whose message part is no JSON document, or a document without the
    field [type] or the field [payload], leads to no call of a callback and
    does not end the listener, which goes on with the lines that follow; a
    well-formed line that comes next is decoded and passed to each
    callback registered for its type. *)
Theorem listen_stdin_malformed_line
    (loads : string -> option json) (self : AgentCommunicator)
    (line next : string) (rest : list string)
    (t : string) (p : json) (cbs : list callback) :
  running self = true ->
  malformed loads line ->
  well_formed loads next t p ->
  callbacks self !! t = Some cbs ->
  calls (process_line loads self line) = []
  /\ listen_stdin loads self (line :: next :: rest)
     = (process_line loads self line
        ++ listen_stdin loads self (next :: rest))%list
  /\ calls (listen_stdin loads self (line :: next :: rest))
     = (calls_of t p 0 (length cbs)
        ++ calls (listen_stdin loads self rest))%list.
Proof.
  intros Hrun Hbad Hgood Hcbs.
  pose proof (process_line_malformed loads self line Hbad) as Hnone.
  assert (Hstep : listen_stdin loads self (line :: next :: rest)
                  = (process_line loads self line
                     ++ listen_stdin loads self (next :: rest))%list).
  { apply listen_stdin_step; [exact Hrun|].
    apply startswith_nonempty, Hbad. }
  split; [exact Hnone|split; [exact Hstep|]].
  rewrite Hstep, calls_app, Hnone. cbn [app].
  rewrite listen_stdin_step; [|exact Hrun|apply startswith_nonempty, Hgood].
  rewrite calls_app.
  now rewrite (process_line_well_formed loads self next t p cbs Hgood Hcbs).
Qed.

Lemma listen_stdin_malformed_line_witness :
  calls (process_line json_loads sample_communicator (MESSAGE_PREFIX ++ "{oops")) = []
  /\ listen_stdin json_loads sample_communicator
       [MESSAGE_PREFIX ++ "{oops"; send_message "ping" (JDict []) "now"]
     = (process_line json_loads sample_communicator (MESSAGE_PREFIX ++ "{oops")
        ++ listen_stdin json_loads sample_communicator
             [send_message "ping" (JDict []) "now"])%list
  /\ calls (listen_stdin json_loads sample_communicator
              [MESSAGE_PREFIX ++ "{oops"; send_message "ping" (JDict []) "now"])
     = (calls_of "ping" (JDict []) 0 (length [raises; returns])
        ++ calls (listen_stdin json_loads sample_communicator []))%list.
Proof.
  apply (listen_stdin_malformed_line json_loads sample_communicator
           (MESSAGE_PREFIX ++ "{oops") (send_message "ping" (JDict []) "now")
           [] "ping" (JDict []) [raises; returns]).
  - reflexivity.
  - split; [reflexivity|]. vm_compute. exact I.
  - split; [reflexivity|]. eexists. split; [vm_compute; reflexivity|].
    split; reflexivity.
  - vm_compute. reflexivity.
Defined.

(** ** Claims made one after the other *)

(** With a primary key, committing a row replaces just that row. *)
Lemma commit_feature_split rows f f' :
  List.NoDup (map Feature.id rows) -> In f rows -> Feature.id f' = Feature.id f ->
  exists l1 l2, rows = (l1 ++ f :: l2)%list
                /\ commit_feature f' rows = (l1 ++ f' :: l2)%list.
Proof.
  intros Hnd Hin Hid. induction rows as [|r rs IH]; [destruct Hin|].
  cbn [map] in Hnd. apply List.NoDup_cons_iff in Hnd as [Hr Hnd].
  cbn [commit_feature]. destruct Hin as [->|Hin].
  - rewrite Hid, Z.eqb_refl. now exists [], rs.
  - destruct (Feature.id r =? Feature.id f') eqn:E.
    + exfalso. apply Hr. apply Z.eqb_eq in E. rewrite E, Hid.
      now apply List.in_map.
    + destruct (IH Hnd Hin) as (l1 & l2 & -> & ->). now exists (r :: l1), l2.
Qed.

Lemma filter_length_le {A} (P Q : A -> bool) l :
  (forall x, In x l -> P x = true -> Q x = true) ->
  (length (List.filter P l) <= length (List.filter Q l))%nat.
Proof.
  induction l as [|a l IH]; intros H; [reflexivity|]. cbn [List.filter].
  assert (IH' := IH (fun x Hx => H x (or_intror Hx))).
  destruct (P a) eqn:Pa.
  - rewrite (H a (or_introl eq_refl) Pa). simpl. lia.
  - destruct (Q a); simpl; lia.
Qed.

Lemma claims_of_step done M d owner :
  claims_of done M d -> ~ In owner done ->
  claims_of (done ++ [owner]) M (snd (feature_claim_next owner d)).
Proof.
  intros (Hids & Hrows & Hholders & Hcount & Hinc) Hfresh.
  assert (Hmono : forall f, untouched f \/ held_by_one_of done f ->
                     untouched f \/ held_by_one_of (done ++ [owner]) f).
  { intros f [H|(H1 & H2 & o & H3 & H4)]; [now left|right].
    repeat split; try assumption. exists o. split; [assumption|].
    apply List.in_or_app. now left. }
  assert (Hsub : forall l, Forall (fun f => untouched f \/ held_by_one_of done f) l ->
            (length (List.filter Feature.in_progress l)
             <= length (List.filter (fun f => negb (Feature.passes f)) l))%nat).
  { intros l Hl. apply filter_length_le. intros x Hx Hip.
    rewrite List.Forall_forall in Hl. destruct (Hl x Hx) as [[H _]|(_ & H & _)];
      [congruence|now rewrite H]. }
  unfold feature_claim_next.
  destruct (order_first _) as [f|] eqn:Hsel; cbn [snd].
  - apply claim_query_first in Hsel as (Hin & Hp & Hav & _).
    assert (Hun : untouched f).
    { rewrite List.Forall_forall in Hrows.
      destruct (Hrows f Hin) as [H|(_ & _ & o & Ho & Hdone)]; [exact H|].
      destruct Hav as [Hav|[H1 H2]]; [|congruence].
      rewrite Ho in Hav. inversion Hav; subst. contradiction. }
    destruct Hun as [Hip Hnone].
    set (f' := Feature.with_assigned_agent_id (Some owner)
                 (Feature.with_in_progress true f)).
    destruct (commit_feature_split (features d) f f' Hids Hin eq_refl)
      as (l1 & l2 & Hrows_eq & Hcommit).
    unfold claims_of, holders, in_progress_items, incomplete_items in *.
    cbn [features]. rewrite Hcommit. rewrite Hrows_eq in *.
    rewrite !List.filter_app, !List.map_app in *. cbn [List.filter map] in *.
    rewrite Hip, Hp in *. cbn [negb Feature.in_progress Feature.passes f'
      Feature.with_assigned_agent_id Feature.with_in_progress map
      Feature.assigned_agent_id Feature.id] in *.
    rewrite Hp. cbn [negb].
    apply List.Forall_app in Hrows as [Hl1 Hl2]. apply List.Forall_cons_iff in Hl2 as [_ Hl2].
    rewrite !List.length_app in *. cbn [length] in *.
    pose proof (Hsub l1 Hl1) as Hle1. pose proof (Hsub l2 Hl2) as Hle2.
    split; [exact Hids|]. split; [|split; [|split; [|exact Hinc]]].
    + apply List.Forall_app. split; [eapply List.Forall_impl; [apply Hmono|exact Hl1]|].
      constructor; [|eapply List.Forall_impl; [apply Hmono|exact Hl2]].
      right. repeat split; try reflexivity; try assumption.
      exists owner. split; [reflexivity|]. apply List.in_or_app. right. now left.
    + eapply Permutation.Permutation_NoDup; [apply Permutation.Permutation_middle|].
      constructor; [|exact Hholders].
      rewrite <- List.map_app, <- List.filter_app. intros Hmem.
      apply List.in_map_iff in Hmem as (g & Hg & Hgin).
      apply List.filter_In in Hgin as [Hgin Hgip].
      assert (Hg' : untouched g \/ held_by_one_of done g).
      { apply List.in_app_or in Hgin as [Hgin|Hgin].
        - rewrite List.Forall_forall in Hl1. now apply Hl1.
        - rewrite List.Forall_forall in Hl2. now apply Hl2. }
      destruct Hg' as [[H _]|(_ & _ & o & Ho & Hdone)]; [congruence|].
      rewrite Ho in Hg. inversion Hg; subst. contradiction.
    + lia.
  - apply order_first_None in Hsel.
    assert (Hnone : forall g, In g (features d) -> Feature.passes g = false ->
                      Feature.in_progress g = true).
    { intros g Hg Hgp. rewrite List.Forall_forall in Hrows.
      destruct (Hrows g Hg) as [[H1 H2]|(H & _)]; [|exact H].
      exfalso.
      assert (Hq : In g (List.filter (claimable owner)
                 (List.filter (fun f => negb (Feature.passes f)) (features d)))).
      { apply In_claim_query. repeat split; try assumption. now right. }
      rewrite Hsel in Hq. exact Hq. }
    unfold claims_of in *.
    split; [exact Hids|]. split; [|split; [exact Hholders|split; [|exact Hinc]]].
    + eapply List.Forall_impl; [apply Hmono|exact Hrows].
    + rewrite ?List.length_app. cbn [length].
      assert (Hle : (length (incomplete_items d) <= length (in_progress_items d))%nat).
      { apply filter_length_le. intros x Hx Hxp. apply Hnone; [exact Hx|].
        now apply negb_true_iff. }
      lia.
Qed.

Lemma claims_of_in_turn owners :
  forall done M d,
    claims_of done M d -> List.NoDup (done ++ owners) ->
    claims_of (done ++ owners) M (claim_in_turn owners d).
Proof.
  induction owners as [|owner owners IH]; intros done M d Hinv Hnd.
  - now rewrite List.app_nil_r.
  - cbn [claim_in_turn fold_left].
    change (fold_left _ owners ?x) with (claim_in_turn owners x).
    replace (done ++ owner :: owners)%list
      with ((done ++ [owner]) ++ owners)%list in * by now rewrite <- List.app_assoc.
    apply IH; [|exact Hnd].
    apply claims_of_step; [exact Hinv|].
    rewrite <- List.app_assoc in Hnd. apply List.NoDup_remove_2 in Hnd.
    intros H. apply Hnd. apply List.in_or_app. now left.
Qed.

(** Run one after the other on a table where nothing is claimed, the
    claims of [N] distinct agents leave [min N M] items in progress, [M]
    being the number of items that are not passing, and no two of these
    items are assigned to the same agent. *)
Lemma claim_in_turn_count owners d :
  unclaimed_queue d -> List.NoDup owners ->
  length (in_progress_items (claim_in_turn owners d))
  = Nat.min (length owners) (length (incomplete_items d))
  /\ List.NoDup (holders (claim_in_turn owners d)).
Proof.
  intros [Hids Hrows] Hnd.
  assert (Hinv : claims_of [] (length (incomplete_items d)) d).
  { assert (Hnil : in_progress_items d = []).
    { unfold in_progress_items. induction Hrows as [|f l [Hf _] _ IH];
        [reflexivity|]. cbn [List.filter]. rewrite Hf.
      apply List.NoDup_cons_iff in Hids as [_ Hids]. now apply IH. }
    repeat split; try assumption.
    - eapply List.Forall_impl; [|exact Hrows]. intros f H. now left.
    - unfold holders. rewrite Hnil. constructor.
    - now rewrite Hnil. }
  destruct (claims_of_in_turn owners [] _ d Hinv Hnd) as (_ & _ & H1 & H2 & _).
  split; assumption.
Qed.

(** * Further properties of the tools *)

(** ** Rows and commits *)

Lemma get_feature_absent feature_id rows :
  (forall g, In g rows -> Feature.id g <> feature_id) ->
  get_feature feature_id rows = None.
Proof.
  intros H. unfold get_feature.
  destruct (List.find _ rows) as [f|] eqn:E; [|reflexivity].
  apply find_some in E as [Hin Heq]. exfalso. apply (H f Hin). lia.
Qed.

Lemma get_feature_first feature_id r rs :
  get_feature feature_id (r :: rs)
  = if Feature.id r =? feature_id then Some r else get_feature feature_id rs.
Proof. reflexivity. Qed.

(** Committing the row that is stored changes nothing. *)
Lemma commit_feature_self rows f :
  get_feature (Feature.id f) rows = Some f -> commit_feature f rows = rows.
Proof.
  induction rows as [|r rs IH]; [reflexivity|].
  rewrite get_feature_first. cbn [commit_feature].
  destruct (Feature.id r =? Feature.id f); [now intros [= ->]|].
  intros H. now rewrite IH.
Qed.

(** A second commit of a row replaces the first. *)
Lemma commit_feature_again f1 f2 rows :
  Feature.id f1 = Feature.id f2 ->
  commit_feature f2 (commit_feature f1 rows) = commit_feature f2 rows.
Proof.
  intros Hid. induction rows as [|r rs IH]; [reflexivity|].
  cbn [commit_feature]. rewrite Hid.
  destruct (Feature.id r =? Feature.id f2) eqn:E; cbn [commit_feature].
  - now rewrite Hid, Z.eqb_refl.
  - now rewrite E, IH.
Qed.

Lemma In_commit_feature f' rows g :
  In g (commit_feature f' rows) -> g = f' \/ In g rows.
Proof.
  induction rows as [|r rs IH]; simpl; [tauto|].
  destruct (Feature.id r =? Feature.id f'); simpl; intros [H|H]; auto.
  destruct (IH H); auto.
Qed.

Lemma commit_feature_other f' rows g :
  In g rows -> Feature.id g <> Feature.id f' -> In g (commit_feature f' rows).
Proof.
  induction rows as [|r rs IH]; simpl; [tauto|].
  intros [H|H] Hne.
  - subst r. destruct (Feature.id g =? Feature.id f') eqn:E; [lia|]. now left.
  - destruct (Feature.id r =? Feature.id f'); simpl; auto.
Qed.

Lemma commit_feature_ids f' rows :
  map Feature.id (commit_feature f' rows) = map Feature.id rows.
Proof.
  induction rows as [|r rs IH]; [reflexivity|]. cbn [commit_feature].
  destruct (Feature.id r =? Feature.id f') eqn:E; cbn [map].
  - apply Z.eqb_eq in E. now rewrite E.
  - now rewrite IH.
Qed.

(** With a primary key, a row is the one stored under its id. *)
Lemma get_feature_unique rows f :
  List.NoDup (map Feature.id rows) -> In f rows ->
  get_feature (Feature.id f) rows = Some f.
Proof.
  intros Hnd Hin. induction rows as [|r rs IH]; [destruct Hin|].
  cbn [map] in Hnd. apply List.NoDup_cons_iff in Hnd as [Hr Hnd].
  rewrite get_feature_first. destruct Hin as [->|Hin].
  - now rewrite Z.eqb_refl.
  - destruct (Feature.id r =? Feature.id f) eqn:E; [|now apply IH].
    exfalso. apply Hr. apply Z.eqb_eq in E. rewrite E. now apply List.in_map.
Qed.

(** ** Unknown identifiers *)

(** X1. When no row of the table has the identifier, each tool that takes
    a feature identifier answers with the error "not found" and leaves the
    database as it was. *)
Theorem unknown_feature_not_found (feature_id : Z) (d : db) :
  (forall g, In g (features d) -> Feature.id g <> feature_id) ->
  feature_skip feature_id d = (Failure (FeatureNotFound feature_id), d)
  /\ feature_mark_passing feature_id d = (Failure (FeatureNotFound feature_id), d)
  /\ feature_clear_in_progress feature_id d
     = (Failure (FeatureNotFound feature_id), d)
  /\ (forall agent_id,
        feature_mark_in_progress feature_id agent_id d
        = (Failure (FeatureNotFound feature_id), d))
  /\ (forall agent_id,
        feature_release feature_id agent_id d
        = (Failure (FeatureNotFound feature_id), d))
  /\ (forall category name description steps,
        feature_update feature_id category name description steps d
        = (Failure (FeatureNotFound feature_id), d))
  /\ feature_get_progress_details feature_id d
     = Failure (FeatureNotFound feature_id).
Proof.
  intros Habsent. apply get_feature_absent in Habsent.
  unfold feature_skip, feature_mark_passing, feature_clear_in_progress,
    feature_mark_in_progress, feature_release, feature_update,
    feature_get_progress_details.
  rewrite Habsent. repeat split.
Qed.

Lemma unknown_feature_not_found_witness :
  feature_skip 9 sample_db = (Failure (FeatureNotFound 9), sample_db)
  /\ feature_mark_passing 9 sample_db = (Failure (FeatureNotFound 9), sample_db)
  /\ feature_clear_in_progress 9 sample_db
     = (Failure (FeatureNotFound 9), sample_db)
  /\ (forall agent_id,
        feature_mark_in_progress 9 agent_id sample_db
        = (Failure (FeatureNotFound 9), sample_db))
  /\ (forall agent_id,
        feature_release 9 agent_id sample_db
        = (Failure (FeatureNotFound 9), sample_db))
  /\ (forall category name description steps,
        feature_update 9 category name description steps sample_db
        = (Failure (FeatureNotFound 9), sample_db))
  /\ feature_get_progress_details 9 sample_db = Failure (FeatureNotFound 9).
Proof.
  apply (unknown_feature_not_found 9 sample_db).
  simpl. intros g [<-|[<-|[<-|[]]]]; discriminate.
Defined.

(** ** An item in progress is not passing *)

Lemma in_progress_invariant_commit d f' :
  in_progress_invariant d -> in_progress_implies_incomplete f' ->
  in_progress_invariant (mkdb (commit_feature f' (features d)) (step_progress d)).
Proof. intros Hinv Hf. now apply Forall_commit_feature. Qed.

Lemma order_first_In rows f : order_first rows = Some f -> In f rows.
Proof. intros H. now apply order_first_Some in H. Qed.

Lemma create_rows_fresh start_priority first_id label batch :
  forall i rows,
    create_rows start_priority first_id label i batch = Success rows ->
    Forall (fun f => Feature.passes f = false /\ Feature.in_progress f = false
                     /\ Feature.assigned_agent_id f = None) rows.
Proof.
  induction batch as [|fd rest IH]; intros i rows H; cbn [create_rows] in H.
  - inversion H. constructor.
  - destruct (FeatureData.category fd), (FeatureData.name fd),
      (FeatureData.description fd), (FeatureData.steps fd); try discriminate H.
    destruct (create_rows _ _ _ (S i) rest) as [rows'|e] eqn:E; [|discriminate H].
    inversion H; subst rows. constructor; [repeat split|]. now apply (IH (S i)).
Qed.

(** X2. Every tool that writes the table keeps the invariant that an item
    in progress is not passing: claiming, marking, releasing, completing,
    skipping, creating and editing all lead from a table that satisfies it
    to a table that satisfies it. *)
Theorem tools_keep_in_progress_invariant (d : db) :
  in_progress_invariant d ->
  (forall agent_id, in_progress_invariant (snd (feature_claim_next agent_id d)))
  /\ (forall env_agent_id agent_id,
        in_progress_invariant (snd (feature_get_next env_agent_id agent_id d)))
  /\ (forall feature_id agent_id,
        in_progress_invariant (snd (feature_mark_in_progress feature_id agent_id d)))
  /\ (forall feature_id, in_progress_invariant (snd (feature_mark_passing feature_id d)))
  /\ (forall feature_id,
        in_progress_invariant (snd (feature_clear_in_progress feature_id d)))
  /\ (forall feature_id agent_id,
        in_progress_invariant (snd (feature_release feature_id agent_id d)))
  /\ (forall feature_id, in_progress_invariant (snd (feature_skip feature_id d)))
  /\ (forall batch label,
        in_progress_invariant (snd (feature_create_bulk batch label d)))
  /\ (forall category name description steps type,
        in_progress_invariant
          (snd (feature_create category name description steps type d)))
  /\ (forall feature_id category name description steps,
        in_progress_invariant
          (snd (feature_update feature_id category name description steps d))).
Proof.
  intros Hinv.
  assert (Hquery : forall (P : Feature.t -> bool) f,
            order_first (List.filter P
              (List.filter (fun f => negb (Feature.passes f)) (features d))) = Some f ->
            Feature.passes f = false).
  { intros P f H. apply order_first_In in H.
    apply filter_In in H as [H _]. apply filter_In in H as [_ H].
    now apply negb_true_iff. }
  assert (Hrow : forall feature_id f,
            get_feature feature_id (features d) = Some f ->
            in_progress_implies_incomplete f).
  { intros feature_id f H. apply get_feature_In in H as [H _].
    unfold in_progress_invariant in Hinv. rewrite List.Forall_forall in Hinv.
    now apply Hinv. }
  repeat split.
  - intros agent_id. unfold feature_claim_next.
    destruct (order_first _) as [f|] eqn:E; [|exact Hinv].
    apply in_progress_invariant_commit; [exact Hinv|]. intros _.
    exact (Hquery _ _ E).
  - intros env_agent_id agent_id. unfold feature_get_next. cbv zeta.
    set (a := if truthy agent_id then agent_id else env_agent_id).
    destruct (order_first _) as [f|] eqn:E; [|exact Hinv].
    destruct (truthy a && negb (Feature.in_progress f)) eqn:Hc; [|exact Hinv].
    apply in_progress_invariant_commit; [exact Hinv|]. intros _. cbn.
    apply andb_true_iff in Hc as [Ha _]. rewrite Ha in E.
    exact (Hquery _ _ E).
  - intros feature_id agent_id. unfold feature_mark_in_progress.
    destruct (get_feature _ _) as [f|] eqn:E; [|exact Hinv].
    destruct (Feature.passes f) eqn:Hp; [exact Hinv|].
    destruct (_ && _); [exact Hinv|].
    apply in_progress_invariant_commit; [exact Hinv|]. intros _.
    destruct (truthy agent_id); exact Hp.
  - intros feature_id. unfold feature_mark_passing.
    destruct (get_feature _ _) as [f|]; [|exact Hinv].
    apply in_progress_invariant_commit; [exact Hinv|]. intros H. discriminate H.
  - intros feature_id. unfold feature_clear_in_progress.
    destruct (get_feature _ _) as [f|]; [|exact Hinv].
    apply in_progress_invariant_commit; [exact Hinv|]. intros H. discriminate H.
  - intros feature_id agent_id. unfold feature_release.
    destruct (get_feature _ _) as [f|]; [|exact Hinv].
    destruct (_ && _); [exact Hinv|].
    apply in_progress_invariant_commit; [exact Hinv|]. intros H. discriminate H.
  - intros feature_id. unfold feature_skip.
    destruct (get_feature _ _) as [f|]; [|exact Hinv].
    destruct (Feature.passes f); [exact Hinv|].
    apply in_progress_invariant_commit; [exact Hinv|]. intros H. discriminate H.
  - intros batch label. unfold feature_create_bulk.
    destruct (create_rows _ _ _ _ _) as [rows|e] eqn:E; [|exact Hinv].
    apply List.Forall_app. split; [exact Hinv|].
    eapply List.Forall_impl; [|exact (create_rows_fresh _ _ _ _ _ _ E)].
    intros f (Hp & _). intros _. exact Hp.
  - intros category name description steps type. unfold feature_create.
    apply List.Forall_app. split; [exact Hinv|].
    constructor; [|constructor]. intros _. reflexivity.
  - intros feature_id category name description steps. unfold feature_update.
    destruct (get_feature _ _) as [f|] eqn:E; [|exact Hinv].
    apply in_progress_invariant_commit; [exact Hinv|].
    exact (Hrow _ _ E).
Qed.

Lemma tools_keep_in_progress_invariant_witness :
  in_progress_invariant (snd (feature_release 1 "a" sample_db)).
Proof.
  apply (tools_keep_in_progress_invariant sample_db).
  unfold in_progress_invariant, sample_db. cbn [features].
  repeat constructor; intros H; try reflexivity; discriminate H.
Defined.

(** ** Creating features *)

Lemma required_fields_presentb_spec feature_data :
  required_fields_presentb feature_data = true
  <-> required_fields_present feature_data.
Proof.
  unfold required_fields_presentb, required_fields_present.
  destruct (FeatureData.category feature_data), (FeatureData.name feature_data),
    (FeatureData.description feature_data), (FeatureData.steps feature_data);
    split; intros H; try discriminate H; try reflexivity;
    try (repeat split; eexists; reflexivity);
    destruct H as ([? H1] & [? H2] & [? H3] & [? H4]); discriminate.
Qed.

(** The loop of [feature_create_bulk] stops at the first element that
    lacks a required key, with the index of that element. *)
Lemma create_rows_missing start_priority first_id label batch :
  forall (i k : nat) feature_data,
    batch !! k = Some feature_data ->
    required_fields_presentb feature_data = false ->
    (forall (j : nat) fd, (j < k)%nat -> batch !! j = Some fd ->
                          required_fields_presentb fd = true) ->
    create_rows start_priority first_id label i batch
    = Failure (MissingRequiredFields (i + k)).
Proof.
  induction batch as [|fd rest IH]; intros i k feature_data Hk Hbad Hgood.
  - discriminate Hk.
  - cbn [create_rows]. destruct k as [|k].
    + cbn in Hk. inversion Hk; subst fd. rewrite Nat.add_0_r.
      unfold required_fields_presentb in Hbad.
      destruct (FeatureData.category feature_data),
        (FeatureData.name feature_data), (FeatureData.description feature_data),
        (FeatureData.steps feature_data); try reflexivity; discriminate Hbad.
    + cbn in Hk.
      assert (Hfd : required_fields_presentb fd = true).
      { apply (Hgood 0%nat fd); [lia|reflexivity]. }
      unfold required_fields_presentb in Hfd.
      destruct (FeatureData.category fd), (FeatureData.name fd),
        (FeatureData.description fd), (FeatureData.steps fd);
        try discriminate Hfd.
      rewrite (IH (S i) k feature_data Hk Hbad).
      * f_equal. f_equal. lia.
      * intros j fd' Hj Hfd'. apply (Hgood (S j) fd'); [lia|exact Hfd'].
Qed.

(** X3. [feature_create_bulk] creates all the features of a batch or none:
    when some element lacks a required key, the answer is the error for
    the first such element, and the database is left as it was, whatever
    the elements before it. *)
Theorem feature_create_bulk_all_or_nothing
    (batch : list FeatureData.t) (label : option string) (d : db)
    (k : nat) (feature_data : FeatureData.t) :
  batch !! k = Some feature_data ->
  ~ required_fields_present feature_data ->
  (forall (j : nat) fd, (j < k)%nat -> batch !! j = Some fd ->
                        required_fields_present fd) ->
  feature_create_bulk batch label d = (Failure (MissingRequiredFields k), d).
Proof.
  intros Hk Hbad Hgood. unfold feature_create_bulk.
  rewrite (create_rows_missing _ _ _ batch 0 k feature_data Hk); [reflexivity| |].
  - destruct (required_fields_presentb feature_data) eqn:E; [|reflexivity].
    exfalso. apply Hbad. now apply required_fields_presentb_spec.
  - intros j fd Hj Hfd. apply required_fields_presentb_spec. eauto.
Qed.

Lemma feature_create_bulk_all_or_nothing_witness :
  feature_create_bulk broken_batch None sample_db
  = (Failure (MissingRequiredFields 1), sample_db).
Proof.
  apply (feature_create_bulk_all_or_nothing broken_batch None sample_db 1
           (FeatureData.mk None (Some "ui") (Some "menu") (Some "add a menu") None)).
  - reflexivity.
  - intros (_ & _ & _ & [x Hx]). discriminate Hx.
  - intros j fd Hj Hfd. destruct j as [|j]; [|lia].
    inversion Hfd; subst fd. repeat split; eexists; reflexivity.
Defined.

(** X4. [feature_create] does what [feature_create_bulk] does for a batch
    of that one feature and no label: the same row is appended, and it is
    the row the tool answers with. *)
Theorem feature_create_as_bulk
    (category name description : string) (steps : list string) (type : string)
    (d : db) :
  exists f,
    feature_create category name description steps type d
    = (Success f, mkdb (features d ++ [f]) (step_progress d))
    /\ feature_create_bulk
         [single_feature_data category name description steps type] None d
       = (Success (1%nat, None), mkdb (features d ++ [f]) (step_progress d))
    /\ Feature.priority f
       = next_priority (features d) - (if String.eqb type "bug" then 500 else 0)
    /\ Feature.passes f = false /\ Feature.in_progress f = false
    /\ Feature.assigned_agent_id f = None /\ Feature.label f = None.
Proof.
  eexists. split; [reflexivity|]. split.
  - unfold feature_create_bulk, single_feature_data. cbn [create_rows
      FeatureData.category FeatureData.name FeatureData.description
      FeatureData.steps FeatureData.type default length].
    change (Z.of_nat 0) with 0. rewrite !Z.add_0_r. reflexivity.
  - cbn [Feature.priority Feature.passes Feature.in_progress
         Feature.assigned_agent_id Feature.label].
    split; [|repeat split]. destruct (String.eqb type "bug"); lia.
Qed.

Lemma next_id_above rows g : In g rows -> Feature.id g < next_id rows.
Proof.
  unfold next_id. induction rows as [|r rs IH]; [intros []|].
  cbn [fold_right]. intros [->|H]; [lia|]. specialize (IH H). lia.
Qed.

Lemma max_priority_attained rows m :
  max_priority rows = Some m -> exists g, In g rows /\ Feature.priority g = m.
Proof.
  revert m. induction rows as [|r rs IH]; intros m H; [discriminate H|].
  cbn [max_priority] in H. destruct (max_priority rs) as [m'|] eqn:E.
  - inversion H; subst m. destruct (IH m' eq_refl) as (g & Hg & Hp).
    destruct (Z.max_spec (Feature.priority r) m') as [[_ ->]|[_ ->]].
    + exists g. split; [now right|exact Hp].
    + exists r. split; [now left|reflexivity].
  - inversion H; subst m. exists r. split; [now left|reflexivity].
Qed.

(** X5. A bug created by [feature_create] on a table whose highest priority
    is [m] gets priority [m - 499], and sorts before exactly the items whose
    priority is above [m - 499]: it goes ahead of the item with the highest
    priority, but not ahead of an item whose priority is 499 or more below
    the highest. *)
Theorem feature_create_bug_position
    (category name description : string) (steps : list string) (d : db) (m : Z) :
  max_priority (features d) = Some m ->
  exists f d',
    feature_create category name description steps "bug" d = (Success f, d')
    /\ Feature.priority f = m - 499
    /\ (forall g, In g (features d) ->
          (sorts_before f g = true <-> m - 499 < Feature.priority g))
    /\ (exists g, In g (features d) /\ sorts_before f g = true).
Proof.
  intros Hm. eexists _, _. split; [reflexivity|].
  cbn [Feature.priority]. unfold next_priority. rewrite Hm.
  change (String.eqb "bug" "bug") with true. cbv iota.
  split; [lia|]. split.
  - intros g Hg. pose proof (next_id_above _ _ Hg) as Hid.
    unfold sorts_before. cbn [Feature.priority Feature.id].
    rewrite orb_true_iff, andb_true_iff, !Z.ltb_lt, Z.eqb_eq. lia.
  - destruct (max_priority_attained _ _ Hm) as (g & Hg & Hp).
    exists g. split; [exact Hg|].
    unfold sorts_before. cbn [Feature.priority Feature.id].
    rewrite orb_true_iff, Z.ltb_lt. left. lia.
Qed.

Lemma feature_create_bug_position_witness :
  exists f d',
    feature_create "ui" "crash" "fix the crash" ["reproduce"; "fix"] "bug" sample_db
    = (Success f, d')
    /\ Feature.priority f = 7 - 499
    /\ (forall g, In g (features sample_db) ->
          (sorts_before f g = true <-> 7 - 499 < Feature.priority g))
    /\ (exists g, In g (features sample_db) /\ sorts_before f g = true).
Proof.
  exact (feature_create_bug_position "ui" "crash" "fix the crash"
           ["reproduce"; "fix"] sample_db 7 eq_refl).
Defined.

(** The first row of a query is not changed by rows added after it that do
    not come before any row of the query. *)
Lemma order_first_app q added f :
  order_first q = Some f ->
  (forall x y, In x q -> In y added -> sorts_before y x = false) ->
  order_first (q ++ added) = Some f.
Proof.
  revert f. induction q as [|r rs IH]; intros f Hf Hlate; [discriminate Hf|].
  cbn [app order_first] in *.
  destruct (order_first rs) as [b|] eqn:Eb.
  - rewrite (IH b eq_refl); [exact Hf|].
    intros x y Hx Hy. apply Hlate; [now right|exact Hy].
  - apply order_first_None in Eb. subst rs. cbn [app].
    destruct (order_first added) as [y|] eqn:Ey; [|exact Hf].
    apply order_first_In in Ey.
    now rewrite (Hlate r y (or_introl eq_refl) Ey).
Qed.

Lemma create_rows_priorities start_priority first_id label batch :
  forall i rows,
    create_rows start_priority first_id label i batch = Success rows ->
    Forall (fun fd => defect_boost fd = 0) batch ->
    Forall (fun f => start_priority <= Feature.priority f) rows.
Proof.
  induction batch as [|fd rest IH]; intros i rows H Hplain; cbn [create_rows] in H.
  - inversion H. constructor.
  - apply List.Forall_cons_iff in Hplain as [Hfd Hrest].
    destruct (FeatureData.category fd), (FeatureData.name fd),
      (FeatureData.description fd), (FeatureData.steps fd); try discriminate H.
    destruct (create_rows _ _ _ (S i) rest) as [rows'|e] eqn:E; [|discriminate H].
    inversion H; subst rows. constructor; [|now apply (IH (S i))].
    cbn [Feature.priority]. unfold defect_boost in Hfd.
    destruct (String.eqb _ "bug"); [discriminate Hfd|lia].
Qed.

(** X6. Features created by [feature_create_bulk] without a bug among them
    go to the end of the queue: the item [feature_claim_next] gives an agent
    is the same after the batch as before it. *)
Theorem feature_create_bulk_keeps_next
    (batch : list FeatureData.t) (label : option string) (agent_id : string)
    (d d1 : db) (f : Feature.t) :
  Forall (fun fd => defect_boost fd = 0) batch ->
  feature_claim_next agent_id d = (Success f, d1) ->
  exists d2,
    feature_claim_next agent_id (snd (feature_create_bulk batch label d))
    = (Success f, d2).
Proof.
  intros Hplain Hclaim. unfold feature_create_bulk.
  destruct (create_rows _ _ _ _ _) as [rows|e] eqn:E; cbn [snd]; [|eauto].
  unfold feature_claim_next in *. cbn [features].
  destruct (order_first _) as [g|] eqn:Hsel; [|discriminate Hclaim].
  rewrite !List.filter_app.
  rewrite (order_first_app _ _ g Hsel).
  - inversion Hclaim; subst. eauto.
  - intros x y Hx Hy.
    apply filter_In in Hx as [Hx _]. apply filter_In in Hx as [Hx _].
    apply filter_In in Hy as [Hy _]. apply filter_In in Hy as [Hy _].
    pose proof (next_priority_above _ _ Hx) as Hpx.
    pose proof (create_rows_priorities _ _ _ _ _ _ E Hplain) as Hnew.
    rewrite List.Forall_forall in Hnew. specialize (Hnew y Hy).
    unfold sorts_before.
    rewrite orb_false_iff, andb_false_iff, Z.ltb_ge, Z.eqb_neq. lia.
Qed.

Lemma feature_create_bulk_keeps_next_witness :
  exists d2,
    feature_claim_next "b"
      (snd (feature_create_bulk (firstn 1 sample_batch) None sample_db))
    = (Success (sample_feature 2 7 false true (Some "b")), d2).
Proof.
  apply (feature_create_bulk_keeps_next (firstn 1 sample_batch) None "b"
           sample_db (snd (feature_claim_next "b" sample_db))).
  - repeat constructor.
  - reflexivity.
Defined.

(** ** Claims, releases and completions in sequence *)

(** With a primary key, two rows of the table with the same id are one. *)
Lemma primary_key_unique rows f g :
  List.NoDup (map Feature.id rows) -> In f rows -> In g rows ->
  Feature.id f = Feature.id g -> f = g.
Proof.
  intros Hnd Hf Hg Hid.
  pose proof (get_feature_unique rows f Hnd Hf) as H1.
  pose proof (get_feature_unique rows g Hnd Hg) as H2.
  rewrite Hid in H1. congruence.
Qed.

(** With a primary key, a commit changes the row with the id and no other. *)
Lemma commit_feature_map f' rows :
  List.NoDup (map Feature.id rows) ->
  commit_feature f' rows
  = map (fun r => if Feature.id r =? Feature.id f' then f' else r) rows.
Proof.
  intros Hnd. induction rows as [|r rs IH]; [reflexivity|].
  cbn [map] in Hnd. apply List.NoDup_cons_iff in Hnd as [Hr Hnd].
  cbn [commit_feature map].
  destruct (Feature.id r =? Feature.id f') eqn:E; [|now rewrite IH].
  f_equal. apply Z.eqb_eq in E. clear IH.
  induction rs as [|x xs IHx]; [reflexivity|]. cbn [map].
  destruct (Feature.id x =? Feature.id f') eqn:Ex.
  - exfalso. apply Hr. left. apply Z.eqb_eq in Ex. congruence.
  - f_equal. apply IHx.
    + intros H. apply Hr. now right.
    + cbn [map] in Hnd. now apply List.NoDup_cons_iff in Hnd.
Qed.

Lemma filter_map_commute {A : Type} (P : A -> bool) (g : A -> A) l :
  (forall x, In x l -> P (g x) = P x) ->
  List.filter P (map g l) = map g (List.filter P l).
Proof.
  induction l as [|a l IH]; intros H; [reflexivity|].
  cbn [map List.filter]. rewrite (H a (or_introl eq_refl)).
  rewrite IH by (intros x Hx; apply H; now right).
  now destruct (P a).
Qed.

Lemma order_first_map (g : Feature.t -> Feature.t) l :
  (forall x, In x l -> Feature.priority (g x) = Feature.priority x
                       /\ Feature.id (g x) = Feature.id x) ->
  order_first (map g l) = option_map g (order_first l).
Proof.
  induction l as [|r rs IH]; intros H; [reflexivity|].
  cbn [map order_first].
  rewrite IH by (intros x Hx; apply H; now right).
  destruct (order_first rs) as [b|] eqn:Eb; cbn [option_map]; [|reflexivity].
  assert (Hs : sorts_before (g b) (g r) = sorts_before b r).
  { apply order_first_In in Eb.
    destruct (H b (or_intror Eb)) as [H1 H2].
    destruct (H r (or_introl eq_refl)) as [H3 H4].
    unfold sorts_before. now rewrite H1, H2, H3, H4. }
  rewrite Hs. now destruct (sorts_before b r).
Qed.

(** The table after a successful [feature_claim_next]. *)
Lemma feature_claim_next_inv agent_id d f' d' :
  feature_claim_next agent_id d = (Success f', d') ->
  exists f,
    next_claimable agent_id (features d) f
    /\ order_first (List.filter (claimable agent_id)
         (List.filter (fun f => negb (Feature.passes f)) (features d))) = Some f
    /\ f' = claimed_by agent_id f
    /\ d' = mkdb (commit_feature f' (features d)) (step_progress d).
Proof.
  unfold feature_claim_next. intros H.
  destruct (order_first _) as [f|] eqn:Hsel; [|discriminate H].
  inversion H; subst. exists f. split; [now apply claim_query_first|].
  repeat split.
Qed.

(** X7. With a primary key on the table, [feature_claim_next] is
    idempotent for an agent: a second call by the agent that has just been
    given an item answers with the same item and writes nothing new, so an
    agent never holds two items through repeated claims. *)
Theorem feature_claim_next_twice (agent_id : string) (d d' : db) (f' : Feature.t) :
  primary_key d ->
  feature_claim_next agent_id d = (Success f', d') ->
  feature_claim_next agent_id d' = (Success f', d').
Proof.
  intros Hpk Hclaim.
  destruct (feature_claim_next_inv _ _ _ _ Hclaim)
    as (f & (Hin & Hp & Hav & _) & Hsel & -> & ->).
  unfold feature_claim_next. cbn [features step_progress].
  set (f' := claimed_by agent_id f).
  rewrite (commit_feature_map f' _ Hpk).
  set (g := fun r => if Feature.id r =? Feature.id f' then f' else r).
  assert (Hg : forall x, In x (features d) -> g x = x \/ (x = f /\ g x = f')).
  { intros x Hx. unfold g. destruct (Feature.id x =? Feature.id f') eqn:E;
      [|now left]. right. split; [|reflexivity].
    apply Z.eqb_eq in E. now apply (primary_key_unique (features d)). }
  rewrite (filter_map_commute (fun f => negb (Feature.passes f)) g).
  2:{ intros x Hx. destruct (Hg x Hx) as [->|[-> ->]]; reflexivity. }
  rewrite (filter_map_commute (claimable agent_id) g).
  2:{ intros x Hx. apply filter_In in Hx as [Hx _].
      destruct (Hg x Hx) as [->|[-> ->]]; [reflexivity|].
      apply claimable_available in Hav. rewrite Hav.
      unfold claimable, f'. cbn. apply String.eqb_refl. }
  rewrite order_first_map.
  2:{ intros x Hx. apply filter_In in Hx as [Hx _]. apply filter_In in Hx as [Hx _].
      destruct (Hg x Hx) as [->|[-> ->]]; split; reflexivity. }
  rewrite Hsel. cbn [option_map].
  assert (Hgf : g f = f') by (unfold g; now rewrite Z.eqb_refl).
  rewrite Hgf.
  assert (Hsame : Feature.with_assigned_agent_id (Some agent_id)
                    (Feature.with_in_progress true f') = f') by reflexivity.
  rewrite Hsame. subst g. cbv beta. rewrite <- (commit_feature_map f' _ Hpk).
  now rewrite commit_feature_again.
Qed.

Lemma feature_claim_next_twice_witness :
  feature_claim_next "b" (snd (feature_claim_next "b" sample_db))
  = (Success (sample_feature 2 7 false true (Some "b")),
     snd (feature_claim_next "b" sample_db)).
Proof.
  apply (feature_claim_next_twice "b" sample_db).
  - unfold primary_key. cbn. repeat constructor; cbn; intuition discriminate.
  - reflexivity.
Defined.

(** X8. With a primary key on the table, an agent that holds nothing, claims
    an item and releases it under its own name leaves the database exactly
    as it was before the claim. *)
Theorem feature_claim_then_release
    (agent_id : string) (d d' : db) (f' : Feature.t) :
  primary_key d ->
  agent_id <> "" ->
  (forall g, In g (features d) -> Feature.assigned_agent_id g <> Some agent_id) ->
  feature_claim_next agent_id d = (Success f', d') ->
  exists f,
    In f (features d) /\ f' = claimed_by agent_id f
    /\ feature_release (Feature.id f') agent_id d' = (Success f, d).
Proof.
  intros Hpk Hagent Hnew Hclaim.
  destruct (feature_claim_next_inv _ _ _ _ Hclaim)
    as (f & (Hin & Hp & Hav & _) & _ & -> & ->).
  exists f. split; [exact Hin|]. split; [reflexivity|].
  destruct Hav as [Hmine|[Hip Hnone]]; [now apply Hnew in Hmine|].
  unfold feature_release. cbn [features step_progress].
  rewrite (get_commit_feature (Feature.id f) (features d) f);
    [|now apply get_feature_unique|reflexivity].
  change (Feature.assigned_agent_id (claimed_by agent_id f)) with (Some agent_id).
  cbn [truthy_opt opt_string_neqb].
  rewrite String.eqb_refl. cbn [negb]. rewrite !andb_false_r.
  assert (Hback : Feature.with_assigned_agent_id None
                    (Feature.with_in_progress false (claimed_by agent_id f)) = f).
  { destruct f; cbn in *; subst; reflexivity. }
  rewrite Hback, commit_feature_again by reflexivity.
  rewrite commit_feature_self by now apply get_feature_unique.
  now destruct d.
Qed.

Lemma feature_claim_then_release_witness :
  exists f,
    In f (features sample_db)
    /\ sample_feature 2 7 false true (Some "b") = claimed_by "b" f
    /\ feature_release
         (Feature.id (sample_feature 2 7 false true (Some "b"))) "b"
         (snd (feature_claim_next "b" sample_db))
       = (Success f, sample_db).
Proof.
  apply (feature_claim_then_release "b" sample_db).
  - unfold primary_key. cbn. repeat constructor; cbn; intuition discriminate.
  - discriminate.
  - cbn. intros g [<-|[<-|[<-|[]]]]; discriminate.
  - reflexivity.
Defined.

(** X9. With a primary key on the table and no item in progress without an
    assigned agent, [feature_get_next] called with an agent identifier does
    what [feature_claim_next] does: the same answer and the same database,
    or an error of kind "not available" where [feature_claim_next] has
    one. *)
Theorem feature_get_next_as_claim_next
    (env_agent_id agent_id : string) (d : db) :
  primary_key d ->
  agent_id <> "" ->
  (forall g, In g (features d) -> Feature.passes g = false ->
             Feature.in_progress g = true -> Feature.assigned_agent_id g <> None) ->
  match feature_claim_next agent_id d with
  | (Success f', d') =>
      feature_get_next env_agent_id agent_id d = (Success f', d')
  | (Failure _, _) =>
      exists e, feature_get_next env_agent_id agent_id d = (Failure e, d)
                /\ kind_of e = NotAvailable
  end.
Proof.
  intros Hpk Hagent Hanon.
  unfold feature_get_next, feature_claim_next. cbv zeta.
  rewrite (truthy_true _ Hagent). cbv iota. rewrite (truthy_true _ Hagent).
  assert (Hq : List.filter (unassigned_or_mine agent_id)
                 (List.filter (fun f => negb (Feature.passes f)) (features d))
               = List.filter (claimable agent_id)
                   (List.filter (fun f => negb (Feature.passes f)) (features d))).
  { apply filter_ext_in. intros g Hg. apply filter_In in Hg as [Hg Hp].
    apply negb_true_iff in Hp. specialize (Hanon g Hg Hp).
    unfold unassigned_or_mine, claimable.
    destruct (Feature.assigned_agent_id g); [reflexivity|].
    destruct (Feature.in_progress g); [|reflexivity].
    exfalso. now apply Hanon. }
  rewrite Hq. destruct (order_first _) as [f|] eqn:Hsel.
  - cbn [andb]. destruct (Feature.in_progress f) eqn:Hip; cbn [negb];
      [|reflexivity].
    apply claim_query_first in Hsel as (Hin & Hp & Hav & _).
    assert (Hmine : Feature.assigned_agent_id f = Some agent_id).
    { destruct Hav as [H|[H _]]; [exact H|congruence]. }
    assert (Hsame : Feature.with_assigned_agent_id (Some agent_id)
                      (Feature.with_in_progress true f) = f).
    { destruct f; cbn in *; subst; reflexivity. }
    rewrite Hsame, commit_feature_self by now apply get_feature_unique.
    now destruct d.
  - eexists. split; reflexivity.
Qed.

Lemma feature_get_next_as_claim_next_witness :
  feature_get_next "" "b" sample_db
  = (Success (sample_feature 2 7 false true (Some "b")),
     snd (feature_claim_next "b" sample_db)).
Proof.
  apply (feature_get_next_as_claim_next "" "b" sample_db).
  - unfold primary_key. cbn. repeat constructor; cbn; intuition discriminate.
  - discriminate.
  - cbn. intros g [<-|[<-|[<-|[]]]]; cbn; congruence.
Defined.

(** With a primary key, the row of the table after a commit that has the
    id of the committed row is the committed row. *)
Lemma commit_feature_row rows f' s :
  List.NoDup (map Feature.id rows) ->
  In s (commit_feature f' rows) -> Feature.id s = Feature.id f' ->
  (exists f, In f rows /\ Feature.id f = Feature.id f') -> s = f'.
Proof.
  intros Hnd Hs Hid (f & Hf & Hfid).
  rewrite (commit_feature_map f' rows Hnd) in Hs.
  apply List.in_map_iff in Hs as (r & Hr & _).
  destruct (Feature.id r =? Feature.id f') eqn:E; [now symmetry|].
  subst s. apply Z.eqb_neq in E. contradiction.
Qed.

(** A committed row that passes when it has the identifier keeps the
    identifier settled. *)
Lemma settled_commit feature_id d f' steps :
  settled feature_id d ->
  (Feature.id f' = feature_id -> Feature.passes f' = true) ->
  settled feature_id (mkdb (commit_feature f' (features d)) steps).
Proof.
  intros [Hin Hall] Hf'. split; cbn [features].
  - now rewrite commit_feature_ids.
  - intros s Hs Hid. apply In_commit_feature in Hs as [->|Hs]; auto.
Qed.

Lemma settled_append feature_id d rows steps :
  settled feature_id d ->
  Forall (fun r => next_id (features d) <= Feature.id r) rows ->
  settled feature_id (mkdb (features d ++ rows) steps).
Proof.
  intros [Hin Hall] Hrows. split; cbn [features].
  - rewrite List.map_app. apply List.in_or_app. now left.
  - intros s Hs Hid. apply List.in_app_or in Hs as [Hs|Hs]; [now apply Hall|].
    rewrite List.Forall_forall in Hrows. specialize (Hrows s Hs).
    apply List.in_map_iff in Hin as (g & Hg & Hgin).
    pose proof (next_id_above _ _ Hgin). lia.
Qed.

Lemma create_rows_ids start_priority first_id label batch :
  forall i rows,
    create_rows start_priority first_id label i batch = Success rows ->
    Forall (fun f => first_id <= Feature.id f) rows.
Proof.
  induction batch as [|fd rest IH]; intros i rows H; cbn [create_rows] in H.
  - inversion H. constructor.
  - destruct (FeatureData.category fd), (FeatureData.name fd),
      (FeatureData.description fd), (FeatureData.steps fd); try discriminate H.
    destruct (create_rows _ _ _ (S i) rest) as [rows'|e] eqn:E; [|discriminate H].
    inversion H; subst rows. constructor; [cbn; lia|]. now apply (IH (S i)).
Qed.

Lemma settled_not_open feature_id d s :
  settled feature_id d ->
  In s (List.filter (fun f => negb (Feature.passes f)) (features d)) ->
  Feature.id s <> feature_id.
Proof.
  intros [_ Hall] Hs Hid. apply List.filter_In in Hs as [Hs Hp].
  apply negb_true_iff in Hp. rewrite (Hall s Hs Hid) in Hp. discriminate Hp.
Qed.

(** A row the queries for the next item return is not the settled one. *)
Lemma settled_not_selected feature_id d (P : Feature.t -> bool) s :
  settled feature_id d ->
  In s (List.filter P (List.filter (fun f => negb (Feature.passes f)) (features d))) ->
  Feature.id s <> feature_id.
Proof.
  intros [_ Hall] Hs Hid. apply List.filter_In in Hs as [Hs _].
  apply List.filter_In in Hs as [Hs Hp]. apply negb_true_iff in Hp.
  rewrite (Hall s Hs Hid) in Hp. discriminate Hp.
Qed.

(** No tool takes a settled identifier back into the queue. *)
Lemma settled_run_tool feature_id c d :
  settled feature_id d -> settled feature_id (run_tool c d).
Proof.
  intros Hs. pose proof Hs as [Hin Hall].
  assert (Hrow : forall fid f, get_feature fid (features d) = Some f ->
                   Feature.id f = feature_id -> Feature.passes f = true).
  { intros fid f Hget Hid. apply get_feature_In in Hget as [Hf _]. auto. }
  destruct c; cbn [run_tool].
  - unfold feature_get_next. cbv zeta.
    set (a := if truthy agent_id then agent_id else env_agent_id).
    destruct (order_first _) as [f|] eqn:Hsel; [|exact Hs].
    destruct (truthy a && negb (Feature.in_progress f)); [|exact Hs].
    cbn [snd]. apply settled_commit; [exact Hs|]. cbn. intros Hid. exfalso.
    apply order_first_In in Hsel. revert Hid.
    destruct (truthy a).
    + now apply (settled_not_selected feature_id d (unassigned_or_mine a)).
    + now apply (settled_not_open feature_id d).
  - unfold feature_mark_passing.
    destruct (get_feature _ _) as [f|] eqn:Hget; [|exact Hs].
    cbn [snd]. now apply settled_commit.
  - unfold feature_skip.
    destruct (get_feature _ _) as [f|] eqn:Hget; [|exact Hs].
    destruct (Feature.passes f) eqn:Hp; [exact Hs|].
    cbn [snd]. apply settled_commit; [exact Hs|]. cbn. intros Hid.
    rewrite (Hrow _ _ Hget Hid) in Hp. discriminate Hp.
  - unfold feature_mark_in_progress.
    destruct (get_feature _ _) as [f|] eqn:Hget; [|exact Hs].
    destruct (Feature.passes f) eqn:Hp; [exact Hs|].
    destruct (_ && _); [exact Hs|].
    cbn [snd]. apply settled_commit; [exact Hs|]. intros Hid.
    assert (Hid' : Feature.id f = feature_id)
      by (destruct (truthy agent_id); exact Hid).
    rewrite (Hrow _ _ Hget Hid') in Hp. discriminate Hp.
  - unfold feature_clear_in_progress.
    destruct (get_feature _ _) as [f|] eqn:Hget; [|exact Hs].
    cbn [snd]. apply settled_commit; [exact Hs|]. cbn. now apply (Hrow feature_id0).
  - unfold feature_claim_next. cbv zeta.
    destruct (order_first _) as [f|] eqn:Hsel; [|exact Hs].
    cbn [snd]. apply settled_commit; [exact Hs|]. cbn. intros Hid. exfalso.
    apply order_first_In in Hsel. revert Hid.
    now apply (settled_not_selected feature_id d (claimable agent_id)).
  - unfold feature_release.
    destruct (get_feature _ _) as [f|] eqn:Hget; [|exact Hs].
    destruct (_ && _); [exact Hs|].
    cbn [snd]. apply settled_commit; [exact Hs|]. cbn. now apply (Hrow feature_id0).
  - unfold feature_create_bulk.
    destruct (create_rows _ _ _ _ _) as [rows|e] eqn:E; [|exact Hs].
    cbn [snd]. apply settled_append; [exact Hs|].
    now apply create_rows_ids in E.
  - unfold feature_create. cbn [snd]. apply settled_append; [exact Hs|].
    constructor; [cbn; lia|constructor].
  - unfold feature_update.
    destruct (get_feature _ _) as [f|] eqn:Hget; [|exact Hs].
    cbn [snd]. apply settled_commit; [exact Hs|].
    unfold apply_updates. cbn. now apply (Hrow feature_id0).
Qed.

Lemma settled_run_tools feature_id cs d :
  settled feature_id d -> settled feature_id (run_tools cs d).
Proof.
  revert d. induction cs as [|c cs IH]; intros d Hs; [exact Hs|].
  cbn [run_tools fold_left]. apply IH. now apply settled_run_tool.
Qed.



(** X11. With a primary key on the table, a skipped item is at the end of
    the queue: as long as some other item is available to an agent, the
    next claim of that agent is not the skipped item. *)
Theorem feature_skip_moves_to_end
    (feature_id : Z) (agent_id : string) (d d1 d2 : db)
    (details : skip_details) (g f' : Feature.t) :
  primary_key d ->
  feature_skip feature_id d = (Success details, d1) ->
  In g (features d) -> Feature.id g <> feature_id ->
  Feature.passes g = false -> available_to agent_id g ->
  feature_claim_next agent_id d1 = (Success f', d2) ->
  Feature.id f' <> feature_id.
Proof.
  intros Hpk Hskip Hg Hgid Hgp Hga Hclaim.
  unfold feature_skip in Hskip.
  destruct (get_feature feature_id (features d)) as [f|] eqn:Hget;
    [|discriminate Hskip].
  destruct (Feature.passes f); [discriminate Hskip|].
  inversion Hskip; subst d1; clear Hskip.
  set (f1 := Feature.with_in_progress false
               (Feature.with_priority (next_priority (features d)) f)) in *.
  apply get_feature_In in Hget as [Hfin Hfid].
  destruct (feature_claim_next_inv _ _ _ _ Hclaim)
    as (s & (Hin & Hp & Hav & Hmin) & _ & -> & _).
  cbn [features] in *. cbn.
  intros Hid.
  assert (s = f1).
  { apply (commit_feature_row (features d)); try assumption.
    - cbn. congruence.
    - exists f. split; [exact Hfin|reflexivity]. }
  subst s.
  assert (Hg1 : In g (commit_feature f1 (features d))).
  { apply commit_feature_other; [exact Hg|]. cbn. congruence. }
  specialize (Hmin g Hg1 Hgp Hga).
  pose proof (next_priority_above _ _ Hg) as Hlt.
  unfold ordered_le in Hmin. cbn in Hmin. lia.
Qed.

Lemma feature_skip_moves_to_end_witness :
  Feature.id (sample_feature 2 7 false true (Some "a")) <> 1.
Proof.
  apply (feature_skip_moves_to_end 1 "a" sample_db
           (snd (feature_skip 1 sample_db))
           (snd (feature_claim_next "a" (snd (feature_skip 1 sample_db))))
           (mk_skip 1 "item" 1 8)
           (sample_feature 2 7 false false None)).
  - unfold primary_key. cbn. repeat constructor; cbn; intuition discriminate.
  - reflexivity.
  - cbn. tauto.
  - discriminate.
  - reflexivity.
  - right. split; reflexivity.
  - reflexivity.
Defined.

(** ** Editing a feature *)

Lemma commit_feature_queue_state f f' rows :
  get_feature (Feature.id f') rows = Some f ->
  queue_state f' = queue_state f ->
  map queue_state (commit_feature f' rows) = map queue_state rows.
Proof.
  intros Hget Hq. induction rows as [|r rs IH]; [reflexivity|].
  rewrite get_feature_first in Hget. cbn [commit_feature].
  destruct (Feature.id r =? Feature.id f'); cbn [map].
  - inversion Hget; subst r. now rewrite Hq.
  - now rewrite IH.
Qed.

(** The item the queue gives an agent depends on the queue columns only. *)
Lemma claim_query_queue_state agent_id rows1 :
  forall rows2,
    map queue_state rows1 = map queue_state rows2 ->
    option_map queue_state
      (order_first (List.filter (claimable agent_id)
         (List.filter (fun f => negb (Feature.passes f)) rows1)))
    = option_map queue_state
        (order_first (List.filter (claimable agent_id)
           (List.filter (fun f => negb (Feature.passes f)) rows2))).
Proof.
  induction rows1 as [|r1 rs1 IH]; intros [|r2 rs2] Hmap; try discriminate Hmap;
    [reflexivity|].
  cbn [map] in Hmap. inversion Hmap as [[Hid Hpr Hp Hip Ha Hrest]].
  specialize (IH rs2 Hrest). cbn [List.filter]. rewrite Hp.
  destruct (negb (Feature.passes r2)); [|exact IH].
  cbn [List.filter].
  assert (Hc : claimable agent_id r1 = claimable agent_id r2)
    by (unfold claimable; now rewrite Ha, Hip).
  rewrite Hc. destruct (claimable agent_id r2); [|exact IH].
  cbn [order_first].
  destruct (order_first (List.filter _ (List.filter _ rs1))) as [b1|],
    (order_first (List.filter _ (List.filter _ rs2))) as [b2|];
    cbn [option_map] in *; try discriminate IH.
  - inversion IH as [[Hbid Hbpr Hbp Hbip Hba]].
    assert (Hs : sorts_before b1 r1 = sorts_before b2 r2)
      by (unfold sorts_before; now rewrite Hid, Hpr, Hbid, Hbpr).
    rewrite Hs. destruct (sorts_before b2 r2); cbn [option_map]; f_equal;
      unfold queue_state; congruence.
  - f_equal. unfold queue_state. congruence.
Qed.

(** X12. [feature_update] edits the texts of a feature and nothing the
    queue is run by: identifiers, priorities and the passing, in-progress
    and assignment columns of all rows are as before, the step table is
    untouched, and the item the next [feature_claim_next] gives an agent
    has the same identifier as it would have had without the edit. *)
Theorem feature_update_keeps_queue
    (feature_id : Z) (category name description : option string)
    (steps : option (list string)) (d : db) :
  let d' := snd (feature_update feature_id category name description steps d) in
  map queue_state (features d') = map queue_state (features d)
  /\ step_progress d' = step_progress d
  /\ forall agent_id,
       match fst (feature_claim_next agent_id d),
             fst (feature_claim_next agent_id d') with
       | Success f1, Success f2 => Feature.id f1 = Feature.id f2
       | Failure _, Failure _ => True
       | _, _ => False
       end.
Proof.
  cbv zeta.
  assert (Hmap : map queue_state
            (features (snd (feature_update feature_id category name description
                              steps d)))
          = map queue_state (features d)).
  { unfold feature_update.
    destruct (get_feature feature_id (features d)) as [f|] eqn:Hget;
      [|reflexivity].
    cbn [snd features]. apply (commit_feature_queue_state f); [|reflexivity].
    cbn. apply get_feature_In in Hget as Hf. destruct Hf as [_ ->]. exact Hget. }
  split; [exact Hmap|]. split.
  - unfold feature_update. now destruct (get_feature feature_id (features d)).
  - intros agent_id.
    pose proof (claim_query_queue_state agent_id _ _ (eq_sym Hmap)) as Hsel.
    unfold feature_claim_next.
    destruct (order_first (List.filter (claimable agent_id)
               (List.filter (fun f => negb (Feature.passes f)) (features d))))
      as [s1|];
    destruct (order_first _) as [s2|]; cbn [option_map fst] in *;
      try discriminate Hsel; [|exact I].
    inversion Hsel. cbn. assumption.
Qed.

(** ** Marking an item in progress *)

(** X13. [feature_mark_in_progress] refuses a passing item and an item that
    is in progress for another agent, both with an error of kind
    [Conflict] and nothing written; it raises no conflict for an item that
    is not in progress, even when the item is still assigned to another
    agent: the caller then takes the item over. *)
Theorem feature_mark_in_progress_conflicts
    (feature_id : Z) (agent_id : string) (d : db) (f : Feature.t) :
  get_feature feature_id (features d) = Some f ->
  agent_id <> "" ->
  (Feature.passes f = true ->
     feature_mark_in_progress feature_id agent_id d
     = (Failure (AlreadyPassing feature_id), d))
  /\ (forall h,
        Feature.passes f = false -> Feature.in_progress f = true ->
        Feature.assigned_agent_id f = Some h -> h <> "" -> h <> agent_id ->
        feature_mark_in_progress feature_id agent_id d
        = (Failure (InProgressByAgent feature_id h), d)
        /\ kind_of (InProgressByAgent feature_id h) = Conflict)
  /\ (Feature.passes f = false -> Feature.in_progress f = false ->
      exists f' d',
        feature_mark_in_progress feature_id agent_id d = (Success f', d')
        /\ Feature.in_progress f' = true
        /\ Feature.assigned_agent_id f' = Some agent_id
        /\ get_feature feature_id (features d') = Some f').
Proof.
  intros Hget Hagent. unfold feature_mark_in_progress. rewrite Hget.
  rewrite (truthy_true _ Hagent). split; [|split].
  - now intros ->.
  - intros h Hp Hip Ha Hh Hne. rewrite Hp, Hip, Ha.
    cbn [truthy_opt opt_string_neqb default]. rewrite (truthy_true _ Hh).
    destruct (String.eqb h agent_id) eqn:E.
    + apply String.eqb_eq in E. contradiction.
    + split; reflexivity.
  - intros Hp Hip. rewrite Hp, Hip. cbn [andb].
    eexists _, _. split; [reflexivity|]. split; [reflexivity|].
    split; [reflexivity|]. cbn [features].
    eapply get_commit_feature; [exact Hget|].
    apply get_feature_In in Hget. cbn. tauto.
Qed.

Lemma feature_mark_in_progress_conflicts_witness :
  feature_mark_in_progress 1 "b" sample_db
  = (Failure (InProgressByAgent 1 "a"), sample_db)
  /\ kind_of (InProgressByAgent 1 "a") = Conflict.
Proof.
  destruct (feature_mark_in_progress_conflicts 1 "b" sample_db
              (sample_feature 1 1 false true (Some "a")) eq_refl)
    as (_ & H & _); [discriminate|].
  apply (H "a"); try reflexivity; discriminate.
Defined.

(** ** Steps *)

(** Committing a step record leaves it where [get_step] finds it. *)
Lemma get_commit_step feature_id step_index rows s s' :
  get_step feature_id step_index rows = Some s ->
  StepProgress.id s' = StepProgress.id s ->
  StepProgress.feature_id s' = feature_id ->
  StepProgress.step_index s' = step_index ->
  get_step feature_id step_index (commit_step s' rows) = Some s'.
Proof.
  intros Hget Hid Hf Hi. unfold get_step in *.
  induction rows as [|r rs IH]; [discriminate Hget|].
  cbn [List.find commit_step] in *.
  assert (Hs' : (StepProgress.feature_id s' =? feature_id)
                && (StepProgress.step_index s' =? step_index) = true).
  { rewrite Hf, Hi, !Z.eqb_refl. reflexivity. }
  destruct (StepProgress.id r =? StepProgress.id s') eqn:E.
  - cbn [List.find]. now rewrite Hs'.
  - cbn [List.find].
    destruct ((StepProgress.feature_id r =? feature_id)
              && (StepProgress.step_index r =? step_index)) eqn:Er.
    + inversion Hget; subst r. rewrite Hid, Z.eqb_refl in E. discriminate E.
    + now apply IH.
Qed.

(** X14. For a step that has a record, [feature_step_mark_started] at time
    [t1] followed by [feature_step_mark_completed] at time [t2] leaves the
    record started at [t1], completed at [t2] and marked completed; notes
    are stored when they are not empty, and the previous notes kept
    otherwise. *)
Theorem feature_step_started_then_completed
    (t1 t2 feature_id step_index : Z) (notes : option string) (d : db)
    (step : StepProgress.t) :
  get_step feature_id step_index (step_progress d) = Some step ->
  exists s1 d1 s2 d2,
    feature_step_mark_started t1 feature_id step_index d = (Success s1, d1)
    /\ feature_step_mark_completed t2 feature_id step_index notes d1
       = (Success s2, d2)
    /\ get_step feature_id step_index (step_progress d2) = Some s2
    /\ StepProgress.started_at s2 = Some t1
    /\ StepProgress.completed_at s2 = Some t2
    /\ StepProgress.completed s2 = true
    /\ StepProgress.step_text s2 = StepProgress.step_text step
    /\ StepProgress.notes s2
       = (if truthy_opt notes then notes else StepProgress.notes step)
    /\ features d2 = features d.
Proof.
  intros Hget. pose proof (get_step_In _ _ _ _ Hget) as (_ & Hf & Hi).
  set (s1 := StepProgress.with_started_at (Some t1) step).
  set (d1 := mkdb (features d) (commit_step s1 (step_progress d))).
  assert (Hget1 : get_step feature_id step_index (step_progress d1) = Some s1).
  { now apply (get_commit_step _ _ _ step). }
  set (s2 := StepProgress.mk (StepProgress.id s1) (StepProgress.feature_id s1)
               (StepProgress.step_index s1) (StepProgress.step_text s1)
               true (StepProgress.started_at s1) (Some t2)
               (if truthy_opt notes then notes else StepProgress.notes s1)).
  exists s1, d1, s2, (mkdb (features d1) (commit_step s2 (step_progress d1))).
  split. { unfold feature_step_mark_started. now rewrite Hget. }
  split. { unfold feature_step_mark_completed. now rewrite Hget1. }
  split. { cbn [step_progress]. now apply (get_commit_step _ _ _ s1). }
  repeat split.
Qed.

Lemma feature_step_started_then_completed_witness :
  exists s1 d1 s2 d2,
    feature_step_mark_started 10 1 0 sample_steps_db = (Success s1, d1)
    /\ feature_step_mark_completed 20 1 0 (Some "") d1 = (Success s2, d2)
    /\ get_step 1 0 (step_progress d2) = Some s2
    /\ StepProgress.started_at s2 = Some 10
    /\ StepProgress.completed_at s2 = Some 20
    /\ StepProgress.completed s2 = true
    /\ StepProgress.step_text s2
       = StepProgress.step_text
           (StepProgress.mk 1 1 0 "write it" false None None None)
    /\ StepProgress.notes s2
       = (if truthy_opt (Some "") then Some ""
          else StepProgress.notes
                 (StepProgress.mk 1 1 0 "write it" false None None None))
    /\ features d2 = features sample_steps_db.
Proof.
  exact (feature_step_started_then_completed 10 20 1 0 (Some "") sample_steps_db
           (StepProgress.mk 1 1 0 "write it" false None None None) eq_refl).
Defined.

(** ** Progress details *)

Lemma insert_step_Permutation s sorted :
  Permutation (insert_step s sorted) (s :: sorted).
Proof.
  induction sorted as [|r rs IH]; cbn [insert_step]; [reflexivity|].
  destruct (StepProgress.step_index s <? StepProgress.step_index r).
  - reflexivity.
  - rewrite IH. apply perm_swap.
Qed.

Lemma insert_step_sorted s sorted :
  StronglySorted by_step_index sorted ->
  StronglySorted by_step_index (insert_step s sorted).
Proof.
  induction 1 as [|r rs Hrs IH Hr]; cbn [insert_step].
  - constructor; constructor.
  - destruct (StepProgress.step_index s <? StepProgress.step_index r) eqn:E.
    + apply Z.ltb_lt in E. constructor; [now constructor|].
      constructor; [unfold by_step_index; lia|].
      eapply List.Forall_impl; [|exact Hr].
      unfold by_step_index. intros; lia.
    + apply Z.ltb_ge in E. constructor; [exact IH|].
      rewrite (insert_step_Permutation s rs). now constructor.
Qed.

Lemma order_by_step_index_acc rows acc :
  Permutation (fold_left (fun sorted s => insert_step s sorted) rows acc)
              (acc ++ rows)%list
  /\ (StronglySorted by_step_index acc ->
      StronglySorted by_step_index
        (fold_left (fun sorted s => insert_step s sorted) rows acc)).
Proof.
  revert acc. induction rows as [|s rows IH]; intros acc; cbn [fold_left].
  - rewrite app_nil_r. now split.
  - destruct (IH (insert_step s acc)) as [Hp Hs]. split.
    + rewrite Hp, insert_step_Permutation. apply Permutation_middle.
    + intros Hacc. apply Hs. now apply insert_step_sorted.
Qed.

Lemma progress_counts_list (rows : list StepProgress.t) :
  (length (List.filter StepProgress.completed rows)
   + length (List.filter
               (fun s => started s && negb (StepProgress.completed s)) rows)
   + length (List.filter (fun s => negb (started s)) rows)
   = length rows
     + length (List.filter
                 (fun s => StepProgress.completed s && negb (started s)) rows))%nat.
Proof.
  induction rows as [|s rows IH]; [reflexivity|]. cbn [List.filter].
  destruct (StepProgress.completed s), (started s); cbn [andb negb length]; lia.
Qed.

(** X15. The answer of [feature_get_progress_details] lists exactly the
    step records of the feature, by ascending step index. Its three counts
    add up to the total plus the number of records that are completed
    without a start time: such a record is counted as completed and as
    pending. *)
Theorem feature_get_progress_details_counts
    (feature_id : Z) (d : db) (p : progress_details) :
  feature_get_progress_details feature_id d = Success p ->
  Permutation (steps p)
    (List.filter (fun s => StepProgress.feature_id s =? feature_id)
       (step_progress d))
  /\ StronglySorted by_step_index (steps p)
  /\ total_steps p = length (steps p)
  /\ (completed_steps p + in_progress_steps p + pending_steps p
      = total_steps p
        + length (List.filter
                    (fun s => StepProgress.completed s && negb (started s))
                    (steps p)))%nat.
Proof.
  unfold feature_get_progress_details.
  destruct (get_feature feature_id (features d)); [|discriminate].
  intros H. inversion H; subst p; clear H. cbn [steps total_steps
    completed_steps in_progress_steps pending_steps].
  unfold order_by_step_index.
  destruct (order_by_step_index_acc
              (List.filter (fun s => StepProgress.feature_id s =? feature_id)
                 (step_progress d)) []) as [Hp Hs].
  split; [exact Hp|]. split; [apply Hs; constructor|].
  split; [reflexivity|]. apply progress_counts_list.
Qed.

(** A step completed without [feature_step_mark_started] shows the double
    count. *)
Lemma feature_get_progress_details_counts_witness :
  exists p,
    feature_get_progress_details 1
      (snd (feature_step_mark_completed 20 1 0 None sample_steps_db)) = Success p
    /\ total_steps p = 2%nat
    /\ (completed_steps p + in_progress_steps p + pending_steps p
        = total_steps p
          + length (List.filter
                      (fun s => StepProgress.completed s && negb (started s))
                      (steps p)))%nat
    /\ completed_steps p = 1%nat /\ pending_steps p = 2%nat.
Proof.
  eexists. split; [reflexivity|].
  split; [reflexivity|].
  split; [|split; reflexivity].
  eapply (feature_get_progress_details_counts 1
            (snd (feature_step_mark_completed 20 1 0 None sample_steps_db))).
  reflexivity.
Defined.

(** ** The migration *)

Lemma step_rows_filter id next feature_id i steps :
  List.filter (fun s => StepProgress.feature_id s =? id)
    (step_rows next feature_id i steps)
  = if feature_id =? id then step_rows next feature_id i steps else [].
Proof.
  revert next i. induction steps as [|t ts IH]; intros next i; cbn [step_rows].
  - now destruct (feature_id =? id).
  - cbn [List.filter StepProgress.feature_id]. rewrite IH.
    now destruct (feature_id =? id).
Qed.

Lemma populate_steps_filter_absent id next rows :
  ~ In id (map Feature.id rows) ->
  List.filter (fun s => StepProgress.feature_id s =? id)
    (populate_steps next rows) = [].
Proof.
  revert next. induction rows as [|r rs IH]; intros next Hid; [reflexivity|].
  cbn [populate_steps map] in *. rewrite List.filter_app, step_rows_filter.
  destruct (Feature.id r =? id) eqn:E.
  - apply Z.eqb_eq in E. exfalso. apply Hid. now left.
  - apply IH. intros H. apply Hid. now right.
Qed.

Lemma populate_steps_filter next rows f :
  List.NoDup (map Feature.id rows) -> In f rows ->
  exists next',
    List.filter (fun s => StepProgress.feature_id s =? Feature.id f)
      (populate_steps next rows)
    = step_rows next' (Feature.id f) 0 (Feature.steps f).
Proof.
  revert next. induction rows as [|r rs IH]; intros next Hnd Hin; [destruct Hin|].
  cbn [map] in Hnd. apply List.NoDup_cons_iff in Hnd as [Hr Hnd].
  cbn [populate_steps]. rewrite List.filter_app, step_rows_filter.
  destruct Hin as [->|Hin].
  - rewrite Z.eqb_refl, (populate_steps_filter_absent _ _ _ Hr), app_nil_r.
    now exists next.
  - destruct (Feature.id r =? Feature.id f) eqn:E.
    + apply Z.eqb_eq in E. exfalso. apply Hr. rewrite E.
      now apply List.in_map.
    + now apply IH.
Qed.

Lemma insert_step_last s sorted :
  Forall (fun r => StepProgress.step_index r <= StepProgress.step_index s) sorted ->
  insert_step s sorted = (sorted ++ [s])%list.
Proof.
  induction 1 as [|r rs Hr _ IH]; [reflexivity|]. cbn [insert_step].
  destruct (StepProgress.step_index s <? StepProgress.step_index r) eqn:E.
  - apply Z.ltb_lt in E. lia.
  - now rewrite IH.
Qed.

Lemma order_by_step_index_step_rows next feature_id i steps acc :
  Forall (fun r => StepProgress.step_index r < Z.of_nat i) acc ->
  fold_left (fun sorted s => insert_step s sorted)
    (step_rows next feature_id i steps) acc
  = (acc ++ step_rows next feature_id i steps)%list.
Proof.
  revert next i acc. induction steps as [|t ts IH]; intros next i acc Hacc;
    cbn [step_rows fold_left].
  - now rewrite app_nil_r.
  - rewrite insert_step_last.
    + rewrite IH.
      * now rewrite <- app_assoc.
      * apply List.Forall_app. split.
        -- eapply List.Forall_impl; [|exact Hacc]. cbn beta. intros; lia.
        -- constructor; [cbn [StepProgress.step_index]; lia|constructor].
    + eapply List.Forall_impl; [|exact Hacc].
      cbn [StepProgress.step_index]. intros; lia.
Qed.

Lemma step_rows_fresh next feature_id i steps :
  map StepProgress.step_text (step_rows next feature_id i steps) = steps
  /\ map StepProgress.step_index (step_rows next feature_id i steps)
     = map Z.of_nat (seq i (length steps))
  /\ List.filter StepProgress.completed (step_rows next feature_id i steps) = []
  /\ List.filter (fun s => started s && negb (StepProgress.completed s))
       (step_rows next feature_id i steps) = []
  /\ List.filter (fun s => negb (started s)) (step_rows next feature_id i steps)
     = step_rows next feature_id i steps.
Proof.
  revert next i. induction steps as [|t ts IH]; intros next i;
    [now repeat split|].
  destruct (IH (next + 1) (S i)) as (H1 & H2 & H3 & H4 & H5).
  cbn [step_rows map List.filter length seq StepProgress.step_text
       StepProgress.step_index StepProgress.completed started
       StepProgress.started_at andb negb].
  rewrite H1, H2, H3, H4, H5. now repeat split.
Qed.

(** X16. After the migration of a database without step table, whose
    features have distinct ids, [feature_get_progress_details] answers for
    every feature with one record per declared step, in the order and with
    the text of [Feature.steps], numbered from 0, and counts all of them as
    pending. *)
Theorem migrate_add_step_progress_table_progress (d : db) (f : Feature.t) :
  primary_key d -> In f (features d) ->
  exists p,
    feature_get_progress_details (Feature.id f)
      (migrate_add_step_progress_table false d) = Success p
    /\ map StepProgress.step_text (steps p) = Feature.steps f
    /\ map StepProgress.step_index (steps p)
       = map Z.of_nat (seq 0 (length (Feature.steps f)))
    /\ total_steps p = length (Feature.steps f)
    /\ completed_steps p = 0%nat
    /\ in_progress_steps p = 0%nat
    /\ pending_steps p = length (Feature.steps f).
Proof.
  intros Hpk Hin. unfold feature_get_progress_details,
    migrate_add_step_progress_table. cbn [features step_progress].
  rewrite (get_feature_unique _ _ Hpk Hin).
  destruct (populate_steps_filter 1 _ _ Hpk Hin) as [next' ->].
  unfold order_by_step_index.
  rewrite order_by_step_index_step_rows by constructor. cbn [app].
  destruct (step_rows_fresh next' (Feature.id f) 0 (Feature.steps f))
    as (H1 & H2 & H3 & H4 & H5).
  eexists. split; [reflexivity|].
  cbn [steps total_steps completed_steps in_progress_steps pending_steps].
  rewrite H3, H4, H5.
  assert (Hlen : length (step_rows next' (Feature.id f) 0 (Feature.steps f))
                 = length (Feature.steps f)).
  { rewrite <- H1 at 2. now rewrite List.length_map. }
  rewrite Hlen. now repeat split.
Qed.

Lemma migrate_add_step_progress_table_progress_witness :
  exists p,
    feature_get_progress_details 2
      (migrate_add_step_progress_table false sample_db) = Success p
    /\ map StepProgress.step_text (steps p) = ["write it"; "test it"]
    /\ map StepProgress.step_index (steps p) = [0; 1]
    /\ total_steps p = 2%nat
    /\ completed_steps p = 0%nat
    /\ in_progress_steps p = 0%nat
    /\ pending_steps p = 2%nat.
Proof.
  apply (migrate_add_step_progress_table_progress sample_db
           (sample_feature 2 7 false false None)).
  - unfold primary_key. cbn. repeat constructor; cbn; intuition discriminate.
  - cbn. tauto.
Defined.

(** * Further properties of the line protocol *)

Lemma process_line_message loads self line pairs ty p :
  startswith (strip line) MESSAGE_PREFIX = true ->
  loads (message_json line) = Some (JDict pairs) ->
  dict_get pairs "type" = Some ty ->
  dict_get pairs "payload" = Some p ->
  process_line loads self line
  = match dispatch self ty p with
    | Return events => events
    | Raise e => [ListenerError e]
    end.
Proof.
  intros Hprefix Hloads Hty Hp. unfold process_line, read_message.
  rewrite Hprefix, Hloads. cbn [negb contains py_bind getitem].
  rewrite Hty, Hp. reflexivity.
Qed.

Lemma callback_errors_run_callbacks t p cbs i :
  callback_errors (run_callbacks t p i cbs)
  = map (pair t)
      (List.filter (fun j => raises_on p (nth (j - i) cbs returns))
         (seq i (length cbs)))
  /\ listener_errors (run_callbacks t p i cbs) = [].
Proof.
  revert i. induction cbs as [|cb cbs IH]; intros i; [now split|].
  destruct (IH (S i)) as [IH1 IH2].
  assert (Htail : List.filter
                    (fun j => raises_on p (nth (j - i) (cb :: cbs) returns))
                    (seq (S i) (length cbs))
                  = List.filter
                      (fun j => raises_on p (nth (j - S i) cbs returns))
                      (seq (S i) (length cbs))).
  { apply List.filter_ext_in. intros j Hj. apply List.in_seq in Hj.
    replace (j - i)%nat with (S (j - S i)) by lia. reflexivity. }
  cbn [run_callbacks length seq List.filter].
  rewrite Nat.sub_diag, Htail. cbn [nth]. unfold raises_on at 1.
  unfold callback_errors, listener_errors in *.
  destruct (cb p); cbn [omap list_omap]; simpl; rewrite IH1, IH2; now split.
Qed.

(** X17. When a message of a registered type arrives, a callback that
    raises does not keep the callbacks after it from being called: every
    callback registered for the type is called once, in the order of
    registration; an error is printed for exactly the callbacks that raise,
    and none for the listener. *)
Theorem process_line_callback_errors
    (loads : string -> option json) (self : AgentCommunicator)
    (line t : string) (p : json) (cbs : list callback) :
  well_formed loads line t p ->
  callbacks self !! t = Some cbs ->
  calls (process_line loads self line) = calls_of t p 0 (length cbs)
  /\ callback_errors (process_line loads self line)
     = map (pair t)
         (List.filter (fun j => raises_on p (nth j cbs returns))
            (seq 0 (length cbs)))
  /\ listener_errors (process_line loads self line) = [].
Proof.
  intros (Hprefix & pairs & Hloads & Hty & Hp) Hcbs.
  rewrite (process_line_message loads self line pairs (JStr t) p
             (strip_startswith _ Hprefix) Hloads Hty Hp).
  cbn [dispatch]. rewrite Hcbs.
  destruct (callback_errors_run_callbacks t p cbs 0) as [H1 H2].
  split; [apply calls_run_callbacks|]. split; [|exact H2].
  rewrite H1. f_equal. apply List.filter_ext. intros j.
  now rewrite Nat.sub_0_r.
Qed.

Lemma process_line_callback_errors_witness :
  calls (process_line json_loads sample_communicator
           (send_message "ping" JNull "now"))
  = calls_of "ping" JNull 0 (length [raises; returns])
  /\ callback_errors (process_line json_loads sample_communicator
                        (send_message "ping" JNull "now"))
     = map (pair "ping")
         (List.filter (fun j => raises_on JNull (nth j [raises; returns] returns))
            (seq 0 (length [raises; returns])))
  /\ listener_errors (process_line json_loads sample_communicator
                        (send_message "ping" JNull "now")) = [].
Proof.
  apply (process_line_callback_errors json_loads sample_communicator
           (send_message "ping" JNull "now") "ping" JNull [raises; returns]).
  - split; [reflexivity|].
    exists [("type", JStr "ping"); ("payload", JNull); ("timestamp", JStr "now")].
    split; [vm_compute; reflexivity|]. split; reflexivity.
  - reflexivity.
Defined.



(** X19. A message whose type is not a string reaches no callback,
    whatever is registered: a type that is [null], a boolean or a number is
    looked up and not found, without a word; a list or an object cannot be
    hashed, and the [TypeError] is printed. A string for which nothing is
    registered is passed over in silence too. *)
Theorem process_line_message_type
    (loads : string -> option json) (self : AgentCommunicator)
    (line : string) (pairs : list (string * json)) (ty p : json) :
  startswith (strip line) MESSAGE_PREFIX = true ->
  loads (message_json line) = Some (JDict pairs) ->
  dict_get pairs "type" = Some ty ->
  dict_get pairs "payload" = Some p ->
  ((forall t, ty <> JStr t) ->
     calls (process_line loads self line) = []
     /\ process_line loads self line
        = if is_scalar ty then [] else [ListenerError TypeError])
  /\ (forall t, ty = JStr t -> registered self t = [] ->
        process_line loads self line = []).
Proof.
  intros Hprefix Hloads Hty Hp.
  rewrite (process_line_message loads self line pairs ty p Hprefix Hloads Hty Hp).
  split.
  - intros Hno. destruct ty as [|b|n|s|items|pairs']; try (now split).
    now destruct (Hno s).
  - intros t -> Hreg. cbn [dispatch]. unfold registered in Hreg.
    destruct (callbacks self !! t) as [cbs|]; [|reflexivity].
    simpl in Hreg. now subst cbs.
Qed.

Lemma process_line_message_type_witness :
  ((forall t, JList [] <> JStr t) ->
     calls (process_line json_loads sample_communicator
              (MESSAGE_PREFIX
               ++ json_dumps (JDict [("type", JList []); ("payload", JNull)])))
     = []
     /\ process_line json_loads sample_communicator
          (MESSAGE_PREFIX
           ++ json_dumps (JDict [("type", JList []); ("payload", JNull)]))
        = if is_scalar (JList []) then [] else [ListenerError TypeError])
  /\ (forall t, JList [] = JStr t -> registered sample_communicator t = [] ->
        process_line json_loads sample_communicator
          (MESSAGE_PREFIX
           ++ json_dumps (JDict [("type", JList []); ("payload", JNull)]))
        = []).
Proof.
  apply (process_line_message_type json_loads sample_communicator
           (MESSAGE_PREFIX
            ++ json_dumps (JDict [("type", JList []); ("payload", JNull)]))
           [("type", JList []); ("payload", JNull)] (JList []) JNull).
  - reflexivity.
  - vm_compute. reflexivity.
  - reflexivity.
  - reflexivity.
Defined.

(** ** Registering a callback *)

Lemma run_callbacks_app t p i cbs1 cbs2 :
  run_callbacks t p i (cbs1 ++ cbs2)
  = (run_callbacks t p i cbs1
     ++ run_callbacks t p (i + length cbs1) cbs2)%list.
Proof.
  revert i. induction cbs1 as [|cb cbs1 IH]; intros i.
  - cbn [app run_callbacks length]. now rewrite Nat.add_0_r.
  - cbn [app run_callbacks length]. rewrite IH.
    replace (S i + length cbs1)%nat with (i + S (length cbs1))%nat by lia.
    now destruct (cb p).
Qed.

(** X20. [register_callback] puts the callback after those registered for
    its type before, also for a type [__init__] does not know: a message of
    that type is handled as before, and then passed to the new callback;
    messages of the other types are handled as before. *)
Theorem register_callback_last
    (loads : string -> option json) (self : AgentCommunicator)
    (t : string) (cb : callback) (line t' : string) (p : json) :
  well_formed loads line t' p ->
  registered (register_callback t cb self) t = (registered self t ++ [cb])%list
  /\ (t' <> t ->
      process_line loads (register_callback t cb self) line
      = process_line loads self line)
  /\ (t' = t ->
      process_line loads (register_callback t cb self) line
      = (process_line loads self line
         ++ Called t (length (registered self t)) p
            :: (if raises_on p cb
                then [CallbackError t (length (registered self t))]
                else []))%list).
Proof.
  intros (Hprefix & pairs & Hloads & Hty & Hp).
  pose proof (strip_startswith _ Hprefix) as Hstrip.
  rewrite !(process_line_message loads _ line pairs (JStr t') p
              Hstrip Hloads Hty Hp).
  unfold registered, register_callback. cbn [dispatch callbacks].
  split; [now rewrite lookup_insert_eq|]. split.
  - intros Hne. rewrite lookup_insert_ne by congruence. reflexivity.
  - intros ->. rewrite lookup_insert_eq.
    destruct (callbacks self !! t) as [cbs|]; simpl default.
    + rewrite run_callbacks_app. cbn [run_callbacks Nat.add].
      unfold raises_on. now destruct (cb p).
    + cbn [app run_callbacks length]. unfold raises_on. now destruct (cb p).
Qed.

Lemma register_callback_last_witness :
  registered (register_callback "resume" raises sample_communicator) "resume"
  = (registered sample_communicator "resume" ++ [raises])%list
  /\ ("resume" <> "resume" ->
      process_line json_loads (register_callback "resume" raises sample_communicator)
        (send_message "resume" JNull "now")
      = process_line json_loads sample_communicator
          (send_message "resume" JNull "now"))
  /\ ("resume" = "resume" ->
      process_line json_loads (register_callback "resume" raises sample_communicator)
        (send_message "resume" JNull "now")
      = (process_line json_loads sample_communicator
           (send_message "resume" JNull "now")
         ++ Called "resume" (length (registered sample_communicator "resume")) JNull
            :: (if raises_on JNull raises
                then [CallbackError "resume"
                        (length (registered sample_communicator "resume"))]
                else []))%list).
Proof.
  apply (register_callback_last json_loads sample_communicator "resume" raises
           (send_message "resume" JNull "now") "resume" JNull).
  split; [reflexivity|].
  exists [("type", JStr "resume"); ("payload", JNull); ("timestamp", JStr "now")].
  split; [vm_compute; reflexivity|]. split; reflexivity.
Defined.

(** ** Messages in a row *)

Lemma send_message_well_formed message_type payload timestamp :
  well_formed json_loads (send_message message_type payload timestamp)
    message_type payload.
Proof.
  split; [reflexivity|].
  exists [("type", JStr message_type); ("payload", payload);
          ("timestamp", JStr timestamp)].
  split; [|split; reflexivity].
  rewrite message_json_send_message. apply json_loads_dumps.
Qed.

Lemma calls_process_line loads self line t p :
  well_formed loads line t p ->
  calls (process_line loads self line)
  = calls_of t p 0 (length (registered self t)).
Proof.
  intros (Hprefix & pairs & Hloads & Hty & Hp).
  rewrite (process_line_message loads self line pairs (JStr t) p
             (strip_startswith _ Hprefix) Hloads Hty Hp).
  cbn [dispatch]. unfold registered.
  destruct (callbacks self !! t) as [cbs|]; [|reflexivity].
  apply calls_run_callbacks.
Qed.

Lemma readlines_line s rest :
  all_printable s = true ->
  readlines (s ++ String newline rest)
  = (s ++ String newline "") :: readlines rest.
Proof.
  induction s as [|c s IH]; [reflexivity|].
  cbn [all_printable]. intros [Hc Hs]%andb_true_iff.
  rewrite !append_cons. cbn [readlines]. rewrite (IH Hs).
  destruct (Ascii.eqb c newline) eqn:E; [|reflexivity].
  apply Ascii.eqb_eq in E. subst c. discriminate Hc.
Qed.

(** [readlines] gives what [readline] returns, call after call. *)
Lemma readlines_readline s :
  s <> "" ->
  readlines s = fst (readline s) :: readlines (snd (readline s)).
Proof.
  induction s as [|c s IH]; [congruence|]. intros _.
  cbn [readlines readline].
  destruct (Ascii.eqb c newline); [reflexivity|].
  destruct s as [|c' s']; [reflexivity|].
  rewrite IH by discriminate.
  now destruct (readline (String c' s')).
Qed.

Lemma readlines_sent message_type payload timestamp rest :
  readlines (send_message message_type payload timestamp ++ rest)
  = send_message message_type payload timestamp :: readlines rest.
Proof.
  unfold send_message.
  set (doc := json_dumps (message_dict message_type payload timestamp)).
  assert (E : forall r, (MESSAGE_PREFIX ++ doc ++ String newline "") ++ r
                        = (MESSAGE_PREFIX ++ doc) ++ String newline r).
  { intros r. now rewrite !append_assoc. }
  rewrite E, readlines_line; [now rewrite <- (E ""), append_nil_r|].
  rewrite all_printable_append. subst doc. now rewrite json_dumps_printable.
Qed.



(** ** The senders built on [send_message] *)


(** ** The end of the input *)

Lemma readlines_nonempty s : Forall (fun line => line <> "") (readlines s).
Proof.
  induction s as [|c s IH]; [constructor|]. cbn [readlines].
  destruct (Ascii.eqb c newline); [constructor; [discriminate|exact IH]|].
  destruct (readlines s) as [|line rest]; [repeat constructor; discriminate|].
  inversion IH; subst. constructor; [discriminate|assumption].
Qed.

(** X23. A running listener handles every line of the text on its input,
    up to the end of the text: no line, blank or not, ends it. It ends when
    [readline] returns the empty string, whatever would come after, and a
    listener entered after [stop] handles nothing. *)
Theorem listen_stdin_to_the_end
    (loads : string -> option json) (self : AgentCommunicator) :
  (running self = true ->
   forall stream,
     listen_stdin loads self (readlines stream)
     = flat_map (process_line loads self) (readlines stream))
  /\ (forall before after,
        listen_stdin loads self (before ++ "" :: after)
        = listen_stdin loads self before)
  /\ (forall stdin, listen_stdin loads (stop self) stdin = []).
Proof.
  split; [|split].
  - intros Hrun stream. pose proof (readlines_nonempty stream) as Hne.
    induction Hne as [|line rest Hline _ IH]; cbn [listen_stdin flat_map].
    + now rewrite Hrun.
    + rewrite Hrun. destruct (String.eqb line "") eqn:E.
      * apply String.eqb_eq in E. contradiction.
      * now rewrite IH.
  - intros before after. induction before as [|line rest IH].
    + cbn [app listen_stdin]. now destruct (running self).
    + cbn [app listen_stdin]. now rewrite IH.
  - intros stdin. now destruct stdin.
Qed.

Lemma listen_stdin_to_the_end_witness :
  listen_stdin json_loads sample_communicator
    (readlines (String newline (send_message "ping" JNull "now")))
  = flat_map (process_line json_loads sample_communicator)
      (readlines (String newline (send_message "ping" JNull "now"))).
Proof.
  destruct (listen_stdin_to_the_end json_loads sample_communicator) as [H _].
  apply (H eq_refl).
Defined.

(** ** White space around a line *)

Lemma lstrip_all_space ws s : all_space ws = true -> lstrip (ws ++ s) = lstrip s.
Proof.
  induction ws as [|c ws IH]; [reflexivity|]. cbn [all_space].
  intros [Hc Hws]%andb_true_iff. rewrite append_cons. cbn [lstrip].
  rewrite Hc. now apply IH.
Qed.

Lemma rstrip_all_space ws s : all_space ws = true -> rstrip (s ++ ws) = rstrip s.
Proof.
  intros Hws.
  assert (H0 : rstrip ws = "").
  { induction ws as [|c ws IH]; [reflexivity|]. cbn [all_space] in Hws.
    apply andb_true_iff in Hws as [Hc Hws]. cbn [rstrip].
    now rewrite (IH Hws), Hc. }
  induction s as [|c s IH]; [exact H0|].
  rewrite append_cons. cbn [rstrip]. now rewrite IH.
Qed.

Lemma strip_all_space ws1 ws2 s :
  all_space ws1 = true -> all_space ws2 = true ->
  strip (ws1 ++ s ++ ws2) = strip s.
Proof.
  intros H1 H2. unfold strip. rewrite (lstrip_all_space _ _ H1).
  induction s as [|c s IH].
  - change ("" ++ ws2) with ws2.
    rewrite <- (append_nil_r ws2), (lstrip_all_space ws2 "" H2). reflexivity.
  - rewrite append_cons. cbn [lstrip]. destruct (isspace c); [exact IH|].
    rewrite <- append_cons. now apply rstrip_all_space.
Qed.

(** X24. White space before the prefix and after the document does not
    count: the listener handles a line with white space around it as it
    handles the line itself. *)
Theorem process_line_white_space
    (loads : string -> option json) (self : AgentCommunicator)
    (before line after : string) :
  all_space before = true -> all_space after = true ->
  process_line loads self (before ++ line ++ after)
  = process_line loads self line.
Proof.
  intros H1 H2. unfold process_line, read_message, message_json.
  now rewrite (strip_all_space before after line H1 H2).
Qed.

Lemma process_line_white_space_witness :
  process_line json_loads sample_communicator
    ("  " ++ send_message "ping" JNull "now" ++ " ")
  = process_line json_loads sample_communicator (send_message "ping" JNull "now").
Proof.
  apply (process_line_white_space json_loads sample_communicator
           "  " (send_message "ping" JNull "now") " "); reflexivity.
Defined.

(** * Further properties: [feature_get_labels] *)

Lemma label_eqb_eq a b : label_eqb a b = true <-> a = b.
Proof.
  destruct a as [x|], b as [y|]; cbn [label_eqb]; try (split; congruence).
  rewrite String.eqb_eq. split; congruence.
Qed.

Lemma label_eqb_refl a : label_eqb a a = true.
Proof. now apply label_eqb_eq. Qed.

Lemma find_label_count_feature f stats l :
  find_label l (count_feature f stats)
  = if label_eqb (Feature.label f) l
    then Some (tally f (default (LabelStats.mk l 0 0 0 0) (find_label l stats)))
    else find_label l stats.
Proof.
  unfold find_label. induction stats as [|s rest IH].
  - cbn [count_feature List.find tally LabelStats.label].
    destruct (label_eqb (Feature.label f) l) eqn:E; [|reflexivity].
    apply label_eqb_eq in E. now subst l.
  - cbn [count_feature List.find].
    destruct (label_eqb (LabelStats.label s) (Feature.label f)) eqn:Es.
    + apply label_eqb_eq in Es. cbn [List.find tally LabelStats.label].
      rewrite Es. now destruct (label_eqb (Feature.label f) l).
    + cbn [List.find]. destruct (label_eqb (LabelStats.label s) l) eqn:El.
      * apply label_eqb_eq in El. subst l.
        destruct (label_eqb (Feature.label f) (LabelStats.label s)) eqn:E;
          [|reflexivity].
        apply label_eqb_eq in E. rewrite E, label_eqb_refl in Es. discriminate.
      * exact IH.
Qed.

Lemma entry_snoc l rows f :
  entry l (rows ++ [f])
  = if label_eqb (Feature.label f) l
    then Some (tally f (default (LabelStats.mk l 0 0 0 0) (entry l rows)))
    else entry l rows.
Proof.
  unfold entry, stats_of, with_label. rewrite List.filter_app.
  cbn [List.filter]. destruct (label_eqb (Feature.label f) l).
  - set (fs := List.filter (fun f0 => label_eqb (Feature.label f0) l) rows).
    rewrite !List.filter_app, !List.length_app. cbn [List.filter].
    assert (Hne : (fs ++ [f])%list <> []) by now destruct fs.
    destruct (fs ++ [f])%list as [|x xs] eqn:E; [congruence|]. clear E Hne.
    assert (Hd : default (LabelStats.mk l 0 0 0 0)
                   match fs with
                   | [] => None
                   | _ :: _ =>
                       Some (LabelStats.mk l (length fs)
                               (length (List.filter Feature.passes fs))
                               (length (List.filter
                                  (fun f => negb (Feature.passes f)
                                            && negb (Feature.in_progress f)) fs))
                               (length (List.filter
                                  (fun f => negb (Feature.passes f)
                                            && Feature.in_progress f) fs)))
                   end
                 = LabelStats.mk l (length fs)
                     (length (List.filter Feature.passes fs))
                     (length (List.filter
                        (fun f => negb (Feature.passes f)
                                  && negb (Feature.in_progress f)) fs))
                     (length (List.filter
                        (fun f => negb (Feature.passes f)
                                  && Feature.in_progress f) fs))).
    { now destruct fs. }
    rewrite Hd. unfold tally.
    cbn [LabelStats.label LabelStats.count LabelStats.passing
         LabelStats.pending LabelStats.in_progress].
    destruct (Feature.passes f), (Feature.in_progress f);
      cbn [negb andb length app List.filter]; rewrite ?Nat.add_0_r, ?Nat.add_1_r;
      reflexivity.
  - now rewrite !app_nil_r.
Qed.

Lemma labels_count_feature f stats :
  map LabelStats.label (count_feature f stats)
  = if existsb (fun s => label_eqb (LabelStats.label s) (Feature.label f)) stats
    then map LabelStats.label stats
    else (map LabelStats.label stats ++ [Feature.label f])%list.
Proof.
  induction stats as [|s rest IH]; [reflexivity|].
  cbn [count_feature existsb map].
  destruct (label_eqb (LabelStats.label s) (Feature.label f));
    cbn [orb map app]; [reflexivity|].
  rewrite IH. now destruct (existsb _ rest).
Qed.

Lemma NoDup_count_feature f stats :
  List.NoDup (map LabelStats.label stats) ->
  List.NoDup (map LabelStats.label (count_feature f stats)).
Proof.
  intros Hnd. rewrite labels_count_feature.
  destruct (existsb _ stats) eqn:E; [exact Hnd|].
  apply List.NoDup_app; [exact Hnd|repeat constructor; intros []|].
  intros l Hl [<-|[]]. apply List.in_map_iff in Hl as (s & Hs & Hin).
  assert (existsb (fun s => label_eqb (LabelStats.label s) (Feature.label f))
            stats = true); [|congruence].
  apply List.existsb_exists. exists s. split; [exact Hin|].
  now apply label_eqb_eq.
Qed.

Lemma label_stats_inv rows before acc :
  (forall l, find_label l acc = entry l before) ->
  List.NoDup (map LabelStats.label acc) ->
  (forall l, find_label l (fold_left (fun stats f => count_feature f stats) rows acc)
             = entry l (before ++ rows))
  /\ List.NoDup (map LabelStats.label
                   (fold_left (fun stats f => count_feature f stats) rows acc)).
Proof.
  revert before acc. induction rows as [|f rows IH]; intros before acc Hacc Hnd.
  - cbn [fold_left]. rewrite app_nil_r. now split.
  - cbn [fold_left].
    replace (before ++ f :: rows)%list with ((before ++ [f]) ++ rows)%list
      by now rewrite <- app_assoc.
    apply IH; [|now apply NoDup_count_feature].
    intros l. now rewrite find_label_count_feature, entry_snoc, Hacc.
Qed.

Lemma find_label_In l stats s :
  find_label l stats = Some s -> In s stats /\ LabelStats.label s = l.
Proof.
  intros H. apply List.find_some in H as [Hin Hl].
  now apply label_eqb_eq in Hl.
Qed.

Lemma In_find_label stats s :
  List.NoDup (map LabelStats.label stats) -> In s stats ->
  find_label (LabelStats.label s) stats = Some s.
Proof.
  unfold find_label. induction stats as [|r rest IH]; intros Hnd Hin;
    [destruct Hin|].
  cbn [map] in Hnd. apply List.NoDup_cons_iff in Hnd as [Hr Hnd].
  cbn [List.find]. destruct Hin as [->|Hin]; [now rewrite label_eqb_refl|].
  destruct (label_eqb (LabelStats.label r) (LabelStats.label s)) eqn:E.
  - apply label_eqb_eq in E. exfalso. apply Hr. rewrite E.
    now apply List.in_map.
  - now apply IH.
Qed.

(** The order of strings is transitive. *)
Lemma string_ltb_trans s t u :
  String.ltb s t = true -> String.ltb t u = true -> String.ltb s u = true.
Proof.
  unfold String.ltb. revert t u.
  induction s as [|a s IH]; intros [|b t] [|c u]; cbn [String.compare];
    try discriminate; try reflexivity.
  unfold Ascii.compare.
  destruct (N.compare_spec (N_of_ascii a) (N_of_ascii b)) as [Hab|Hab|Hab];
    destruct (N.compare_spec (N_of_ascii b) (N_of_ascii c)) as [Hbc|Hbc|Hbc];
    try discriminate; intros H1 H2.
  - rewrite Hab, Hbc, N.compare_refl. now apply (IH t u).
  - rewrite Hab. now apply N.compare_lt_iff in Hbc as ->.
  - rewrite <- Hbc. now apply N.compare_lt_iff in Hab as ->.
  - assert (H : (N_of_ascii a < N_of_ascii c)%N) by lia.
    now apply N.compare_lt_iff in H as ->.
Qed.

Lemma key_ltb_trans a b c :
  key_ltb a b = true -> key_ltb b c = true -> key_ltb a c = true.
Proof.
  destruct a as [[] x], b as [[] y], c as [[] z]; unfold key_ltb;
    cbn [fst snd Bool.eqb negb]; try discriminate; try reflexivity;
    apply string_ltb_trans.
Qed.

Lemma key_ltb_irrefl a : key_ltb a a = false.
Proof.
  unfold key_ltb, String.ltb. rewrite Bool.eqb_reflx.
  assert (H : forall x, String.compare x x = Eq).
  { induction x as [|c x IH]; [reflexivity|]. cbn [String.compare].
    unfold Ascii.compare. now rewrite N.compare_refl. }
  now rewrite H.
Qed.

Lemma insert_label_Permutation s sorted :
  Permutation (insert_label s sorted) (s :: sorted).
Proof.
  induction sorted as [|r rs IH]; cbn [insert_label]; [reflexivity|].
  destruct (key_ltb (label_key s) (label_key r)).
  - reflexivity.
  - rewrite IH. apply perm_swap.
Qed.

Lemma insert_label_sorted s sorted :
  StronglySorted by_label_key sorted ->
  StronglySorted by_label_key (insert_label s sorted).
Proof.
  induction 1 as [|r rs Hrs IH Hr]; cbn [insert_label].
  - constructor; constructor.
  - destruct (key_ltb (label_key s) (label_key r)) eqn:E.
    + constructor; [now constructor|]. constructor.
      * unfold by_label_key.
        destruct (key_ltb (label_key r) (label_key s)) eqn:E'; [|reflexivity].
        pose proof (key_ltb_trans _ _ _ E E') as H.
        now rewrite key_ltb_irrefl in H.
      * eapply List.Forall_impl; [|exact Hr]. unfold by_label_key.
        intros r' Hr'.
        destruct (key_ltb (label_key r') (label_key s)) eqn:E'; [|reflexivity].
        now rewrite (key_ltb_trans _ _ _ E' E) in Hr'.
    + constructor; [exact IH|].
      rewrite (insert_label_Permutation s rs). now constructor.
Qed.

Lemma sort_labels_acc stats acc :
  Permutation (fold_left (fun sorted s => insert_label s sorted) stats acc)
              (acc ++ stats)%list
  /\ (StronglySorted by_label_key acc ->
      StronglySorted by_label_key
        (fold_left (fun sorted s => insert_label s sorted) stats acc)).
Proof.
  revert acc. induction stats as [|s stats IH]; intros acc; cbn [fold_left].
  - rewrite app_nil_r. now split.
  - destruct (IH (insert_label s acc)) as [Hp Hs]. split.
    + rewrite Hp, insert_label_Permutation. apply Permutation_middle.
    + intros Hacc. apply Hs. now apply insert_label_sorted.
Qed.

Lemma partition_three (rows : list Feature.t) :
  length rows
  = (length (List.filter Feature.passes rows)
     + length (List.filter
                 (fun f => negb (Feature.passes f) && Feature.in_progress f) rows)
     + length (List.filter
                 (fun f => negb (Feature.passes f) && negb (Feature.in_progress f))
                 rows))%nat.
Proof.
  induction rows as [|f rows IH]; [reflexivity|]. cbn [List.filter].
  destruct (Feature.passes f), (Feature.in_progress f);
    cbn [negb andb length]; lia.
Qed.

(** X25. The answer of [feature_get_labels] has one entry for each label
    that occurs in the table, [None] among them, and no other entry; the
    entry counts the features with the label, and those of them that pass,
    that are in progress without passing, and that are neither, so that the
    three add up to [count]. The entries are sorted: the one for [None]
    first, then by label. *)
Theorem feature_get_labels_counts (d : db) :
  (forall s, In s (feature_get_labels d) ->
     let rows := with_label (LabelStats.label s) (features d) in
     rows <> []
     /\ LabelStats.count s = length rows
     /\ LabelStats.passing s = length (List.filter Feature.passes rows)
     /\ LabelStats.in_progress s
        = length (List.filter
                    (fun f => negb (Feature.passes f) && Feature.in_progress f)
                    rows)
     /\ LabelStats.pending s
        = length (List.filter
                    (fun f => negb (Feature.passes f)
                              && negb (Feature.in_progress f)) rows)
     /\ LabelStats.count s
        = (LabelStats.passing s + LabelStats.in_progress s
           + LabelStats.pending s)%nat)
  /\ (forall f, In f (features d) ->
        exists s, In s (feature_get_labels d)
                  /\ LabelStats.label s = Feature.label f)
  /\ List.NoDup (map LabelStats.label (feature_get_labels d))
  /\ StronglySorted by_label_key (feature_get_labels d).
Proof.
  unfold feature_get_labels.
  set (stats := fold_left (fun stats f => count_feature f stats) (features d) []).
  destruct (label_stats_inv (features d) [] []) as [Hfind Hnd];
    [reflexivity|constructor|]. cbn [app] in Hfind. fold stats in Hfind, Hnd.
  destruct (sort_labels_acc stats []) as [Hperm Hsorted]. cbn [app] in Hperm.
  split; [|split; [|split]].
  - intros s Hin. rewrite Hperm in Hin.
    pose proof (In_find_label stats s Hnd Hin) as Hs.
    rewrite Hfind in Hs. unfold entry in Hs.
    destruct s as [l c pa pe ip].
    cbn [LabelStats.label LabelStats.count LabelStats.passing
         LabelStats.pending LabelStats.in_progress] in *.
    set (rows := with_label l (features d)) in *.
    assert (Hrows : rows <> []) by (intros E; now rewrite E in Hs).
    assert (Hs' : LabelStats.mk l c pa pe ip = stats_of l (features d)).
    { destruct rows; congruence. }
    unfold stats_of in Hs'. fold rows in Hs'.
    injection Hs' as -> -> -> ->.
    split; [exact Hrows|]. repeat (split; [reflexivity|]).
    apply partition_three.
  - intros f Hin.
    assert (Hne : with_label (Feature.label f) (features d) <> []).
    { intros H. assert (Hf : In f (with_label (Feature.label f) (features d))).
      { apply List.filter_In. split; [exact Hin|apply label_eqb_refl]. }
      rewrite H in Hf. destruct Hf. }
    specialize (Hfind (Feature.label f)). unfold entry in Hfind.
    destruct (with_label (Feature.label f) (features d)) eqn:E; [congruence|].
    apply find_label_In in Hfind as [Hs Hl].
    eexists. split; [rewrite Hperm; exact Hs|exact Hl].
  - eapply Permutation_NoDup; [|exact Hnd].
    symmetry. now apply Permutation_map.
  - apply Hsorted. constructor.
Qed.

Lemma feature_get_labels_counts_witness :
  exists s,
    In s (feature_get_labels sample_db)
    /\ LabelStats.label s = None
    /\ LabelStats.count s
       = (LabelStats.passing s + LabelStats.in_progress s
          + LabelStats.pending s)%nat.
Proof.
  destruct (feature_get_labels_counts sample_db) as (H1 & H2 & _).
  destruct (H2 (sample_feature 2 7 false false None)) as (s & Hin & Hl);
    [cbn; tauto|].
  exists s. split; [exact Hin|]. split; [exact Hl|]. apply (H1 s Hin).
Defined.

(** * Two claims at the same time *)

(** Run to its end before anything else happens, the query followed by
    the commit is the tool. *)
Lemma feature_claim_next_select_commit agent_id d :
  claim_commit agent_id (claim_select agent_id d) d
  = feature_claim_next agent_id d.
Proof. reflexivity. Qed.

Lemma claim_select_unclaimed agent_id d :
  unclaimed_queue d ->
  claim_select agent_id d
  = order_first (List.filter (fun f => negb (Feature.passes f)) (features d)).
Proof.
  intros [_ Hrows]. unfold claim_select. f_equal.
  induction (features d) as [|f rows IH]; [reflexivity|].
  apply List.Forall_cons_iff in Hrows as [[Hip Ha] Hrows].
  cbn [List.filter]. destruct (negb (Feature.passes f)); [|now apply IH].
  cbn [List.filter]. unfold claimable at 1. rewrite Ha, Hip. cbn [negb].
  f_equal. now apply IH.
Qed.

Lemma in_progress_items_unclaimed rows :
  Forall (fun f => Feature.in_progress f = false
                   /\ Feature.assigned_agent_id f = None) rows ->
  List.filter Feature.in_progress rows = [].
Proof.
  induction 1 as [|f rows [Hf _] _ IH]; [reflexivity|].
  cbn [List.filter]. now rewrite Hf.
Qed.

(** C1. Two calls of [feature_claim_next] by different agents do not keep
    the claim when they run at the same time: on a table where nothing is
    claimed and two items or more are open, if both queries run before
    either commit, both agents are answered with the same item as theirs,
    and after both calls have returned one item is in progress, not two,
    assigned to the agent that committed last. *)
Theorem feature_claim_next_interleaved_same_item (a b : string) (d : db) :
  unclaimed_queue d ->
  (2 <= length (incomplete_items d))%nat ->
  a <> b ->
  exists f d2,
    In f (features d)
    /\ claim_interleaved a b d
       = (Success (claimed_by a f), Success (claimed_by b f), d2)
    /\ in_progress_items d2 = [claimed_by b f]
    /\ ~ two_claims_counted d d2.
Proof.
  intros Hq Hm Hab. pose proof Hq as [Hids Hrows].
  unfold claim_interleaved. rewrite !(claim_select_unclaimed _ d Hq).
  destruct (order_first _) as [f|] eqn:Hsel.
  - apply order_first_In in Hsel. apply List.filter_In in Hsel as [Hin _].
    set (d2 := mkdb (commit_feature (claimed_by b f) (features d))
                 (step_progress d)).
    exists f, d2. split; [exact Hin|]. split.
    { cbn [claim_commit features step_progress]. fold (claimed_by a f).
      fold (claimed_by b f).
      now rewrite (commit_feature_again (claimed_by a f) (claimed_by b f)). }
    destruct (commit_feature_split (features d) f (claimed_by b f) Hids Hin eq_refl)
      as (l1 & l2 & Hrows_eq & Hcommit).
    assert (Hone : in_progress_items d2 = [claimed_by b f]).
    { unfold in_progress_items, d2. cbn [features]. rewrite Hcommit.
      rewrite Hrows_eq in Hrows. apply List.Forall_app in Hrows as [Hl1 Hl2].
      apply List.Forall_cons_iff in Hl2 as [_ Hl2].
      rewrite List.filter_app. cbn [List.filter].
      rewrite (in_progress_items_unclaimed l1 Hl1),
        (in_progress_items_unclaimed l2 Hl2). reflexivity. }
    split; [exact Hone|].
    intros [Hcount _]. rewrite Hone in Hcount. cbn [length] in Hcount. lia.
  - apply order_first_None in Hsel. unfold incomplete_items in Hm.
    rewrite Hsel in Hm. cbn [length] in Hm. lia.
Qed.

Lemma feature_claim_next_interleaved_same_item_witness :
  exists f d2,
    In f (features two_pending_db)
    /\ claim_interleaved "a" "b" two_pending_db
       = (Success (claimed_by "a" f), Success (claimed_by "b" f), d2)
    /\ in_progress_items d2 = [claimed_by "b" f]
    /\ ~ two_claims_counted two_pending_db d2.
Proof.
  apply (feature_claim_next_interleaved_same_item "a" "b" two_pending_db).
  - split; [cbn; repeat constructor; cbn; intuition discriminate|].
    repeat constructor.
  - cbn. lia.
  - discriminate.
Defined.
